(** * Conversational orchestration and scheduling core: a shallow embedding

  The development follows the Python sources of the assistant:

  - [calendar_manager.py]  the SQLite-backed availability and booking engine,
  - [privacy.py]           the regular-expression privacy filter,
  - [nlu_engine.py]        local intent resolution and its rule-based fallback,
  - [cloud_proxy.py]       the opt-in remote inference proxy,
  - [orchestrator.py]      the dispatch loop.

  Conventions of the embedding.

  - A [datetime] is its wall clock, the number of microseconds since
    0001-01-01T00:00:00, and the UTC offset of its [tzinfo], if it has
    one; arithmetic that leaves the years 1..9999 raises [OverflowError]
    as in Python.  The SQL statements compare the [isoformat()] texts of
    the datetimes: the fields of the wall clock, fixed in width and the
    most significant first, and then the offset.  Two such texts compare
    as the wall clocks do, and on equal wall clocks as the texts of the
    offsets do.
  - A Python [str] is a list of code points below 256 ([list ascii], or
    [string] where the text is only stored and compared).
  - Code that can raise runs in a state-and-exception monad over the
    database; a loop that the code runs with [while] takes fuel, and
    running out of fuel is a result of its own ([OutOfFuel]). *)

From Stdlib Require Import ZArith QArith Lia List Bool Ascii String.
From Stdlib Require Import DecimalString DecimalNat.
From stdpp Require Import base option list gmap strings.

Local Open Scope Z_scope.

(** ** Exceptions and outcomes *)

Inductive exn : Type :=
| OverflowError
| TypeError
| KeyError (key : string)
| AttributeError
| SqliteError (msg : string).

Inductive outcome (A : Type) : Type :=
| Ok (a : A)
| Raise (e : exn)
| OutOfFuel.

Arguments Ok {A} a.
Arguments Raise {A} e.
Arguments OutOfFuel {A}.

(** ** Datetimes *)

Module Time.

(** A [datetime]: the wall clock, and the UTC offset in microseconds of an
    aware one ([None] for a naive one).  An aware datetime is one that
    [datetime.fromisoformat] builds from a text with an offset: its
    [tzinfo] is a fixed offset strictly between -24 and 24 hours. *)
Record datetime : Type := {
  wall : Z;
  utcoffset : option Z
}.

Definition naive (t : Z) : datetime := {| wall := t; utcoffset := None |}.

(** One past [datetime.max] (9999-12-31T23:59:59.999999): 3652059 days. *)
Definition MAX_US : Z := 3652059 * 86400 * 1000000.

Definition in_range (t : Z) : bool := (0 <=? t) && (t <? MAX_US).

Definition minutes (m : Z) : Z := m * 60000000.
Definition hours (h : Z) : Z := h * 3600000000.
Definition days (d : Z) : Z := d * 86400000000.

(** The datetime [delta] microseconds later on the same [tzinfo]. *)
Definition shift (t : datetime) (delta : Z) : datetime :=
  {| wall := wall t + delta; utcoffset := utcoffset t |}.

(** [t + timedelta(...)]: the sum is made on the wall clock and keeps the
    [tzinfo]; [OverflowError] out of range. *)
Definition add (t : datetime) (delta : Z) : outcome datetime :=
  if in_range (wall t + delta) then Ok (shift t delta) else Raise OverflowError.

(** [a < b] for two datetimes of the same [tzinfo], as
    [_suggest_alternatives] compares a probe with its horizon: the wall
    clocks are compared. *)
Definition ltb (a b : datetime) : bool := wall a <? wall b.

(** The point in time: the wall clock less the offset; a naive datetime is
    read as it stands. *)
Definition instant (t : datetime) : Z := wall t - default 0 (utcoffset t).

(** [isoformat()] writes the offset behind the wall clock: nothing for a
    naive datetime, else the sign, hours and minutes, the seconds when
    seconds or microseconds are not zero, and the microseconds when they
    are not zero. *)
Definition digit (n : Z) : string :=
  String (ascii_of_nat (48 + Z.to_nat (n mod 10))) EmptyString.

Definition two_digits (n : Z) : string := digit (n / 10) +:+ digit n.

Definition six_digits (n : Z) : string :=
  digit (n / 100000) +:+ digit (n / 10000) +:+ digit (n / 1000)
  +:+ digit (n / 100) +:+ digit (n / 10) +:+ digit n.

Definition format_offset (off : option Z) : string :=
  match off with
  | None => ""
  | Some o =>
      let a := Z.abs o in
      let ss := (a mod 60000000) / 1000000 in
      let us := a mod 1000000 in
      (if o <? 0 then "-" else "+")
      +:+ two_digits (a / 3600000000) +:+ ":"
      +:+ two_digits ((a mod 3600000000) / 60000000)
      +:+ (if (ss =? 0) && (us =? 0) then ""
           else ":" +:+ two_digits ss
                +:+ (if us =? 0 then "" else "." +:+ six_digits us))
  end.

(** The order of the [isoformat()] texts, which is the order SQLite puts
    two stored texts in: first the wall clocks, then the offsets as
    texts. *)
Definition iso_ltb (a b : datetime) : bool :=
  (wall a <? wall b)
  || ((wall a =? wall b)
      && String.ltb (format_offset (utcoffset a)) (format_offset (utcoffset b))).

Definition iso_leb (a b : datetime) : bool := negb (iso_ltb b a).

Arguments in_range : simpl never.
Arguments add : simpl never.
Arguments minutes : simpl never.
Arguments hours : simpl never.
Arguments days : simpl never.
Arguments format_offset : simpl never.

End Time.

Coercion Time.wall : Time.datetime >-> Z.

(** ** The calendar database *)

Module Store.

(** A row of the [appointments] table.  [status] is a nullable text column
    with default ['confirmed']. *)
Record appointment : Type := {
  appt_id : Z;
  title : string;
  description : string;
  start_datetime : Time.datetime;
  end_datetime : Time.datetime;
  attendees : list string;
  status : option string;
  created_by : string;
  call_log_id : option Z
}.

Record window : Type := {
  day_of_week : Z;
  start_time : string;
  end_time : string;
  buffer_minutes : Z
}.

(** The database file: the columns the [appointments] table was created
    with (CREATE TABLE IF NOT EXISTS keeps an older table as it is), its
    rows in rowid order, the AUTOINCREMENT counter, and the windows. *)
Record db : Type := {
  columns : list string;
  appointments : list appointment;
  seq : Z;
  availability_windows : list window
}.

(** The columns of the table that [_init_db] creates. *)
Definition init_columns : list string :=
  ["id"; "title"; "description"; "start_datetime"; "end_datetime";
   "attendees"; "status"; "created_at"; "call_log_id"]%string.

(** The default windows [(i, '09:00', '17:00', 15) for i in range(5)]. *)
Definition default_windows : list window :=
  map (fun i => {| day_of_week := i; start_time := "09:00";
                   end_time := "17:00"; buffer_minutes := 15 |})
      [0; 1; 2; 3; 4].

(** A table that was created with the [created_by] column as well. *)
Definition full_columns : list string := init_columns ++ ["created_by"%string].

(** The database after [_init_db] ran on an empty file.  The statement that
    creates [availability_windows] is read with its string literal closed
    where the statement ends: the file closes it with one quote where the
    literal needs three, and Python does not parse the module as it
    stands. *)
Definition init_db : db :=
  {| columns := init_columns; appointments := []; seq := 0;
     availability_windows := default_windows |}.

(** An empty database whose table has every column the INSERT of
    [book_appointment] names. *)
Definition empty_db : db :=
  {| columns := full_columns; appointments := []; seq := 0;
     availability_windows := default_windows |}.

(** State and exception monad over the database. *)
Definition M (A : Type) : Type := db -> outcome A * db.

Definition ret {A} (a : A) : M A := fun d => (Ok a, d).
Definition raise {A} (e : exn) : M A := fun d => (Raise e, d).
Definition bind {A B} (c : M A) (k : A -> M B) : M B :=
  fun d => match c d with
           | (Ok a, d') => k a d'
           | (Raise e, d') => (Raise e, d')
           | (OutOfFuel, d') => (OutOfFuel, d')
           end.
Definition lift {A} (o : outcome A) : M A := fun d => (o, d).

(** [try: c  except sqlite3.Error as e: h(str(e))] *)
Definition try_sqlite {A} (c : M A) (h : string -> M A) : M A :=
  fun d => match c d with
           | (Raise (SqliteError msg), d') => h msg d'
           | r => r
           end.

(** A statement that names a column the table does not have fails when it
    is prepared. *)
Definition missing_column (cols : list string) (d : db) : option string :=
  find (fun c => negb (existsb (String.eqb c) (columns d))) cols.

Definition no_such_column (c : string) : string :=
  ("no such column: " +:+ c)%string.
Definition no_column_named (c : string) : string :=
  ("table appointments has no column named " +:+ c)%string.

(** SELECT over the appointments: reads, never writes. *)
Definition select {A} (cols : list string) (q : list appointment -> A) : M A :=
  fun d => match missing_column cols d with
           | Some c => (Raise (SqliteError (no_such_column c)), d)
           | None => (Ok (q (appointments d)), d)
           end.

(** The rowid an AUTOINCREMENT table gives the next row. *)
Definition next_rowid (d : db) : Z :=
  1 + fold_right Z.max (seq d) (map appt_id (appointments d)).

(** INSERT of one row and commit; returns [lastrowid]. *)
Definition insert (cols : list string) (mk : Z -> appointment) : M Z :=
  fun d => match missing_column cols d with
           | Some c => (Raise (SqliteError (no_column_named c)), d)
           | None =>
               let i := next_rowid d in
               (Ok i, {| columns := columns d;
                         appointments := appointments d ++ [mk i];
                         seq := i;
                         availability_windows := availability_windows d |})
           end.

Arguments missing_column : simpl never.
Arguments next_rowid : simpl never.

End Store.

Notation "'do' x <- c ; k" := (Store.bind c (fun x => k))
(at level 10, x name, c at level 100, k at level 200,
 format "'[v' 'do'  x  <-  c ; '/' k ']'").

(** ** calendar_manager.py: [CalendarManager] *)

Module Calendar.
Import Store.

(** [status != 'cancelled']: a NULL status compares to NULL, which the
    WHERE clause treats as false. *)
Definition not_cancelled (a : appointment) : bool :=
  match status a with
  | Some s => negb (String.eqb s "cancelled")
  | None => false
  end.

(** The three alternatives on [start_datetime] and [end_datetime] in the
    WHERE clause of [check_availability], with the bindings
    [(end_dt, dt, end_dt, dt, dt, end_dt)] as [isoformat()] texts: the
    stored texts are compared with them as texts. *)
Definition conflict_intervals (dt end_dt start_ end_ : Time.datetime) : bool :=
  (Time.iso_ltb start_ end_dt && Time.iso_ltb dt end_)
  || (Time.iso_ltb start_ end_dt && Time.iso_ltb dt end_)
  || (Time.iso_leb dt start_ && Time.iso_leb end_ end_dt).

Definition conflict_where (dt end_dt : Time.datetime) (a : appointment) : bool :=
  not_cancelled a &&
  conflict_intervals dt end_dt (start_datetime a) (end_datetime a).

(** The WHERE clause of [_suggest_alternatives], with the bindings
    [(end_check, check, end_check, check)]. *)
Definition probe_where (check end_check : Time.datetime) (a : appointment) : bool :=
  not_cancelled a &&
  ((Time.iso_ltb (start_datetime a) end_check
    && Time.iso_ltb check (end_datetime a))
   || (Time.iso_ltb (start_datetime a) end_check
       && Time.iso_ltb check (end_datetime a))).

Definition conflict_columns : list string :=
  ["id"; "title"; "status"; "start_datetime"; "end_datetime"]%string.
Definition probe_columns : list string :=
  ["status"; "start_datetime"; "end_datetime"]%string.

(** The dictionary [check_availability] returns; a key that is absent is
    [None].  [suggested_times] holds the datetimes whose ISO texts the
    code returns. *)
Record availability : Type := {
  available : bool;
  conflicts : option (list (Z * string));
  suggested_times : option (list Time.datetime);
  error : option string
}.

(** The [while] loop of [_suggest_alternatives]. *)
Fixpoint suggest_loop (fuel : nat) (preferred : Time.datetime) (duration limit : Z)
    (check : Time.datetime) (suggestions : list Time.datetime)
    : M (list Time.datetime) :=
  match fuel with
  | O => lift OutOfFuel
  | S fuel' =>
      if Z.of_nat (length suggestions) <? limit then
        do horizon <- lift (Time.add preferred (Time.days 7));
        if Time.ltb check horizon then
          do end_check <- lift (Time.add check (Time.minutes duration));
          do row <- select probe_columns (existsb (probe_where check end_check));
          let suggestions' :=
            if row then suggestions else suggestions ++ [check] in
          do check' <- lift (Time.add check (Time.hours 1));
          suggest_loop fuel' preferred duration limit check' suggestions'
        else ret suggestions
      else ret suggestions
  end.

(** The probes are an hour apart and stay below [preferred + 7 days]:
    168 rounds reach the end of the loop. *)
Definition suggest_fuel : nat := 168.

Definition _suggest_alternatives (preferred : Time.datetime) (duration limit : Z)
    : M (list Time.datetime) :=
  do check <- lift (Time.add preferred (Time.hours 1));
  suggest_loop suggest_fuel preferred duration limit check [].

Definition check_availability (dt : Time.datetime) (duration_minutes : Z)
    : M availability :=
  try_sqlite
    (do end_dt <- lift (Time.add dt (Time.minutes duration_minutes));
     do found <- select conflict_columns (List.filter (conflict_where dt end_dt));
     match found with
     | [] => ret {| available := true; conflicts := Some [];
                    suggested_times := Some []; error := None |}
     | _ :: _ =>
         do suggestions <- _suggest_alternatives dt duration_minutes 3;
         ret {| available := false;
                conflicts := Some (map (fun c => (appt_id c, title c)) found);
                suggested_times := Some suggestions; error := None |}
     end)
    (fun msg => ret {| available := false; conflicts := None;
                       suggested_times := None; error := Some msg |}).

(** The two texts of the ["message"] key: ["Slot not available"] and
    [f"Booked for {start_datetime.strftime('%B %d at %I:%M %p')}"]. *)
Inductive message : Type :=
| SlotNotAvailable
| BookedFor (start : Time.datetime).

(** The dictionary [book_appointment] returns. *)
Record booking : Type := {
  success : bool;
  appointment_id : option Z;
  booking_message : option message;
  booking_conflicts : option (list (Z * string));
  booking_error : option string
}.

(** The keyword arguments [book_appointment] reads from [**kwargs]. *)
Record kwargs : Type := {
  kw_description : option string;
  kw_created_by : option string;
  kw_call_log_id : option Z
}.

Definition no_kwargs : kwargs :=
  {| kw_description := None; kw_created_by := None; kw_call_log_id := None |}.

Record request : Type := {
  req_title : string;
  req_start : Time.datetime;
  req_duration : Z;
  req_attendees : option (list string);
  req_kwargs : kwargs
}.

Definition insert_columns : list string :=
  ["title"; "description"; "start_datetime"; "end_datetime"; "attendees";
   "created_by"; "call_log_id"]%string.

Definition sqlite_failure (msg : string) : M booking :=
  ret {| success := false; appointment_id := None; booking_message := None;
         booking_conflicts := None; booking_error := Some msg |}.

(** First half of [book_appointment]: the availability check.  [inl] is
    the early return, [inr tt] goes on to the INSERT. *)
Definition book_check (r : request) : M (booking + unit) :=
  do avail <- check_availability (req_start r) (req_duration r);
  if negb (available avail) then
    match conflicts avail with
    | Some cs =>
        ret (inl {| success := false; appointment_id := None;
                    booking_message := Some SlotNotAvailable;
                    booking_conflicts := Some cs; booking_error := None |})
    | None => raise (KeyError "conflicts")
    end
  else ret (inr tt).

(** Second half: the INSERT in a connection of its own. *)
Definition book_insert (r : request) : M booking :=
  do end_dt <- lift (Time.add (req_start r) (Time.minutes (req_duration r)));
  do rowid <- insert insert_columns (fun i =>
      {| appt_id := i;
         title := req_title r;
         description := default ""%string (kw_description (req_kwargs r));
         start_datetime := req_start r;
         end_datetime := end_dt;
         attendees := default [] (req_attendees r);
         status := Some "confirmed"%string;
         created_by := default "system"%string (kw_created_by (req_kwargs r));
         call_log_id := kw_call_log_id (req_kwargs r) |});
  ret {| success := true; appointment_id := Some rowid;
         booking_message := Some (BookedFor (req_start r));
         booking_conflicts := None; booking_error := None |}.

Definition book_appointment (r : request) : M booking :=
  try_sqlite
    (do checked <- book_check r;
     match checked with
     | inl early => ret early
     | inr _ => book_insert r
     end)
    sqlite_failure.

End Calendar.

(** ** Two callers of [book_appointment] on one database

  [book_appointment] opens one connection for the availability check and
  another one for the INSERT, and holds no lock in between: each of its
  two halves is one or more statements that SQLite runs on its own, and
  the halves of two callers (threads or worker processes) can alternate. *)

Module Race.
Import Store Calendar.

Inductive caller : Type :=
| Ready (r : request)
| Checked (r : request)
| Returned (res : outcome booking).

(** What the [try ... except sqlite3.Error] of [book_appointment] makes of
    the outcome of either half. *)
Definition guarded (o : outcome booking) : outcome booking :=
  match o with
  | Raise (SqliteError msg) =>
      Ok {| success := false; appointment_id := None; booking_message := None;
            booking_conflicts := None; booking_error := Some msg |}
  | _ => o
  end.

(** One caller runs its next half. *)
Definition step (c : caller) (d : db) : caller * db :=
  match c with
  | Ready r =>
      match book_check r d with
      | (Ok (inl early), d') => (Returned (Ok early), d')
      | (Ok (inr _), d') => (Checked r, d')
      | (Raise e, d') => (Returned (guarded (Raise e)), d')
      | (OutOfFuel, d') => (Returned OutOfFuel, d')
      end
  | Checked r =>
      let '(o, d') := book_insert r d in (Returned (guarded o), d')
  | Returned res => (Returned res, d)
  end.

(** A schedule says which caller moves next: [false] the first one,
    [true] the second. *)
Fixpoint run (schedule : list bool) (a b : caller) (d : db)
    : caller * caller * db :=
  match schedule with
  | [] => (a, b, d)
  | false :: rest => let '(a', d') := step a d in run rest a' b d'
  | true :: rest => let '(b', d') := step b d in run rest a b' d'
  end.

End Race.


(** ** privacy.py: [PrivacyFilter] *)

Module Privacy.

Definition text : Type := list ascii.

Local Open Scope nat_scope.

Definition code (c : ascii) : nat := nat_of_ascii c.

Definition between (lo hi : nat) (c : ascii) : bool :=
  (lo <=? code c) && (code c <=? hi).

Definition is_char (a c : ascii) : bool := Ascii.eqb a c.

(** [\d], [[A-Z]] and [[a-z]]. *)
Definition is_digit (c : ascii) : bool := between 48 57 c.
Definition is_upper (c : ascii) : bool := between 65 90 c.
Definition is_lower (c : ascii) : bool := between 97 122 c.

(** [\w] on the code points below 256: the ASCII letters, digits and the
    underscore, and the letters and numeric characters of Latin-1. *)
Definition is_word (c : ascii) : bool :=
  is_digit c || is_upper c || is_char "_" c || is_lower c
  || between 170 170 c || between 178 179 c || between 181 181 c
  || between 185 186 c || between 188 190 c || between 192 214 c
  || between 216 246 c || between 248 255 c.

(** [[\w\.-]] and [[\d\-\(\)]]. *)
Definition is_email_char (c : ascii) : bool :=
  is_word c || is_char "." c || is_char "-" c.
Definition is_phone_char (c : ascii) : bool :=
  is_digit c || is_char "-" c || is_char "(" c || is_char ")" c.

Arguments is_char : simpl never.
Arguments is_digit : simpl never.
Arguments is_upper : simpl never.
Arguments is_lower : simpl never.
Arguments is_word : simpl never.
Arguments is_email_char : simpl never.
Arguments is_phone_char : simpl never.

(** *** The regular expressions

    The three patterns are sequences of four kinds of items: the word
    boundary, one character of a class, an optional character (greedy), and
    a greedy repetition of a class with a least count. *)
Inductive atom : Type :=
| Boundary
| One (p : ascii -> bool)
| Opt (p : ascii -> bool)
| Rep (p : ascii -> bool) (least : nat).

Definition regex : Type := list atom.

Definition word_at (c : option ascii) : bool :=
  match c with
  | Some c => is_word c
  | None => false
  end.

(** [\b] between the character before the position and the one at it; the
    ends of the string count as non-word characters. *)
Definition is_boundary (prev next : option ascii) : bool :=
  xorb (word_at prev) (word_at next).

Arguments is_boundary : simpl never.

(** The backtracking matcher.  [bmatch r prev s] is the length of the match
    of [r] that starts at the head of [s], where [prev] is the character
    before it; alternatives are tried in the order of Python's [re]: a
    greedy item first takes all it can and gives back one character at a
    time.  [rest] is the matcher of the items that follow. *)
Definition one_match (p : ascii -> bool) (rest : option ascii -> text -> option nat)
    (s : text) : option nat :=
  match s with
  | c :: s' => if p c then option_map S (rest (Some c) s') else None
  | [] => None
  end.

Fixpoint rep_match (p : ascii -> bool) (rest : option ascii -> text -> option nat)
    (least : nat) (prev : option ascii) (s : text) : option nat :=
  let stop := if least =? 0 then rest prev s else None in
  match s with
  | c :: s' =>
      if p c then
        match rep_match p rest (pred least) (Some c) s' with
        | Some n => Some (S n)
        | None => stop
        end
      else stop
  | [] => stop
  end.

Fixpoint bmatch (r : regex) : option ascii -> text -> option nat :=
  match r with
  | [] => fun _ _ => Some 0
  | Boundary :: r' => fun prev s =>
      if is_boundary prev (head s) then bmatch r' prev s else None
  | One p :: r' => fun _ s => one_match p (bmatch r') s
  | Opt p :: r' => fun prev s =>
      match one_match p (bmatch r') s with
      | Some n => Some n
      | None => bmatch r' prev s
      end
  | Rep p least :: r' => rep_match p (bmatch r') least
  end.

(** [r'\b[\w\.-]+@[\w\.-]+\.\w+\b'] *)
Definition email_pattern : regex :=
  [Boundary; Rep is_email_char 1; One (is_char "@"); Rep is_email_char 1;
   One (is_char "."); Rep is_word 1; Boundary].

(** [r'\b\+?[\d\-\(\)]{10,}\b'] *)
Definition phone_pattern : regex :=
  [Boundary; Opt (is_char "+"); Rep is_phone_char 10; Boundary].

(** [r'\b[A-Z][a-z]+ [A-Z][a-z]+\b'] *)
Definition name_pattern : regex :=
  [Boundary; One is_upper; Rep is_lower 1; One (is_char " ");
   One is_upper; Rep is_lower 1; Boundary].

(** [self.patterns], in the order of the dictionary. *)
Definition patterns : list (text * regex) :=
  [(list_ascii_of_string "email", email_pattern);
   (list_ascii_of_string "phone", phone_pattern);
   (list_ascii_of_string "name", name_pattern)].

(** *** The mapping *)

(** A Python [dict] from placeholders to originals, in insertion order. *)
Definition mapping : Type := list (text * text).

Fixpoint text_eqb (a b : text) : bool :=
  match a, b with
  | [], [] => true
  | x :: a', y :: b' => Ascii.eqb x y && text_eqb a' b'
  | _, _ => false
  end.

(** [mapping[key] = value]: an existing key keeps its place. *)
Fixpoint dict_set (key value : text) (m : mapping) : mapping :=
  match m with
  | [] => [(key, value)]
  | (k, v) :: m' =>
      if text_eqb k key then (k, value) :: m' else (k, v) :: dict_set key value m'
  end.

(** [str.upper] on the letters a-z. *)
Definition upper_char (c : ascii) : ascii :=
  if is_lower c then ascii_of_nat (code c - 32) else c.
Definition upper (s : text) : text := map upper_char s.

(** [str(n)] for a natural number. *)
Definition decimal (n : nat) : text :=
  list_ascii_of_string (NilEmpty.string_of_uint (Nat.to_uint n)).

(** [f"[{pii_type.upper()}_{len(mapping)}]"] *)
Definition placeholder (pii_type : text) (n : nat) : text :=
  "["%char :: upper pii_type ++ "_"%char :: decimal n ++ ["]"%char].

Arguments placeholder : simpl never.

(** *** [re.sub(pattern, repl, text)]

    The scan goes through the text from left to right.  At a position that
    is not inside the last match it tries the pattern; a match is replaced
    by what [repl] returns, and the scan goes on behind it ([skip] counts
    the characters of the match still to pass); otherwise the character is
    copied.  [prev] is the character before the position in the text that
    is scanned.  None of the three patterns matches the empty string, and
    an empty match is treated as no match. *)
Fixpoint sub_scan (pattern : regex) (pii_type : text) (prev : option ascii)
    (skip : nat) (s : text) (m : mapping) : text * mapping :=
  match s with
  | [] => ([], m)
  | c :: s' =>
      match skip with
      | S k => sub_scan pattern pii_type (Some c) k s' m
      | O =>
          match bmatch pattern prev s with
          | Some (S k) =>
              let ph := placeholder pii_type (length m) in
              let m1 := dict_set ph (firstn (S k) s) m in
              let '(out, m2) := sub_scan pattern pii_type (Some c) k s' m1 in
              (ph ++ out, m2)
          | _ =>
              let '(out, m2) := sub_scan pattern pii_type (Some c) 0 s' m in
              (c :: out, m2)
          end
      end
  end.

Definition re_sub (pattern : regex) (pii_type : text) (s : text) (m : mapping)
    : text * mapping :=
  sub_scan pattern pii_type None 0 s m.

(** [anonymize_text]: one [re.sub] per pattern, on the text the one before
    left, with one mapping for all. *)
Definition anonymize_text (t : text) : text * mapping :=
  fold_left (fun '(s, m) '(pii_type, pattern) => re_sub pattern pii_type s m)
    patterns (t, []).

(** *** [str.replace(old, new)] *)

Fixpoint starts_with (old s : text) : bool :=
  match old, s with
  | [], _ => true
  | a :: old', c :: s' => Ascii.eqb a c && starts_with old' s'
  | _ :: _, [] => false
  end.

(** Every occurrence of a non-empty [old], from left to right and without
    overlap. *)
Fixpoint replace_scan (old new : text) (skip : nat) (s : text) : text :=
  match s with
  | [] => []
  | c :: s' =>
      match skip with
      | S k => replace_scan old new k s'
      | O =>
          if starts_with old s
          then new ++ replace_scan old new (length old - 1) s'
          else c :: replace_scan old new 0 s'
      end
  end.

(** An empty [old] matches before every character and at the end. *)
Definition replace (old new s : text) : text :=
  match old with
  | [] => flat_map (fun c => new ++ [c]) s ++ new
  | _ :: _ => replace_scan old new 0 s
  end.

(** [deanonymize_text]: the placeholders are replaced in the order of the
    mapping. *)
Definition deanonymize_text (anonymized : text) (m : mapping) : text :=
  fold_left (fun s '(ph, original) => replace ph original s) m anonymized.

(** [re.search(pattern, s) is not None]: the pattern matches at some
    position of [s] (the end included). *)
Fixpoint search_from (pattern : regex) (prev : option ascii) (s : text) : bool :=
  match bmatch pattern prev s with
  | Some _ => true
  | None =>
      match s with
      | [] => false
      | c :: s' => search_from pattern (Some c) s'
      end
  end.

Definition search (pattern : regex) (s : text) : bool :=
  search_from pattern None s.

End Privacy.

(** ** Python values and dictionaries *)

Module Py.

(** The texts [_execute_intent] answers with.  A text that is formatted
    from a value is kept as its format and the value. *)
Inductive reply : Type :=
| Say (s : string)
| YesAvailable (dt : Time.datetime)
    (* f"Yes, {dt} is available. Would you like to book it?" *)
| HowAbout (suggestion : Time.datetime)
    (* f"That time is not available. How about {suggestions[0]}?" *)
| Message (m : Calendar.message)
    (* result["message"] *)
| TaskCreated (task_id : Z).
    (* f"Task created with ID {task_id}." *)

(** The values that the dictionaries of the dispatch loop hold: what
    [json.loads] returns, the floats the code writes for ["confidence"],
    datetimes, and the replies kept in a session. *)
#[local] Unset Elimination Schemes.
Inductive value : Type :=
| VNone
| VBool (b : bool)
| VInt (z : Z)
| VFloat (q : Q)
| VStr (s : Privacy.text)
| VDatetime (t : Time.datetime)
| VReply (r : reply)
| VList (l : list value)
| VDict (items : list (string * value)).
#[local] Set Elimination Schemes.

(** A [dict] with [str] keys, in insertion order. *)
Definition dict : Type := list (string * value).

(** [d.get(key)]: [None] when the key is absent. *)
Fixpoint get (key : string) (d : dict) : option value :=
  match d with
  | [] => None
  | (k, v) :: d' => if String.eqb k key then Some v else get key d'
  end.

(** [d.get(key, dflt)] *)
Definition get_default (key : string) (dflt : value) (d : dict) : value :=
  match get key d with
  | Some v => v
  | None => dflt
  end.

(** [d[key]]: [KeyError] when the key is absent. *)
Definition item (key : string) (d : dict) : outcome value :=
  match get key d with
  | Some v => Ok v
  | None => Raise (KeyError key)
  end.

(** [d[key] = v]: an existing key keeps its place. *)
Fixpoint set (key : string) (v : value) (d : dict) : dict :=
  match d with
  | [] => [(key, v)]
  | (k, v0) :: d' =>
      if String.eqb k key then (k, v) :: d' else (k, v0) :: set key v d'
  end.

(** Truth value of a value, as [if x:] and [not x] take it. *)
Definition truthy (v : value) : bool :=
  match v with
  | VNone => false
  | VBool b => b
  | VInt z => negb (z =? 0)
  | VFloat q => negb (Qnum q =? 0)
  | VStr s => match s with [] => false | _ :: _ => true end
  | VDatetime _ => true
  | VReply _ => true
  | VList l => match l with [] => false | _ :: _ => true end
  | VDict items => match items with [] => false | _ :: _ => true end
  end.

Definition str (s : string) : value := VStr (list_ascii_of_string s).

End Py.

(** ** nlu_engine.py: [NLUEngine] *)

Module Nlu.
Import Py.

Local Open Scope nat_scope.

(** [str.lower] on the code points below 256: A-Z and the capital letters
    of Latin-1 move up by 32. *)
Definition lower_char (c : ascii) : ascii :=
  if Privacy.between 65 90 c || Privacy.between 192 214 c
     || Privacy.between 216 222 c
  then ascii_of_nat (Privacy.code c + 32) else c.

Definition lower (s : Privacy.text) : Privacy.text := map lower_char s.

(** [needle in hay] for two strings. *)
Fixpoint contains (needle hay : Privacy.text) : bool :=
  Privacy.starts_with needle hay ||
  match hay with
  | [] => false
  | _ :: hay' => contains needle hay'
  end.

Definition has (word : string) (s : Privacy.text) : bool :=
  contains (list_ascii_of_string word) s.

(** The floats the code writes. *)
Definition conf_03 : Q := 3 # 10.
Definition conf_05 : Q := 5 # 10.
Definition conf_08 : Q := 8 # 10.

Definition _rule_based_fallback (text : Privacy.text) : dict :=
  let text_lower := lower text in
  if has "available" text_lower || has "free" text_lower then
    [("intent", str "check_availability"); ("confidence", VFloat conf_05)]%string
  else if has "book" text_lower || has "schedule" text_lower then
    [("intent", str "book_appointment"); ("confidence", VFloat conf_05)]%string
  else if has "task" text_lower || has "todo" text_lower then
    [("intent", str "create_task"); ("confidence", VFloat conf_05)]%string
  else
    [("intent", str "unknown"); ("confidence", VFloat conf_03)]%string.

(** [re.search(r'\{.*\}', content, re.DOTALL)]: from the first opening
    brace to the last closing brace behind it. *)
Fixpoint upto_last_brace (s : Privacy.text) : option Privacy.text :=
  match s with
  | [] => None
  | c :: s' =>
      match upto_last_brace s' with
      | Some span => Some (c :: span)
      | None => if Ascii.eqb c "}" then Some [c] else None
      end
  end.

Fixpoint json_span (content : Privacy.text) : option Privacy.text :=
  match content with
  | [] => None
  | c :: rest =>
      if Ascii.eqb c "{" then
        match upto_last_brace rest with
        | Some span => Some (c :: span)
        | None => None
        end
      else json_span rest
  end.

(** What [json.loads] comes to on a span that starts with a brace: the
    object, [JSONDecodeError], or another exception ([RecursionError] on a
    text that nests too deep, [ValueError] on a number of too many
    digits). *)
Inductive loads : Type :=
| Loaded (obj : dict)
| JSONDecodeError
| OtherError.

Section Engine.

(** The local model: the prompt [_build_prompt] makes of the text and the
    context goes to [ollama.chat], which answers with the content of a
    message or raises ([None]). *)
Variable ollama_chat : Privacy.text -> dict -> option Privacy.text.

Variable json_loads : Privacy.text -> loads.

(** [JSONDecodeError] has the inner handler; every other exception of the
    body goes to the outer one, which calls the fallback. *)
Definition parse_intent (text : Privacy.text) (context : dict) : dict :=
  match ollama_chat text context with
  | Some content =>
      match json_span content with
      | Some span =>
          match json_loads span with
          | Loaded obj => set "confidence" (VFloat conf_08) obj
          | JSONDecodeError =>
              set "confidence" (VFloat conf_08)
                [("intent", str "unknown"); ("raw", VStr content)]%string
          | OtherError => _rule_based_fallback text
          end
      | None =>
          set "confidence" (VFloat conf_08)
            [("intent", str "unknown"); ("text", VStr content)]%string
      end
  | None => _rule_based_fallback text
  end.

End Engine.

End Nlu.

(** ** cloud_proxy.py: [CloudProxy] *)

Module Cloud.

(** [Config.OPENAI_API_KEY] and [Config.ANTHROPIC_API_KEY], as
    [os.getenv] returns them. *)
Record config : Type := {
  OPENAI_API_KEY : option string;
  ANTHROPIC_API_KEY : option string
}.

Definition key_set (k : option string) : bool :=
  match k with
  | Some s => negb (String.eqb s "")
  | None => false
  end.

(** The fields of a [CloudProxy]; [session_open] says that [self.session]
    is a client session and not [None]. *)
Record proxy : Type := {
  enabled : bool;
  user_consent : bool;
  session_open : bool
}.

(** What one POST carries to the provider. *)
Record request : Type := {
  url : string;
  authorization : string;
  model : string;
  content : Privacy.text;
  temperature : Q
}.

(** What comes back: status 200 with the content of the first choice, a
    text or [null]; status 200 with a body that is not JSON or has no
    content of a first choice; another status; a timeout; another failure
    of the transport. *)
Inductive response : Type :=
| Status200 (content : option Privacy.text)
| Malformed200
| StatusOther (status : Z)
| Timeout
| Failed.

Section Provider.

(** The remote side: its answer to the POST of a given attempt. *)
Variable respond : nat -> request -> response.

Variable cfg : config.

Definition openai_request (prompt : Privacy.text) : request :=
  {| url := "https://api.openai.com/v1/chat/completions";
     authorization := "Bearer " +:+ default ""%string (OPENAI_API_KEY cfg);
     model := "gpt-4";
     content := prompt;
     temperature := 7 # 10 |}.

(** The loop [for attempt in range(max_retries + 1)] of [_call_openai],
    from [attempt] on, for [rounds] rounds.  The result comes with the
    requests that were sent, in order.  A status 200 ends the loop with the
    content it carries, and a content that is [null] is returned as [None]
    like any other; reading a body without a content raises, and the
    handler for [Exception] goes on to the next attempt, as it does after
    every other failure.  Without a client session the POST raises
    [AttributeError] before anything is sent. *)
Fixpoint openai_attempts (p : proxy) (prompt : Privacy.text)
    (attempt rounds : nat) : option Privacy.text * list request :=
  match rounds with
  | O => (None, [])
  | S rounds' =>
      if session_open p then
        let rq := openai_request prompt in
        match respond attempt rq with
        | Status200 content => (content, [rq])
        | _ =>
            let '(res, sent) := openai_attempts p prompt (S attempt) rounds' in
            (res, rq :: sent)
        end
      else openai_attempts p prompt (S attempt) rounds'
  end.

Definition _call_openai (p : proxy) (prompt : Privacy.text) (max_retries : Z)
    : option Privacy.text * list request :=
  openai_attempts p prompt 0 (Z.to_nat (max_retries + 1)).

(** [_call_anthropic] is [pass]. *)
Definition _call_anthropic (p : proxy) (prompt : Privacy.text) (max_retries : Z)
    : option Privacy.text * list request :=
  (None, []).

Definition call_llm (p : proxy) (prompt : Privacy.text) (max_retries : Z)
    : option Privacy.text * list request :=
  if negb (enabled p) || negb (user_consent p) then (None, [])
  else
    let '(anonymized, mapping) := Privacy.anonymize_text prompt in
    if key_set (OPENAI_API_KEY cfg) then _call_openai p anonymized max_retries
    else if key_set (ANTHROPIC_API_KEY cfg)
         then _call_anthropic p anonymized max_retries
         else (None, []).

End Provider.

End Cloud.

(** ** orchestrator.py: [HybridOrchestrator] *)

Module Orchestrator.
Import Py.

(** Modelled from the spec: [TaskManager] ([task_manager.py]) is not among
    the sources.  The spec gives it as
    [TaskStore.create(title, description?, dueDate?) -> taskId]; the task
    store is a list of the tasks that were created, and the identifier of a
    task is its position in it. *)
Record task : Type := {
  task_title : value;
  task_description : option value;
  task_due_date : option value
}.

Definition create_task (title : value) (description due_date : option value)
    (tasks : list task) : Z * list task :=
  (Z.of_nat (length tasks) + 1,
   tasks ++ [{| task_title := title; task_description := description;
                task_due_date := due_date |}]).

(** The objects a [HybridOrchestrator] holds. *)
Record state : Type := {
  calendar : Store.db;
  tasks : list task;
  cloud : Cloud.proxy;
  active_sessions : gmap string dict
}.

Definition with_calendar (st : state) (d : Store.db) : state :=
  {| calendar := d; tasks := tasks st; cloud := cloud st;
     active_sessions := active_sessions st |}.

Definition with_tasks (st : state) (ts : list task) : state :=
  {| calendar := calendar st; tasks := ts; cloud := cloud st;
     active_sessions := active_sessions st |}.

Definition with_sessions (st : state) (s : gmap string dict) : state :=
  {| calendar := calendar st; tasks := tasks st; cloud := cloud st;
     active_sessions := s |}.

(** The arguments of the calendar.  The calendar of this development is
    typed as [CalendarManager] is annotated: the duration an [int] (a
    [bool] is one), the title a [str], the attendees a list of [str].  A
    value of another type is refused here with [TypeError], which
    [_execute_intent] turns into a reply; Python itself has no such test,
    and what it makes of a float as duration or of a title that is not a
    text is outside this development.  The sum [dt + timedelta(...)] wants
    a datetime, and raises [TypeError] for every other value. *)
Definition duration_arg (v : value) : outcome Z :=
  match v with
  | VInt z => Ok z
  | VBool b => Ok (Z.b2z b)
  | _ => Raise TypeError
  end.

Definition datetime_arg (v : value) : outcome Time.datetime :=
  match v with
  | VDatetime t => Ok t
  | _ => Raise TypeError
  end.

Definition title_arg (v : value) : outcome string :=
  match v with
  | VStr s => Ok (string_of_list_ascii s)
  | _ => Raise TypeError
  end.

Fixpoint strings_arg (l : list value) : outcome (list string) :=
  match l with
  | [] => Ok []
  | VStr s :: l' =>
      match strings_arg l' with
      | Ok ss => Ok (string_of_list_ascii s :: ss)
      | o => o
      end
  | _ :: _ => Raise TypeError
  end.

Definition attendees_arg (v : value) : outcome (option (list string)) :=
  match v with
  | VNone => Ok None
  | VList l =>
      match strings_arg l with
      | Ok ss => Ok (Some ss)
      | Raise e => Raise e
      | OutOfFuel => OutOfFuel
      end
  | _ => Raise TypeError
  end.

Definition need_datetime : string :=
  "I need a date and time to check availability.".
Definition no_availability : string :=
  "Sorry, no availability around that time.".
Definition not_sure : string :=
  "I'm not sure how to help with that. Can you rephrase?".
Definition missing_details : string :=
  "I didn't get all the details. Please provide more information.".
Definition internal_error : string :=
  "Sorry, I encountered an error processing your request.".

Definition is_intent (name : string) (v : value) : bool :=
  match v with
  | VStr s => Privacy.text_eqb s (list_ascii_of_string name)
  | _ => false
  end.

(** The [check_availability] branch, on the calendar. *)
Definition check_branch (intent : dict) : Store.M reply :=
  match get "datetime" intent with
  | None => Store.ret (Say need_datetime)
  | Some dt =>
      if negb (truthy dt) then Store.ret (Say need_datetime)
      else
        do minutes <- Store.lift (duration_arg (get_default "duration" (VInt 60) intent));
        do t <- Store.lift (datetime_arg dt);
        do available <- Calendar.check_availability t minutes;
        if Calendar.available available then Store.ret (YesAvailable t)
        else
          match default [] (Calendar.suggested_times available) with
          | s :: _ => Store.ret (HowAbout s)
          | [] => Store.ret (Say no_availability)
          end
  end.

(** The [book_appointment] branch: the arguments are evaluated from left to
    right, then the calendar is called, then ["message"] is read. *)
Definition book_branch (intent : dict) : Store.M reply :=
  do title <- Store.lift (Ok (get_default "title" (str "Appointment") intent));
  do start <- Store.lift (item "datetime" intent);
  do minutes <- Store.lift (duration_arg (get_default "duration" (VInt 60) intent));
  do t <- Store.lift (datetime_arg start);
  do name <- Store.lift (title_arg title);
  do who <- Store.lift (attendees_arg (get_default "attendees" (VList []) intent));
  do result <- Calendar.book_appointment
                 {| Calendar.req_title := name; Calendar.req_start := t;
                    Calendar.req_duration := minutes;
                    Calendar.req_attendees := who;
                    Calendar.req_kwargs := Calendar.no_kwargs |};
  match Calendar.booking_message result with
  | Some m => Store.ret (Message m)
  | None => Store.raise (KeyError "message")
  end.

(** The body of the [try] of [_execute_intent]. *)
Definition dispatch (intent : dict) (st : state) : outcome reply * state :=
  let intent_type := get_default "intent" (str "unknown") intent in
  if is_intent "check_availability" intent_type then
    let '(o, d) := check_branch intent (calendar st) in (o, with_calendar st d)
  else if is_intent "book_appointment" intent_type then
    let '(o, d) := book_branch intent (calendar st) in (o, with_calendar st d)
  else if is_intent "create_task" intent_type then
    match item "title" intent with
    | Ok title =>
        let '(task_id, ts) :=
          create_task title (get "description" intent) (get "due_date" intent)
            (tasks st) in
        (Ok (TaskCreated task_id), with_tasks st ts)
    | Raise e => (Raise e, st)
    | OutOfFuel => (OutOfFuel, st)
    end
  else (Ok (Say not_sure), st).

(** [_execute_intent]: [KeyError] and every other exception are turned
    into a reply. *)
Definition _execute_intent (intent : dict) (session_id : option string)
    (st : state) : outcome reply * state :=
  match dispatch intent st with
  | (Raise (KeyError _), st') => (Ok (Say missing_details), st')
  | (Raise _, st') => (Ok (Say internal_error), st')
  | r => r
  end.

(** [x < 0.7] for the value under ["confidence"]. *)
Definition below (v : value) (bound : Q) : outcome bool :=
  match v with
  | VFloat q => Ok (negb (Qle_bool bound q))
  | VInt z => Ok (negb (Qle_bool bound (inject_Z z)))
  | VBool b => Ok (negb (Qle_bool bound (inject_Z (Z.b2z b))))
  | _ => Raise TypeError
  end.

(** What [process_text] returns. *)
Inductive result : Type :=
| Success (response : reply) (intent : dict)
| Failure (error : exn).

Definition session_given (session_id : option string) : option string :=
  match session_id with
  | Some s => if String.eqb s "" then None else Some s
  | None => None
  end.

Section Collaborators.

Variable ollama_chat : Privacy.text -> dict -> option Privacy.text.
Variable json_loads : Privacy.text -> Nlu.loads.
Variable respond : nat -> Cloud.request -> Cloud.response.
Variable cfg : Cloud.config.

(** Steps 1 to 3 of [process_text]: the context, the local intent and, for
    a caller that asked for it and a confidence below 0.7, the intent of
    what the cloud answered.  The requests sent to the provider come with
    the result. *)
Definition context_of (session_id : option string) (st : state) : dict :=
  match session_given session_id with
  | Some s => default [] (active_sessions st !! s)
  | None => []
  end.

Definition resolve (text : Privacy.text) (session_id : option string)
    (use_cloud : bool) (st : state) : outcome dict * list Cloud.request :=
  let context := context_of session_id st in
  let intent_result := Nlu.parse_intent ollama_chat json_loads text context in
  if use_cloud then
    match below (get_default "confidence" (VFloat 1) intent_result) (7 # 10) with
    | Ok true =>
        let '(cloud_result, sent) :=
          Cloud.call_llm respond cfg (cloud st) text 2 in
        match cloud_result with
        | Some (c :: answer) =>
            (Ok (set "source" (str "cloud")
                   (Nlu.parse_intent ollama_chat json_loads (c :: answer) context)),
             sent)
        | _ => (Ok intent_result, sent)
        end
    | Ok false => (Ok intent_result, [])
    | Raise e => (Raise e, [])
    | OutOfFuel => (OutOfFuel, [])
    end
  else (Ok intent_result, []).

(** Step 5: [self.active_sessions[session_id] = {**context, ...}]. *)
Definition update_session (session_id : option string) (context intent : dict)
    (response : reply) (st : state) : state :=
  match session_given session_id with
  | Some s =>
      with_sessions st
        (<[s := set "last_response" (VReply response)
                  (set "last_intent" (VDict intent) context)]>
           (active_sessions st))
  | None => st
  end.

Definition process_text (text : Privacy.text) (session_id : option string)
    (use_cloud : bool) (st : state)
    : outcome result * list Cloud.request * state :=
  match resolve text session_id use_cloud st with
  | (Ok intent_result, sent) =>
      match _execute_intent intent_result session_id st with
      | (Ok response, st') =>
          (Ok (Success response intent_result), sent,
           update_session session_id (context_of session_id st)
             intent_result response st')
      | (Raise e, st') => (Ok (Failure e), sent, st')
      | (OutOfFuel, st') => (OutOfFuel, sent, st')
      end
  | (Raise e, sent) => (Ok (Failure e), sent, st)
  | (OutOfFuel, sent) => (OutOfFuel, sent, st)
  end.

End Collaborators.

End Orchestrator.

(* ================================================================== *)
(** * Vocabulary of the properties *)

Module CalendarSpec.
Import Store Calendar.

(** A computation is read-only when it hands back the database it was
    given, whatever its outcome. *)
Definition read_only {A} (c : M A) : Prop := forall d, snd (c d) = d.

(** What [check_availability] answers for a free slot. *)
Definition free_result : availability :=
  {| available := true; conflicts := Some []; suggested_times := Some [];
     error := None |}.

(** The rule for two half-open intervals [[s1, e1)] and [[s2, e2)] of
    points in time. *)
Definition half_open_overlap (s1 e1 s2 e2 : Time.datetime) : Prop :=
  Time.instant s1 < Time.instant e2 /\ Time.instant s2 < Time.instant e1.

(** The two datetimes of a row are on the [tzinfo] of [dt]: all naive, or
    all aware with the same offset. *)
Definition same_zone (dt : Time.datetime) (a : appointment) : Prop :=
  Time.utcoffset (start_datetime a) = Time.utcoffset dt
  /\ Time.utcoffset (end_datetime a) = Time.utcoffset dt.

(** The probes [preferred + k hours], for [n] values of [k] from [k] on. *)
Fixpoint probes_from (preferred : Time.datetime) (k : Z) (n : nat)
    : list Time.datetime :=
  match n with
  | O => []
  | S n' =>
      Time.shift preferred (Time.hours k) :: probes_from preferred (k + 1) n'
  end.

(** All the probes of one call: one hour to 167 hours after [preferred]. *)
Definition probes (preferred : Time.datetime) : list Time.datetime :=
  probes_from preferred 1 167.

Arguments probes : simpl never.

(** A probe is free when no row that is not cancelled overlaps it. *)
Definition probe_free (rows : list appointment) (duration : Z)
    (check : Time.datetime) : bool :=
  negb (existsb (probe_where check (Time.shift check (Time.minutes duration)))
          rows).

(** Sample data: 2025-03-01T15:00:00, a request for a slot, and the database
    after "Standup" was booked from 15:00 to 16:00 on the empty one. *)
Definition march_1st_15h : Time.datetime :=
  Time.naive (739310 * 86400000000 + Time.hours 15).

Definition slot (name : string) (start : Time.datetime) (duration : Z) : request :=
  {| req_title := name; req_start := start; req_duration := duration;
     req_attendees := None; req_kwargs := no_kwargs |}.

Definition standup_db : db :=
  snd (book_appointment (slot "Standup" march_1st_15h 60) empty_db).

Arguments march_1st_15h : simpl never.

(** The database after "Ping" was booked at 15:00 with a duration of zero
    minutes on the empty one. *)
Definition ping_db : db :=
  snd (book_appointment (slot "Ping" march_1st_15h 0) empty_db).

(** The same hour with an offset: 15:00+00:00 and the database after
    "Standup" was booked there for an hour, and a wall clock at +02:00. *)
Definition march_1st_15h_utc : Time.datetime :=
  {| Time.wall := Time.wall march_1st_15h; Time.utcoffset := Some 0 |}.

Definition utc_standup_db : db :=
  snd (book_appointment (slot "Standup" march_1st_15h_utc 60) empty_db).

Definition plus_two (t : Time.datetime) : Time.datetime :=
  {| Time.wall := Time.wall t; Time.utcoffset := Some (Time.hours 2) |}.

(** The database with one tentative row from 15:00 to 16:00. *)
Definition tentative_db : db :=
  {| columns := full_columns;
     appointments :=
       [{| appt_id := 1; title := "Maybe"; description := "";
           start_datetime := march_1st_15h;
           end_datetime := Time.shift march_1st_15h (Time.minutes 60);
           attendees := []; status := Some "tentative"%string;
           created_by := "system"; call_log_id := None |}];
     seq := 1;
     availability_windows := default_windows |}.

(** The row that [book_appointment] writes for a request, with rowid [i]. *)
Definition row_of (r : request) (i : Z) : appointment :=
  {| appt_id := i;
     title := req_title r;
     description := default ""%string (kw_description (req_kwargs r));
     start_datetime := req_start r;
     end_datetime := Time.shift (req_start r) (Time.minutes (req_duration r));
     attendees := default [] (req_attendees r);
     status := Some "confirmed"%string;
     created_by := default "system"%string (kw_created_by (req_kwargs r));
     call_log_id := kw_call_log_id (req_kwargs r) |}.

(** The database with that row appended. *)
Definition with_row (d : db) (r : request) : db :=
  {| columns := columns d;
     appointments := appointments d ++ [row_of r (next_rowid d)];
     seq := next_rowid d;
     availability_windows := availability_windows d |}.

Definition booked (r : request) (i : Z) : booking :=
  {| success := true; appointment_id := Some i;
     booking_message := Some (BookedFor (req_start r));
     booking_conflicts := None; booking_error := None |}.

Definition refused (cs : list (Z * string)) : booking :=
  {| success := false; appointment_id := None;
     booking_message := Some SlotNotAvailable;
     booking_conflicts := Some cs; booking_error := None |}.

Definition failed (msg : string) : booking :=
  {| success := false; appointment_id := None; booking_message := None;
     booking_conflicts := None; booking_error := Some msg |}.

End CalendarSpec.

Module DispatchSpec.
Import Py Orchestrator.

(** Sample data: an orchestrator right after its construction (cloud
    offloading as configured, no consent yet, no client session), a local
    model that is down, and a provider that is never reached. *)
Definition idle_state : state :=
  {| calendar := Store.empty_db; tasks := [];
     cloud := {| Cloud.enabled := false; Cloud.user_consent := false;
                 Cloud.session_open := false |};
     active_sessions := ∅ |}.

Definition model_down : Privacy.text -> dict -> option Privacy.text :=
  fun _ _ => None.
Definition no_json : Privacy.text -> Nlu.loads :=
  fun _ => Nlu.JSONDecodeError.
Definition unreachable : nat -> Cloud.request -> Cloud.response :=
  fun _ _ => Cloud.Failed.
Definition no_keys : Cloud.config :=
  {| Cloud.OPENAI_API_KEY := None; Cloud.ANTHROPIC_API_KEY := None |}.

Definition book_a_room : Privacy.text := list_ascii_of_string "book a room".

End DispatchSpec.

Module PrivacySpec.
Import Privacy.

Local Open Scope nat_scope.

(** The character a position looks at: the head of what is left of the
    word, or the character that follows the word. *)
Definition first_or (w : text) (next : option ascii) : option ascii :=
  match w with
  | c :: _ => Some c
  | [] => next
  end.

(** The character before the position behind [w]. *)
Definition last_or (prev : option ascii) (w : text) : option ascii :=
  fold_left (fun _ c => Some c) w prev.

(** The language of a pattern: [derives r prev w next] says that the word
    [w], with [prev] before it and [next] behind it, is matched by [r] in
    one of the ways the matcher can try. *)
Fixpoint derives (r : regex) (prev : option ascii) (w : text)
    (next : option ascii) : Prop :=
  match r with
  | [] => w = []
  | Boundary :: r' =>
      is_boundary prev (first_or w next) = true /\ derives r' prev w next
  | One p :: r' =>
      exists c w', w = c :: w' /\ p c = true /\ derives r' (Some c) w' next
  | Opt p :: r' =>
      (exists c w', w = c :: w' /\ p c = true /\ derives r' (Some c) w' next)
      \/ derives r' prev w next
  | Rep p least :: r' =>
      exists u v, w = u ++ v /\ forallb p u = true /\ least <= length u
                  /\ derives r' (last_or prev u) v next
  end.

(** The three patterns are a body between two word boundaries. *)
Definition framed (body : regex) : regex := Boundary :: body ++ [Boundary].

Definition email_body : regex :=
  [Rep is_email_char 1; One (is_char "@"); Rep is_email_char 1;
   One (is_char "."); Rep is_word 1].
Definition phone_body : regex := [Opt (is_char "+"); Rep is_phone_char 10].
Definition name_body : regex :=
  [One is_upper; Rep is_lower 1; One (is_char " "); One is_upper;
   Rep is_lower 1].

Definition bodies : list regex := [email_body; phone_body; name_body].

(** A body has no word boundary inside. *)
Definition boundary_free (r : regex) : bool :=
  forallb (fun a => match a with Boundary => false | _ => true end) r.

(** A body takes at least one character. *)
Fixpoint consumes (r : regex) : bool :=
  match r with
  | [] => false
  | One _ :: _ => true
  | Rep _ (S _) :: _ => true
  | _ :: r' => consumes r'
  end.

(** The characters of the placeholders' brackets, and the others. *)
Definition plain (c : ascii) : bool :=
  negb (is_char "[" c) && negb (is_char "]" c).

(** The characters between the brackets of a placeholder. *)
Definition inner (c : ascii) : bool :=
  is_upper c || is_digit c || is_char "_" c.

Arguments plain : simpl never.
Arguments inner : simpl never.

(** Every class of the pattern is within [Q]. *)
Fixpoint classes_within (Q : ascii -> bool) (r : regex) : Prop :=
  match r with
  | [] => True
  | Boundary :: r' => classes_within Q r'
  | One p :: r' | Opt p :: r' | Rep p _ :: r' =>
      (forall c, p c = true -> Q c = true) /\ classes_within Q r'
  end.

(** The names of the patterns: "email", "phone" and "name". *)
Definition type_names : list text := map fst patterns.

Definition email_type : text := list_ascii_of_string "email".
Definition phone_type : text := list_ascii_of_string "phone".
Definition name_type : text := list_ascii_of_string "name".

(** What is between the brackets of a placeholder. *)
Definition inside (pii_type : text) (n : nat) : text :=
  upper pii_type ++ "_"%char :: decimal n.

(** [re.search(pattern, y)] finds nothing: the pattern matches at no
    position of [y], where [prev] is the character before [y]. *)
Definition clean (pattern : regex) (prev : option ascii) (y : text) : Prop :=
  forall a b, y = a ++ b -> bmatch pattern (last_or prev a) b = None.

(** One pass of [re.sub] cuts its text into characters that are kept and
    matches that are replaced by a placeholder. *)
Inductive seg : Type :=
| Keep (c : ascii)
| Subst (original ph : text).

Definition src_of (s : seg) : text :=
  match s with
  | Keep c => [c]
  | Subst original _ => original
  end.

Definition dst_of (s : seg) : text :=
  match s with
  | Keep c => [c]
  | Subst _ ph => ph
  end.

(** The text before the pass and the text after it. *)
Definition src (segs : list seg) : text := flat_map src_of segs.
Definition dst (segs : list seg) : text := flat_map dst_of segs.

(** The cut that the scan of [pattern] makes, with the character before
    the text and the mapping before and after. *)
Inductive scanned (pattern : regex) (pii_type : text)
    : option ascii -> mapping -> list seg -> mapping -> Prop :=
| scanned_nil prev m : scanned pattern pii_type prev m [] m
| scanned_keep prev m c segs m' :
    bmatch pattern prev (c :: src segs) = None ->
    scanned pattern pii_type (Some c) m segs m' ->
    scanned pattern pii_type prev m (Keep c :: segs) m'
| scanned_subst prev m w segs m' :
    w <> [] ->
    bmatch pattern prev (w ++ src segs) = Some (length w) ->
    scanned pattern pii_type (last_or prev w)
      (dict_set (placeholder pii_type (length m)) w m) segs m' ->
    scanned pattern pii_type prev m
      (Subst w (placeholder pii_type (length m)) :: segs) m'.

(** The body [q] matches at none of the kept characters of the text
    before the pass. *)
Fixpoint unmatched (q : regex) (prev : option ascii) (segs : list seg) : Prop :=
  match segs with
  | [] => True
  | Keep c :: segs' =>
      bmatch (framed q) prev (c :: src segs') = None
      /\ unmatched q (Some c) segs'
  | Subst w _ :: segs' => unmatched q (last_or prev w) segs'
  end.

(** What was replaced had a boundary at both ends and went to a
    placeholder. *)
Fixpoint shaped (prev : option ascii) (segs : list seg) : Prop :=
  match segs with
  | [] => True
  | Keep c :: segs' => shaped (Some c) segs'
  | Subst w ph :: segs' =>
      w <> []
      /\ is_boundary prev (head w) = true
      /\ is_boundary (last_or None w) (head (src segs')) = true
      /\ (exists pii_type n, In pii_type type_names
                             /\ ph = placeholder pii_type n)
      /\ shaped (last_or prev w) segs'
  end.

(** A text without an opening bracket. *)
Definition no_open (w : text) : Prop :=
  forallb (fun c => negb (Ascii.eqb "[" c)) w = true.

(** Between the passes and on the way back, a text without brackets of its
    own is a sequence of characters and of holes; a hole stands for the
    original that the [n]-th entry of the mapping keeps. *)
Inductive item : Type :=
| Lit (c : ascii)
| Hole (n : nat) (pii_type original : text).

(** The text in which the holes below [i] are filled with the originals
    and the others show their placeholders. *)
Definition render1 (i : nat) (it : item) : text :=
  match it with
  | Lit c => [c]
  | Hole n pii_type original =>
      if n <? i then original else placeholder pii_type n
  end.

Definition render (i : nat) (items : list item) : text :=
  flat_map (render1 i) items.

(** The text with all the originals. *)
Definition expand1 (it : item) : text :=
  match it with
  | Lit c => [c]
  | Hole _ _ original => original
  end.

Definition expand (items : list item) : text := flat_map expand1 items.

(** The [i]-th key of the mapping is a placeholder with the number [i],
    and no original has an opening bracket. *)
Definition keys_ok (m : mapping) : Prop :=
  forall i k v, nth_error m i = Some (k, v) ->
    no_open v /\ exists pii_type, In pii_type type_names
                                  /\ k = placeholder pii_type i.

Definition item_ok (m : mapping) (it : item) : Prop :=
  match it with
  | Lit c => Ascii.eqb "[" c = false
  | Hole n pii_type original =>
      In pii_type type_names
      /\ nth_error m n = Some (placeholder pii_type n, original)
  end.

(** What the proofs need of a body: it has no boundary inside, takes a
    character, takes no bracket, and matches no word that is made of
    characters of a placeholder's inside and starts with a capital. *)
Definition pii_body (body : regex) : Prop :=
  boundary_free body = true
  /\ consumes body = true
  /\ classes_within plain body
  /\ (forall c w, derives body None (c :: w) None ->
        is_upper c = true -> forallb inner w = true -> False).

End PrivacySpec.
(* ================================================================== *)
(** * More of the code *)

(** ** calendar_manager.py: [_init_db] *)

Module Schema.
Import Store.

(** The database file before [CalendarManager] opens it: each of the two
    tables is there or not.  An [appointments] table comes with the columns
    it was created with, its rows and its AUTOINCREMENT counter; an
    [availability_windows] table is one that [_init_db] created on an
    earlier run, and comes with its rows. *)
Record file : Type := {
  appointments_table : option (list string * list appointment * Z);
  windows_table : option (list window)
}.

(** A file that does not exist yet: [sqlite3.connect] creates it empty. *)
Definition new_file : file :=
  {| appointments_table := None; windows_table := None |}.

(** [_init_db]: the two CREATE TABLE IF NOT EXISTS statements, the count of
    the windows, and the INSERT of the defaults when there is none. *)
Definition _init_db (f : file) : db :=
  let '(cols, rows, counter) :=
    default (init_columns, [], 0) (appointments_table f) in
  let windows := default [] (windows_table f) in
  {| columns := cols;
     appointments := rows;
     seq := counter;
     availability_windows :=
       if (length windows =? 0)%nat then windows ++ default_windows
       else windows |}.

(** The file that a database is kept in. *)
Definition file_of (d : db) : file :=
  {| appointments_table := Some (columns d, appointments d, seq d);
     windows_table := Some (availability_windows d) |}.

End Schema.

Module CalendarMore.
Import Store Calendar.

(** The datetimes of a list, all of one [tzinfo], are in chronological
    order, none twice. *)
Fixpoint increasing (l : list Time.datetime) : bool :=
  match l with
  | a :: (b :: _) as rest => Time.ltb a b && increasing rest
  | _ => true
  end.

(** A row with its status set, and a database with other rows and other
    availability windows. *)
Definition with_status (s : option string) (a : appointment) : appointment :=
  {| appt_id := appt_id a; title := title a; description := description a;
     start_datetime := start_datetime a; end_datetime := end_datetime a;
     attendees := attendees a; status := s; created_by := created_by a;
     call_log_id := call_log_id a |}.

Definition with_rows (d : db) (rows : list appointment) (ws : list window) : db :=
  {| columns := columns d; appointments := rows; seq := seq d;
     availability_windows := ws |}.

(** The rows that a query with [status != 'cancelled'] can see. *)
Definition live (rows : list appointment) : list appointment :=
  List.filter not_cancelled rows.

(** A table that was created without its [status] column. *)
Definition old_db : db :=
  {| columns := ["id"; "title"; "description"; "start_datetime";
                 "end_datetime"; "attendees"]%string;
     appointments := []; seq := 0; availability_windows := default_windows |}.

(** Two rows are apart when they are not both live, or when their
    intervals do not overlap in time under the half-open rule. *)
Definition apart (a b : appointment) : Prop :=
  not_cancelled a = true -> not_cancelled b = true ->
  ~ (Time.instant (start_datetime a) < Time.instant (end_datetime b)
     /\ Time.instant (start_datetime b) < Time.instant (end_datetime a)).

(** Every row of the table and every request of the list is on one
    [tzinfo]: all naive, or all aware with the same offset. *)
Definition one_zone (zone : option Z) (rows : list appointment)
    (requests : list request) : Prop :=
  Forall (fun a => Time.utcoffset (start_datetime a) = zone
                   /\ Time.utcoffset (end_datetime a) = zone) rows
  /\ Forall (fun r => Time.utcoffset (req_start r) = zone) requests.

(** No two rows of the table overlap. *)
Fixpoint non_overlapping (rows : list appointment) : Prop :=
  match rows with
  | [] => True
  | a :: rest => Forall (apart a) rest /\ non_overlapping rest
  end.

(** Calls of [book_appointment] one after the other, each on the database
    that the one before left; a call that raises leaves it as it is. *)
Definition book_all (requests : list request) (d : db) : db :=
  fold_left (fun d r => snd (book_appointment r d)) requests d.

(** 9999-12-31T23:00:00, the last hour of the calendar. *)
Definition last_hour : Time.datetime :=
  Time.naive (Time.MAX_US - Time.hours 1).

End CalendarMore.
(** ** What [json.loads] can return *)

Module Json.
Import Py.

(** The values of JSON: [None], booleans, numbers, strings, lists and
    objects of such values.  A datetime is not among them. *)
Fixpoint is_json (v : value) : bool :=
  match v with
  | VNone | VBool _ | VInt _ | VFloat _ | VStr _ => true
  | VDatetime _ | VReply _ => false
  | VList l => forallb is_json l
  | VDict items => forallb (fun kv => is_json (snd kv)) items
  end.

Definition json_object (d : dict) : bool :=
  forallb (fun kv => is_json (snd kv)) d.

End Json.

(** ** config.py: [Config] *)

Module Config.

(** [os.getenv(name, "False").lower() == "true"], for [DEBUG] and
    [ENABLE_CLOUD]; the argument is the value of the variable in the
    environment, if it is set. *)
Definition flag (value : option Privacy.text) : bool :=
  Privacy.text_eqb
    (Nlu.lower (default (list_ascii_of_string "False") value))
    (list_ascii_of_string "true").

End Config.

(** ** cloud_proxy.py: the life of a [CloudProxy] *)

Module CloudProxy.
Import Cloud.

(** [__init__]: no client session yet, and no consent. *)
Definition __init__ (enabled : bool) : proxy :=
  {| enabled := enabled; user_consent := false; session_open := false |}.

(** [__aenter__] opens the client session. *)
Definition __aenter__ (p : proxy) : proxy :=
  {| enabled := enabled p; user_consent := user_consent p;
     session_open := true |}.

End CloudProxy.

Module CloudSpec.
Import Cloud.

(** The provider answers an attempt with status 200 and a content: this
    is what ends the loop of [_call_openai]. *)
Definition answered (respond : nat -> request -> response) (attempt : nat)
    (rq : request) (text : Privacy.text) : Prop :=
  respond attempt rq = Status200 (Some text).

(** A provider that fails twice and then answers. *)
Definition third_time_lucky (answer : Privacy.text) : nat -> request -> response :=
  fun attempt _ =>
    match attempt with
    | 0%nat => Timeout
    | 1%nat => StatusOther 503
    | _ => Status200 (Some answer)
    end.

Definition openai_key : config :=
  {| OPENAI_API_KEY := Some "sk-test"%string; ANTHROPIC_API_KEY := None |}.

Definition consenting : proxy :=
  {| enabled := true; user_consent := true; session_open := true |}.

End CloudSpec.

(** ** speech_pipeline.py: [SpeechPipeline.transcribe] *)

Module SpeechPipeline.

Definition bytes : Type := list Byte.byte.

(** What the call of the Whisper model comes to: a result with or without
    its ["text"], or an exception. *)
Inductive heard : Type :=
| Result (text : option Privacy.text)
| Raised.

(** [str.isspace] on the code points below 256. *)
Definition is_space (c : ascii) : bool :=
  Privacy.between 9 13 c || Privacy.between 28 32 c
  || Privacy.between 133 133 c || Privacy.between 160 160 c.

Fixpoint lstrip (s : Privacy.text) : Privacy.text :=
  match s with
  | c :: s' => if is_space c then lstrip s' else s
  | [] => []
  end.

(** [str.strip()] *)
Definition strip (s : Privacy.text) : Privacy.text :=
  rev (lstrip (rev (lstrip s))).

(** [transcribe]: the empty text when the model was not loaded or when the
    call raises.  The audio goes to the model through a temporary file,
    which is removed in every case. *)
Definition transcribe (stt_model : option (bytes -> heard)) (audio_bytes : bytes)
    : Privacy.text :=
  match stt_model with
  | None => []
  | Some model =>
      match model audio_bytes with
      | Result text => strip (default [] text)
      | Raised => []
      end
  end.

End SpeechPipeline.

(** ** vision_pipeline.py: [VisionPipeline.analyze_image] *)

Module VisionPipeline.
Import Py.

(** A call that returns, or raises an exception with its text and its
    traceback. *)
Inductive attempt (A : Type) : Type :=
| Returned (a : A)
| Broke (message trace : Privacy.text).

Arguments Returned {A} a.
Arguments Broke {A} message trace.

(** The loaded model: opening and encoding the image at a path, and the
    answer to a question about the encoded image. *)
Record vision (image : Type) : Type := {
  encode_image : Privacy.text -> attempt image;
  answer_question : image -> string -> attempt Privacy.text
}.

Arguments encode_image {image} v path.
Arguments answer_question {image} v enc question.

Definition describe_question : string :=
  "Describe this image in detail. What is happening?".
Definition task_question : string :=
  "What type of work or task is shown? (construction, meeting, document, etc.)".
Definition completion_question : string :=
  "Is this work completed or in progress?".

Definition failure (message trace : Privacy.text) : dict :=
  [("error", VStr message); ("trace", VStr trace)]%string.

Definition analyze_image {image} (model : option (vision image))
    (image_path : Privacy.text) : dict :=
  match model with
  | None => [("error", str "model not loaded")]%string
  | Some m =>
      match encode_image m image_path with
      | Broke message trace => failure message trace
      | Returned enc_image =>
          match answer_question m enc_image describe_question with
          | Broke message trace => failure message trace
          | Returned description =>
              match answer_question m enc_image task_question with
              | Broke message trace => failure message trace
              | Returned task_type =>
                  match answer_question m enc_image completion_question with
                  | Broke message trace => failure message trace
                  | Returned completion =>
                      [("description", VStr description);
                       ("task_type", VStr task_type);
                       ("completion_status", VStr completion);
                       ("image_path", VStr image_path)]%string
                  end
              end
          end
      end
  end.

End VisionPipeline.

(** ** orchestrator.py: the other entries of [HybridOrchestrator] *)

Module HybridOrchestrator.
Import Py Orchestrator.

(** What [process_voice] returns: the failure of the transcription, or
    what [process_text] returns for the transcript. *)
Inductive voice_result : Type :=
| TranscriptionFailed
| Processed (r : result).

(** What [process_image] returns: ["Image analysis failed"], success with
    the analysis, or the text of an exception. *)
Inductive image_result : Type :=
| AnalysisFailed
| Analysed (analysis : dict)
| ImageError (message : Privacy.text).

Section Entries.

Variable ollama_chat : Privacy.text -> dict -> option Privacy.text.
Variable json_loads : Privacy.text -> Nlu.loads.
Variable respond : nat -> Cloud.request -> Cloud.response.
Variable cfg : Cloud.config.

Variable stt_model : option (SpeechPipeline.bytes -> SpeechPipeline.heard).

Definition process_voice (audio_bytes : SpeechPipeline.bytes)
    (session_id : option string) (st : state)
    : outcome voice_result * list Cloud.request * state :=
  match SpeechPipeline.transcribe stt_model audio_bytes with
  | [] => (Ok TranscriptionFailed, [], st)
  | c :: transcript =>
      match process_text ollama_chat json_loads respond cfg
              (c :: transcript) session_id false st with
      | (Ok r, sent, st') => (Ok (Processed r), sent, st')
      | (Raise e, sent, st') => (Raise e, sent, st')
      | (OutOfFuel, sent, st') => (OutOfFuel, sent, st')
      end
  end.

Variable image : Type.
Variable vision_model : option (VisionPipeline.vision image).

(** [TaskManager.update_progress_from_image] is not among the sources: it
    is a function of the task, the analysis and the tasks, that returns or
    raises, and leaves the tasks it leaves in either case. *)
Variable update_progress_from_image :
  Z -> dict -> list task -> VisionPipeline.attempt unit * list task.

(** [if task_id:] for an optional integer. *)
Definition task_given (task_id : option Z) : option Z :=
  match task_id with
  | Some i => if i =? 0 then None else Some i
  | None => None
  end.

Definition process_image (image_path : Privacy.text) (task_id : option Z)
    (st : state) : image_result * state :=
  let analysis := VisionPipeline.analyze_image vision_model image_path in
  if negb (truthy (VDict analysis)) then (AnalysisFailed, st)
  else
    match task_given task_id with
    | Some i =>
        let '(attempt, ts) :=
          update_progress_from_image i analysis (tasks st) in
        match attempt with
        | VisionPipeline.Returned _ => (Analysed analysis, with_tasks st ts)
        | VisionPipeline.Broke message _ =>
            (ImageError message, with_tasks st ts)
        end
    | None => (Analysed analysis, st)
    end.

End Entries.

End HybridOrchestrator.

(** ** call_handler.py: [CallHandler] *)

Module CallHandler.
Import Py Orchestrator.

(** The fields of the form that Twilio posts. *)
Record form : Type := {
  CallSid : option string;
  from_number : option string;
  SpeechResult : option Privacy.text
}.

(** What is said: one of the fixed texts, or the reply of the
    orchestrator. *)
Inductive spoken : Type :=
| Fixed (s : string)
| Replied (r : reply).

Record gather : Type := {
  input : string;
  action : string;
  method : option string;
  speech_timeout : option string;
  language : option string
}.

(** The TwiML of a response: one [Say], with or without a voice, and the
    [Gather] that follows it, if any. *)
Record twiml : Type := {
  say : spoken;
  voice : option string;
  then_gather : option gather
}.

Definition greeting : string :=
  "Hello, I'm your local assistant. How can I help?".
Definition trouble : string :=
  "Sorry, I'm having trouble. Please try again later.".
Definition did_not_catch : string :=
  "I didn't catch that. Could you repeat?".
Definition went_wrong : string :=
  "Sorry, something went wrong. Please try again.".
Definition goodbye : string := "An error occurred. Goodbye.".

Definition next_speech : gather :=
  {| input := "speech"; action := "/webhook/process-speech";
     method := None; speech_timeout := None; language := None |}.

(** [handle_incoming_call]; the request is its form, or [None] when
    reading the form raises. *)
Definition handle_incoming_call (request : option form) : twiml :=
  match request with
  | Some _ =>
      {| say := Fixed greeting; voice := Some "Polly.Joanna"%string;
         then_gather :=
           Some {| input := "speech"; action := "/webhook/process-speech";
                   method := Some "POST"%string;
                   speech_timeout := Some "auto"%string;
                   language := Some "en-US"%string |} |}
  | None => {| say := Fixed trouble; voice := None; then_gather := None |}
  end.

Section Speech.

Variable ollama_chat : Privacy.text -> dict -> option Privacy.text.
Variable json_loads : Privacy.text -> Nlu.loads.
Variable respond : nat -> Cloud.request -> Cloud.response.
Variable cfg : Cloud.config.

Definition process_speech (request : option form) (st : state)
    : outcome twiml * list Cloud.request * state :=
  match request with
  | None =>
      (Ok {| say := Fixed goodbye; voice := None; then_gather := None |},
       [], st)
  | Some f =>
      match SpeechResult f with
      | None | Some [] =>
          (Ok {| say := Fixed did_not_catch; voice := None;
                 then_gather := Some next_speech |}, [], st)
      | Some (c :: speech) =>
          match process_text ollama_chat json_loads respond cfg
                  (c :: speech) (CallSid f) false st with
          | (Ok (Success response _), sent, st') =>
              (Ok {| say := Replied response;
                     voice := Some "Polly.Joanna"%string;
                     then_gather := Some next_speech |}, sent, st')
          | (Ok (Failure _), sent, st') =>
              (Ok {| say := Fixed went_wrong; voice := None;
                     then_gather := Some next_speech |}, sent, st')
          | (Raise e, sent, st') =>
              (Ok {| say := Fixed goodbye; voice := None;
                     then_gather := None |}, sent, st')
          | (OutOfFuel, sent, st') => (OutOfFuel, sent, st')
          end
      end
  end.

End Speech.

End CallHandler.

(** ** privacy.py: [encrypt_file] and [decrypt_file] *)

Module PrivacyFilter.

Definition bytes : Type := list Byte.byte.

Inductive file_error : Type :=
| FileNotFoundError (path : string)
| InvalidToken.

Section Fernet.

(** [self.fernet]: the key is derived from the password.  [encrypt] draws
    an IV and reads the clock; what one call makes of the data is the
    function here.  [decrypt] raises [InvalidToken] on what is not a token
    of the key. *)
Variable fernet_encrypt : bytes -> bytes.
Variable fernet_decrypt : bytes -> option bytes.

(** [encrypt_file]: reads the file, writes the token next to it under
    [filepath + ".enc"], and returns that path.  The files are a map from
    paths to contents. *)
Definition encrypt_file (filepath : string) (fs : gmap string bytes)
    : (file_error + string) * gmap string bytes :=
  let enc_path := (filepath +:+ ".enc")%string in
  match fs !! filepath with
  | None => (inl (FileNotFoundError filepath), fs)
  | Some data => (inr enc_path, <[enc_path := fernet_encrypt data]> fs)
  end.

(** [decrypt_file]: reads the token and writes what it holds to
    [output_path]. *)
Definition decrypt_file (enc_path output_path : string)
    (fs : gmap string bytes) : (file_error + unit) * gmap string bytes :=
  match fs !! enc_path with
  | None => (inl (FileNotFoundError enc_path), fs)
  | Some encrypted =>
      match fernet_decrypt encrypted with
      | None => (inl InvalidToken, fs)
      | Some data => (inr tt, <[output_path := data]> fs)
      end
  end.

End Fernet.

(** A stand-in for the cipher, for examples: a token is the version byte
    of Fernet and the data. *)
Definition toy_encrypt (data : bytes) : bytes := Byte.x80 :: data.
Definition toy_decrypt (token : bytes) : option bytes :=
  match token with
  | Byte.x80 :: data => Some data
  | _ => None
  end.

End PrivacyFilter.

(** ** Vocabulary for the entries *)

Module EntrySpec.
Import Py Orchestrator.

(** One call of [process_text]. *)
Record call : Type := {
  call_text : Privacy.text;
  call_session : option string;
  call_use_cloud : bool
}.

Section Served.

Variable ollama_chat : Privacy.text -> dict -> option Privacy.text.
Variable json_loads : Privacy.text -> Nlu.loads.
Variable respond : nat -> Cloud.request -> Cloud.response.
Variable cfg : Cloud.config.

(** A sequence of calls, one after the other: all that was sent to the
    provider, and the state at the end. *)
Fixpoint serve (calls : list call) (st : state) : list Cloud.request * state :=
  match calls with
  | [] => ([], st)
  | c :: rest =>
      let '(_, sent, st') :=
        process_text ollama_chat json_loads respond cfg
          (call_text c) (call_session c) (call_use_cloud c) st in
      let '(sent', st'') := serve rest st' in
      (sent ++ sent', st'')
  end.

End Served.

(** The request that [_execute_intent] makes of an intent to book. *)
Definition booking_request (name : string) (t : Time.datetime) (minutes : Z)
    (names : list Privacy.text) : Calendar.request :=
  {| Calendar.req_title := name; Calendar.req_start := t;
     Calendar.req_duration := minutes;
     Calendar.req_attendees := Some (map string_of_list_ascii names);
     Calendar.req_kwargs := Calendar.no_kwargs |}.

(** The arguments of an intent, where they are of the types that the
    calendar is annotated with: the title is a [str], or absent and
    ["Appointment"]; the duration is an [int], or absent and 60; the
    attendees are a list of [str], or absent and the empty list. *)
Definition titled (intent : dict) (name : string) : Prop :=
  (exists s, get "title" intent = Some (VStr s)
             /\ name = string_of_list_ascii s)
  \/ (get "title" intent = None /\ name = "Appointment"%string).

Definition whole_minutes (intent : dict) (minutes : Z) : Prop :=
  get "duration" intent = Some (VInt minutes)
  \/ (get "duration" intent = None /\ minutes = 60).

Definition invited (intent : dict) (names : list Privacy.text) : Prop :=
  get "attendees" intent = Some (VList (map VStr names))
  \/ (get "attendees" intent = None /\ names = []).

(** The local attempt fails: the call of the model raises, or
    [json.loads] raises something else than [JSONDecodeError] on the span
    of the answer.  [parse_intent] returns the rule-based fallback then. *)
Definition local_failure (ollama_chat : Privacy.text -> dict -> option Privacy.text)
    (json_loads : Privacy.text -> Nlu.loads) (text : Privacy.text)
    (context : dict) : bool :=
  match ollama_chat text context with
  | None => true
  | Some content =>
      match Nlu.json_span content with
      | Some span =>
          match json_loads span with
          | Nlu.OtherError => true
          | _ => false
          end
      | None => false
      end
  end.

(** The kind of an intent, as [_execute_intent] reads it. *)
Definition kind_of (intent : dict) : value :=
  get_default "intent" (str "unknown") intent.

(** An intent that none of the three branches takes, as
    ["cancel_appointment"] and ["unknown"]. *)
Definition unhandled (intent : dict) : bool :=
  negb (is_intent "check_availability" (kind_of intent))
  && negb (is_intent "book_appointment" (kind_of intent))
  && negb (is_intent "create_task" (kind_of intent)).

(** The value under ["datetime"] is not a datetime. *)
Definition no_datetime (intent : dict) : bool :=
  match get "datetime" intent with
  | Some (VDatetime _) => false
  | _ => true
  end.

(** The orchestrator with another proxy. *)
Definition with_cloud (st : state) (p : Cloud.proxy) : state :=
  {| calendar := calendar st; tasks := tasks st; cloud := p;
     active_sessions := active_sessions st |}.

(** The replies that do not come from the calendar. *)
Definition plain_reply (r : reply) : bool :=
  match r with
  | Say _ | TaskCreated _ => true
  | YesAvailable _ | HowAbout _ | Message _ => false
  end.

End EntrySpec.

(** ** Vocabulary for the mapping of [anonymize_text] *)

Module MappingSpec.
Import Privacy.

(** None of the patterns is found in the text. *)
Definition no_pii (t : text) : Prop :=
  forall pii_type pattern,
    In (pii_type, pattern) patterns -> search pattern t = false.

(** A text without an at sign, without a capital letter from A to Z, and
    with fewer than ten characters that a phone number is made of. *)
Definition ordinary (t : text) : Prop :=
  ~ In "@"%char t
  /\ forallb (fun c => negb (is_upper c)) t = true
  /\ (length (List.filter is_phone_char t) < 10)%nat.

(** What the entry at position [i] of the mapping looks like: its key is
    the placeholder of one of the types with the number [i], and its value
    is a text without brackets, not empty, that the pattern of the type
    matches from its first to its last character. *)
Definition entry_ok (i : nat) (entry : text * text) : Prop :=
  exists pii_type pattern,
    In (pii_type, pattern) patterns
    /\ fst entry = placeholder pii_type i
    /\ snd entry <> []
    /\ forallb PrivacySpec.plain (snd entry) = true
    /\ exists prev rest,
         bmatch pattern prev (snd entry ++ rest) = Some (length (snd entry)).

Definition numbered (m : mapping) : Prop :=
  forall i entry, nth_error m i = Some entry -> entry_ok i entry.

(** The entries of one pass: they are of the type of the pass, and their
    numbers go on from [base]. *)
Definition of_pass (pii_type : text) (pattern : regex) (base : nat)
    (entries : mapping) : Prop :=
  forall j entry, nth_error entries j = Some entry ->
    fst entry = placeholder pii_type (base + j)
    /\ snd entry <> []
    /\ forallb PrivacySpec.plain (snd entry) = true
    /\ exists prev rest,
         bmatch pattern prev (snd entry ++ rest) = Some (length (snd entry)).

End MappingSpec.
(* ================================================================== *)
(** * Properties of the calendar engine *)

Section CalendarFacts.
Import Store Calendar CalendarSpec.

Lemma read_only_ret {A} (a : A) : read_only (ret a).
Proof. intros d; reflexivity. Qed.

Lemma read_only_raise {A} (e : exn) : read_only (@raise A e).
Proof. intros d; reflexivity. Qed.

Lemma read_only_lift {A} (o : outcome A) : read_only (lift o).
Proof. intros d; reflexivity. Qed.

Lemma read_only_select {A} cols (q : list appointment -> A) :
  read_only (select cols q).
Proof. intros d; unfold select; destruct (missing_column cols d); reflexivity. Qed.

Lemma read_only_bind {A B} (c : M A) (k : A -> M B) :
  read_only c -> (forall a, read_only (k a)) -> read_only (bind c k).
Proof.
  intros Hc Hk d; unfold bind.
  specialize (Hc d); destruct (c d) as [[a | e |] d']; simpl in Hc; subst d'.
  - apply Hk.
  - reflexivity.
  - reflexivity.
Qed.

Lemma read_only_try_sqlite {A} (c : M A) (h : string -> M A) :
  read_only c -> (forall msg, read_only (h msg)) -> read_only (try_sqlite c h).
Proof.
  intros Hc Hh d; unfold try_sqlite.
  specialize (Hc d); destruct (c d) as [[a | e |] d']; simpl in Hc; subst d';
    try reflexivity.
  destruct e; try reflexivity. apply Hh.
Qed.

Create HintDb read_only.
Hint Resolve read_only_ret read_only_raise read_only_lift read_only_select
  : read_only.

Lemma read_only_suggest_loop fuel preferred duration limit :
  forall check suggestions,
    read_only (suggest_loop fuel preferred duration limit check suggestions).
Proof.
  induction fuel as [| fuel IH]; intros check suggestions; simpl.
  - auto with read_only.
  - destruct (Z.of_nat (length suggestions) <? limit); [| auto with read_only].
    apply read_only_bind; [auto with read_only |]. intros horizon.
    destruct (Time.ltb check horizon); [| auto with read_only].
    apply read_only_bind; [auto with read_only |]. intros end_check.
    apply read_only_bind; [auto with read_only |]. intros row.
    apply read_only_bind; [auto with read_only |]. intros check'.
    apply IH.
Qed.

Lemma read_only_suggest_alternatives preferred duration limit :
  read_only (_suggest_alternatives preferred duration limit).
Proof.
  unfold _suggest_alternatives.
  apply read_only_bind; [auto with read_only |]. intros check.
  apply read_only_suggest_loop.
Qed.

Lemma read_only_check_availability dt duration :
  read_only (check_availability dt duration).
Proof.
  unfold check_availability.
  apply read_only_try_sqlite; [| auto with read_only].
  apply read_only_bind; [auto with read_only |]. intros end_dt.
  apply read_only_bind; [auto with read_only |]. intros [| c found].
  - auto with read_only.
  - apply read_only_bind; [apply read_only_suggest_alternatives |].
    auto with read_only.
Qed.

(** C10.  [check_availability] is read-only: for every database, datetime
    and duration the database after the call (the appointments, the
    AUTOINCREMENT counter, the schema and the availability windows) is the
    database before it, whether the call finds the slot free, finds a
    conflict and probes for alternatives, reports an SQLite error or
    raises. *)
Theorem check_availability_frame :
  forall (dt : Time.datetime) (duration_minutes : Z) (d : db),
    snd (check_availability dt duration_minutes d) = d.
Proof. intros dt duration d. apply read_only_check_availability. Qed.

(** *** The engine on the sample store *)

(** On the empty store 15:00 is free for an hour. *)
Example empty_store_is_free :
  check_availability march_1st_15h 60 empty_db = (Ok free_result, empty_db).
Proof. vm_compute. reflexivity. Qed.

(** With "Standup" booked from 15:00 to 16:00, the half hour from 15:30 is
    taken, the conflict names "Standup", and the suggestions start at
    16:30. *)
Example standup_is_in_the_way :
  fst (check_availability (Time.shift march_1st_15h (Time.minutes 30)) 30
         standup_db)
  = Ok {| available := false;
          conflicts := Some [(1, "Standup"%string)];
          suggested_times :=
            Some [Time.shift march_1st_15h (Time.minutes 90);
                  Time.shift march_1st_15h (Time.minutes 150);
                  Time.shift march_1st_15h (Time.minutes 210)];
          error := None |}.
Proof. vm_compute. reflexivity. Qed.

(** A slot that ends when "Standup" starts is free: the intervals are
    half-open. *)
Example slot_before_standup_is_free :
  fst (check_availability (Time.shift march_1st_15h (Time.minutes (-60))) 60
         standup_db)
  = Ok free_result.
Proof. vm_compute. reflexivity. Qed.

(** *** What [check_availability] returns *)

Lemma add_inv (t : Time.datetime) delta r :
  Time.add t delta = Ok r ->
  r = Time.shift t delta /\ Time.in_range (t + delta) = true.
Proof.
  unfold Time.add; destruct (Time.in_range (t + delta)); intros H;
    inversion H; auto.
Qed.

Lemma add_in_range (t : Time.datetime) delta :
  Time.in_range (t + delta) = true -> Time.add t delta = Ok (Time.shift t delta).
Proof. unfold Time.add; intros ->; reflexivity. Qed.

Lemma shift_shift t a b :
  Time.shift (Time.shift t a) b = Time.shift t (a + b).
Proof. unfold Time.shift; cbn. f_equal. lia. Qed.

(** The order of the texts on one [tzinfo] is the order of the wall
    clocks, and so of the points in time. *)
Lemma string_ltb_irrefl s : String.ltb s s = false.
Proof.
  unfold String.ltb. pose proof (String.compare_antisym s s) as H.
  destruct (String.compare s s); cbn in H; try discriminate; reflexivity.
Qed.

Lemma iso_ltb_irrefl a : Time.iso_ltb a a = false.
Proof.
  unfold Time.iso_ltb. now rewrite Z.ltb_irrefl, Z.eqb_refl, string_ltb_irrefl.
Qed.

Lemma iso_leb_refl a : Time.iso_leb a a = true.
Proof. unfold Time.iso_leb. now rewrite iso_ltb_irrefl. Qed.

Lemma iso_ltb_zone (a b : Time.datetime) :
  Time.utcoffset a = Time.utcoffset b -> Time.iso_ltb a b = (a <? b).
Proof.
  intros H. unfold Time.iso_ltb. rewrite H, string_ltb_irrefl.
  now rewrite andb_false_r, orb_false_r.
Qed.

Lemma iso_leb_zone (a b : Time.datetime) :
  Time.utcoffset a = Time.utcoffset b -> Time.iso_leb a b = (a <=? b).
Proof.
  intros H. unfold Time.iso_leb. rewrite iso_ltb_zone by now symmetry.
  destruct (Z.ltb_spec b a), (Z.leb_spec a b); try reflexivity; lia.
Qed.

Lemma instant_zone (a b : Time.datetime) :
  Time.utcoffset a = Time.utcoffset b ->
  Time.instant a - Time.instant b = a - b.
Proof. intros H. unfold Time.instant. rewrite H. lia. Qed.

Lemma instant_shift t delta :
  Time.instant (Time.shift t delta) = Time.instant t + delta.
Proof. unfold Time.instant, Time.shift; cbn. lia. Qed.

(** The outcomes of [check_availability], by the first statement that
    decides them. *)
Lemma check_availability_cases (dt : Time.datetime) duration d :
  let end_dt := Time.shift dt (Time.minutes duration) in
  let found := List.filter (conflict_where dt end_dt) (appointments d) in
  check_availability dt duration d =
    if Time.in_range (dt + Time.minutes duration) then
      match missing_column conflict_columns d with
      | Some c =>
          (Ok {| available := false; conflicts := None;
                 suggested_times := None;
                 error := Some (no_such_column c) |}, d)
      | None =>
          match found with
          | [] => (Ok free_result, d)
          | _ :: _ =>
              match _suggest_alternatives dt duration 3 d with
              | (Ok suggestions, d') =>
                  (Ok {| available := false;
                         conflicts :=
                           Some (map (fun c => (appt_id c, title c)) found);
                         suggested_times := Some suggestions;
                         error := None |}, d')
              | (Raise (SqliteError msg), d') =>
                  (Ok {| available := false; conflicts := None;
                         suggested_times := None; error := Some msg |}, d')
              | (Raise e, d') => (Raise e, d')
              | (OutOfFuel, d') => (OutOfFuel, d')
              end
          end
      end
    else (Raise OverflowError, d).
Proof.
  intros end_dt found; subst end_dt found.
  unfold check_availability, try_sqlite, bind, lift, select, ret, Time.add.
  destruct (Time.in_range (dt + Time.minutes duration)); [| reflexivity].
  destruct (missing_column conflict_columns d); [reflexivity |].
  destruct (List.filter _ (appointments d)) as [| c found]; [reflexivity |].
  destruct (_suggest_alternatives dt duration 3 d) as [[sg | e |] d'];
    try reflexivity.
  destruct e; reflexivity.
Qed.

(** *** The probing loop *)

Lemma hours_succ p k :
  Time.shift (Time.shift p (Time.hours k)) (Time.hours 1)
  = Time.shift p (Time.hours (k + 1)).
Proof. rewrite shift_shift. f_equal. unfold Time.hours; lia. Qed.

Lemma before_horizon p k :
  Time.ltb (Time.shift p (Time.hours k)) (Time.shift p (Time.days 7))
  = (k <? 168).
Proof.
  unfold Time.ltb, Time.shift, Time.hours, Time.days; cbn.
  destruct (Z.ltb_spec k 168); [apply Z.ltb_lt | apply Z.ltb_ge]; lia.
Qed.

Lemma suggest_loop_spec preferred duration limit d :
  forall fuel k suggestions res d',
    suggest_loop fuel preferred duration limit
      (Time.shift preferred (Time.hours k)) suggestions d = (Ok res, d') ->
    res = suggestions ++
          firstn (Z.to_nat (limit - Z.of_nat (length suggestions)))
            (List.filter (probe_free (appointments d) duration)
               (probes_from preferred k (Z.to_nat (168 - k)))).
Proof.
  induction fuel as [| fuel IH]; intros k sg res d'; simpl.
  - unfold lift; discriminate.
  - destruct (Z.ltb_spec (Z.of_nat (length sg)) limit) as [Hlim | Hlim].
    2:{ unfold ret; intros H; inversion H; subst.
        replace (Z.to_nat (limit - Z.of_nat (length res))) with O by lia.
        simpl. now rewrite app_nil_r. }
    unfold bind at 1, lift at 1.
    destruct (Time.add preferred (Time.days 7)) as [horizon | e |] eqn:Hh;
      try discriminate.
    apply add_inv in Hh as [-> _].
    rewrite before_horizon.
    destruct (Z.ltb_spec k 168) as [Hk | Hk].
    2:{ unfold ret; intros H; inversion H; subst.
        replace (Z.to_nat (168 - k)) with O by lia.
        simpl. rewrite firstn_nil. now rewrite app_nil_r. }
    unfold bind at 1, lift at 1.
    destruct (Time.add (Time.shift preferred (Time.hours k))
                (Time.minutes duration))
      as [end_check | e |] eqn:He; try discriminate.
    apply add_inv in He as [-> _].
    unfold bind at 1, select.
    destruct (missing_column probe_columns d); try discriminate.
    unfold bind at 1, lift at 1.
    destruct (Time.add (Time.shift preferred (Time.hours k)) (Time.hours 1))
      as [check' | e |] eqn:Hc; try discriminate.
    apply add_inv in Hc as [-> _].
    rewrite hours_succ. intros Hrun. apply IH in Hrun. subst res.
    replace (Z.to_nat (168 - k)) with (S (Z.to_nat (168 - (k + 1)))) by lia.
    simpl probes_from. simpl List.filter. unfold probe_free at 2.
    destruct (existsb _ (appointments d)); simpl negb.
    + reflexivity.
    + rewrite length_app; simpl length.
      replace (Z.to_nat (limit - Z.of_nat (length sg)))
        with (S (Z.to_nat (limit - Z.of_nat (length sg + 1)))) by lia.
      rewrite firstn_cons, <- app_assoc. reflexivity.
Qed.

Lemma suggest_alternatives_spec preferred duration d res d' :
  _suggest_alternatives preferred duration 3 d = (Ok res, d') ->
  res = firstn 3 (List.filter (probe_free (appointments d) duration)
                    (probes preferred)).
Proof.
  unfold _suggest_alternatives, bind at 1, lift at 1.
  destruct (Time.add preferred (Time.hours 1)) as [check | e |] eqn:Hc;
    try discriminate.
  apply add_inv in Hc as [-> _]. intros H.
  apply suggest_loop_spec in H. subst res. reflexivity.
Qed.

Lemma in_range_iff t :
  Time.in_range t = true <-> 0 <= t < Time.MAX_US.
Proof. unfold Time.in_range. rewrite andb_true_iff, Z.leb_le, Z.ltb_lt. tauto. Qed.

(** Away from the ends of the calendar the loop runs to its end within its
    fuel, and raises nothing. *)
Lemma suggest_loop_total (preferred : Time.datetime) duration limit d :
  0 <= preferred -> 0 <= preferred + Time.minutes duration ->
  preferred + Time.days 7 < Time.MAX_US ->
  preferred + Time.days 7 + Time.minutes duration < Time.MAX_US ->
  missing_column probe_columns d = None ->
  forall fuel k suggestions,
    1 <= k <= 168 -> 168 - k < Z.of_nat fuel ->
    exists res,
      suggest_loop fuel preferred duration limit
        (Time.shift preferred (Time.hours k)) suggestions d = (Ok res, d).
Proof.
  intros Hp Hpd Hh Hhd Hcols.
  induction fuel as [| fuel IH]; intros k sg Hk Hfuel; [lia |].
  simpl. destruct (Z.of_nat (length sg) <? limit); [| eexists; reflexivity].
  unfold bind at 1, lift at 1.
  rewrite add_in_range by (apply in_range_iff; unfold Time.days in *; lia).
  rewrite before_horizon.
  destruct (Z.ltb_spec k 168) as [Hlt | Hge]; [| eexists; reflexivity].
  unfold bind at 1, lift at 1.
  rewrite add_in_range
    by (apply in_range_iff; cbn [Time.wall Time.shift];
        unfold Time.days, Time.hours in *; lia).
  unfold bind at 1, select. rewrite Hcols.
  unfold bind at 1, lift at 1.
  rewrite add_in_range
    by (apply in_range_iff; cbn [Time.wall Time.shift];
        unfold Time.days, Time.hours in *; lia).
  rewrite hours_succ. apply IH; lia.
Qed.

Lemma suggest_alternatives_total (preferred : Time.datetime) duration d :
  0 <= preferred -> 0 <= preferred + Time.minutes duration ->
  preferred + Time.days 7 < Time.MAX_US ->
  preferred + Time.days 7 + Time.minutes duration < Time.MAX_US ->
  missing_column probe_columns d = None ->
  exists res, _suggest_alternatives preferred duration 3 d = (Ok res, d).
Proof.
  intros Hp Hpd Hh Hhd Hcols. unfold _suggest_alternatives, bind at 1, lift at 1.
  rewrite add_in_range
    by (apply in_range_iff; unfold Time.days, Time.hours in *; lia).
  apply suggest_loop_total; auto; unfold suggest_fuel; lia.
Qed.

(** The probe query names columns that the conflict query names too. *)
Lemma probe_columns_present d :
  missing_column conflict_columns d = None ->
  missing_column probe_columns d = None.
Proof.
  unfold missing_column, conflict_columns, probe_columns; simpl.
  repeat match goal with
         | |- context [existsb ?f (columns d)] =>
             destruct (existsb f (columns d)); simpl; try discriminate
         end.
  reflexivity.
Qed.

Lemma in_probes_from p s : forall n k,
  In s (probes_from p k n) ->
  exists j, k <= j < k + Z.of_nat n /\ s = Time.shift p (Time.hours j).
Proof.
  induction n as [| n IH]; intros k; simpl; [tauto |].
  intros [<- | Hin].
  - exists k; split; [lia | reflexivity].
  - apply IH in Hin as (j & Hj & ->). exists j; split; [lia | reflexivity].
Qed.

(** A free probe is free by the test of the probe query, on the texts. *)
Lemma probe_free_texts rows duration check :
  probe_free rows duration check = true <->
  forall a, In a rows -> not_cancelled a = true ->
    ~ (Time.iso_ltb (start_datetime a)
         (Time.shift check (Time.minutes duration)) = true
       /\ Time.iso_ltb check (end_datetime a) = true).
Proof.
  unfold probe_free. rewrite negb_true_iff. split.
  - intros Hex a Hin Hnc [H1 H2].
    assert (existsb (probe_where check
                       (Time.shift check (Time.minutes duration))) rows
            = true) as Habs; [| congruence].
    apply existsb_exists. exists a; split; [assumption |].
    unfold probe_where. rewrite Hnc, H1, H2. reflexivity.
  - intros H. destruct (existsb _ rows) eqn:Hex; [| reflexivity].
    apply existsb_exists in Hex as (a & Hin & Hw). exfalso.
    unfold probe_where in Hw. apply andb_true_iff in Hw as [Hnc Hw].
    apply (H a Hin Hnc).
    rewrite orb_diag in Hw. apply andb_true_iff in Hw as [H1 H2]. now split.
Qed.

(** On the [tzinfo] of the probe the test of the query is the half-open
    rule in time. *)
Lemma probe_test_zone (a : appointment) (check : Time.datetime) delta :
  same_zone check a ->
  (Time.iso_ltb (start_datetime a) (Time.shift check delta) = true
   /\ Time.iso_ltb check (end_datetime a) = true)
  <-> half_open_overlap (start_datetime a) (end_datetime a)
        check (Time.shift check delta).
Proof.
  intros [Hs He]. unfold half_open_overlap.
  rewrite (iso_ltb_zone (start_datetime a)) by exact Hs.
  rewrite (iso_ltb_zone check) by (symmetry; exact He).
  rewrite !Z.ltb_lt.
  pose proof (instant_zone (start_datetime a) (Time.shift check delta) Hs).
  pose proof (instant_zone check (end_datetime a) (eq_sym He)).
  lia.
Qed.

Lemma in_firstn {A} (x : A) n l : In x (firstn n l) -> In x l.
Proof.
  intros H. rewrite <- (firstn_skipn n l). apply in_or_app. left; exact H.
Qed.

(** C5 (as the code has it).  When [check_availability] finds a conflict,
    the suggestions it returns are the first three free probes among
    [dt + 1 hour], [dt + 2 hours], ..., [dt + 167 hours]: there are at most
    three, each is a whole number of hours after [dt] on the [tzinfo] of
    [dt], at least one hour after it and before [dt + 7 days].  A probe is
    free by the test of the probe query, which compares [isoformat()]
    texts: no row that is not cancelled has its start before the end of
    the probe and its end after the start of the probe, as texts.  For a
    row on the [tzinfo] of [dt] (all naive, or the same offset) this says
    that the row does not overlap the probe in time under the half-open
    rule.  Away from the ends of the calendar, and on a table that has the
    columns of the query, the call does return. *)
Theorem suggestions_are_free_probes :
  forall (dt : Time.datetime) (duration : Z) (d : db),
    (forall r d',
        check_availability dt duration d = (Ok r, d') ->
        available r = false -> error r = None ->
        exists sg,
          suggested_times r = Some sg
          /\ sg = firstn 3 (List.filter (probe_free (appointments d) duration)
                             (probes dt))
          /\ (length sg <= 3)%nat
          /\ forall s : Time.datetime, In s sg ->
               (exists k, 1 <= k <= 167 /\ s = Time.shift dt (Time.hours k))
               /\ dt + Time.hours 1 <= s < dt + Time.days 7
               /\ forall a, In a (appointments d) -> not_cancelled a = true ->
                    ~ (Time.iso_ltb (start_datetime a)
                         (Time.shift s (Time.minutes duration)) = true
                       /\ Time.iso_ltb s (end_datetime a) = true)
                    /\ (same_zone dt a ->
                        ~ half_open_overlap (start_datetime a) (end_datetime a)
                            s (Time.shift s (Time.minutes duration))))
    /\ (0 <= dt -> 0 <= dt + Time.minutes duration ->
        dt + Time.days 7 < Time.MAX_US ->
        dt + Time.days 7 + Time.minutes duration < Time.MAX_US ->
        missing_column conflict_columns d = None ->
        exists r, check_availability dt duration d = (Ok r, d)).
Proof.
  intros dt duration d. split.
  - intros r d' Hrun Hav Herr.
    rewrite check_availability_cases in Hrun. cbv zeta in Hrun.
    destruct (Time.in_range (dt + Time.minutes duration)); [| discriminate].
    destruct (missing_column conflict_columns d).
    { inversion Hrun; subst. discriminate. }
    destruct (List.filter _ (appointments d)) as [| c found].
    { inversion Hrun; subst. discriminate. }
    destruct (_suggest_alternatives dt duration 3 d) as [[sg | e |] d2] eqn:Hs.
    2:{ destruct e; inversion Hrun; subst; discriminate. }
    2:{ discriminate. }
    inversion Hrun; subst r d'; clear Hrun. cbn [suggested_times].
    apply suggest_alternatives_spec in Hs.
    exists sg. split; [reflexivity |]. split; [assumption |].
    split; [subst sg; rewrite length_firstn; lia |].
    intros s Hin. subst sg. apply in_firstn in Hin.
    apply filter_In in Hin as [Hprobe Hfree].
    apply in_probes_from in Hprobe as (k & Hk & ->).
    split; [exists k; split; [lia | reflexivity] |].
    split; [cbn [Time.wall Time.shift]; unfold Time.hours, Time.days; lia |].
    intros a Hin Hnc.
    pose proof (proj1 (probe_free_texts _ _ _) Hfree a Hin Hnc) as Htest.
    split; [exact Htest |].
    intros Hzone Hover. apply Htest.
    apply (probe_test_zone a (Time.shift dt (Time.hours k))); assumption.
  - intros Hp Hpd Hh Hhd Hcols.
    rewrite check_availability_cases; cbv zeta.
    replace (Time.in_range (dt + Time.minutes duration)) with true
      by (symmetry; apply in_range_iff; unfold Time.days in *; lia).
    rewrite Hcols.
    destruct (List.filter _ (appointments d)); [eexists; reflexivity |].
    destruct (suggest_alternatives_total dt duration d Hp Hpd Hh Hhd
                (probe_columns_present d Hcols)) as [sg ->].
    eexists; reflexivity.
Qed.

(** The theorem at work: "Standup" is booked from 15:00 to 16:00; a
    half-hour slot at 15:30 is refused and 16:30, 17:30 and 18:30 are
    suggested. *)
Lemma suggestions_are_free_probes_witness :
  exists sg,
    sg = [Time.shift march_1st_15h (Time.minutes 90);
          Time.shift march_1st_15h (Time.minutes 150);
          Time.shift march_1st_15h (Time.minutes 210)]
    /\ (length sg <= 3)%nat
    /\ forall s, In s sg ->
         forall a, In a (appointments standup_db) -> not_cancelled a = true ->
           same_zone march_1st_15h a ->
           ~ half_open_overlap (start_datetime a) (end_datetime a)
               s (Time.shift s (Time.minutes 30)).
Proof.
  destruct (suggestions_are_free_probes
              (Time.shift march_1st_15h (Time.minutes 30)) 30 standup_db)
    as [H _].
  destruct (H {| available := false;
                 conflicts := Some [(1, "Standup"%string)];
                 suggested_times :=
                   Some [Time.shift march_1st_15h (Time.minutes 90);
                         Time.shift march_1st_15h (Time.minutes 150);
                         Time.shift march_1st_15h (Time.minutes 210)];
                 error := None |} standup_db)
    as (sg & Hsg & _ & Hlen & Hfree).
  - vm_compute. reflexivity.
  - reflexivity.
  - reflexivity.
  - cbn [suggested_times] in Hsg. injection Hsg as Hsg.
    exists sg. split; [symmetry; exact Hsg |]. split; [exact Hlen |].
    intros s Hin a Ha Hnc Hzone.
    exact (proj2 (proj2 (proj2 (Hfree s Hin)) a Ha Hnc) Hzone).
Defined.

(** *** What [book_appointment] returns *)

Lemma book_appointment_cases r d :
  let end_dt := Time.shift (req_start r) (Time.minutes (req_duration r)) in
  let found := List.filter (conflict_where (req_start r) end_dt) (appointments d) in
  book_appointment r d =
    if Time.in_range (req_start r + Time.minutes (req_duration r)) then
      match missing_column conflict_columns d with
      | Some c => (Raise (KeyError "conflicts"), d)
      | None =>
          match found with
          | [] =>
              match missing_column insert_columns d with
              | Some c => (Ok (failed (no_column_named c)), d)
              | None => (Ok (booked r (next_rowid d)), with_row d r)
              end
          | _ :: _ =>
              match fst (_suggest_alternatives (req_start r) (req_duration r) 3 d) with
              | Ok _ =>
                  (Ok (refused (map (fun c => (appt_id c, title c)) found)), d)
              | Raise (SqliteError _) => (Raise (KeyError "conflicts"), d)
              | Raise e => (Raise e, d)
              | OutOfFuel => (OutOfFuel, d)
              end
          end
      end
    else (Raise OverflowError, d).
Proof.
  intros end_dt found; subst end_dt found.
  unfold book_appointment, book_check, try_sqlite.
  unfold bind at 1. unfold bind at 1.
  rewrite check_availability_cases; cbv zeta.
  destruct (Time.in_range (req_start r + Time.minutes (req_duration r))) eqn:Hr;
    [| reflexivity].
  destruct (missing_column conflict_columns d); [reflexivity |].
  destruct (List.filter _ (appointments d)) as [| c found].
  - simpl. unfold book_insert, bind, lift, insert, ret, Time.add. rewrite Hr.
    destruct (missing_column insert_columns d); reflexivity.
  - pose proof (read_only_suggest_alternatives (req_start r) (req_duration r) 3 d)
      as Hro.
    destruct (_suggest_alternatives (req_start r) (req_duration r) 3 d)
      as [[sg | e |] d2]; simpl in Hro; subst d2; simpl; try reflexivity.
    destruct e; reflexivity.
Qed.

Lemma with_row_changes d r : with_row d r <> d.
Proof.
  intros H. apply (f_equal (fun x => length (appointments x))) in H.
  simpl in H. rewrite length_app in H. simpl in H. lia.
Qed.

(** *** The conflict relation *)

(** On one [tzinfo] the three alternatives are comparisons of wall
    clocks. *)
Lemma conflict_intervals_zone (dt end_dt s e : Time.datetime) :
  Time.utcoffset s = Time.utcoffset dt ->
  Time.utcoffset e = Time.utcoffset dt ->
  Time.utcoffset end_dt = Time.utcoffset dt ->
  conflict_intervals dt end_dt s e
  = (((s <? end_dt) && (dt <? e)) || ((dt <=? s) && (e <=? end_dt))).
Proof.
  intros Hs He Hd. unfold conflict_intervals.
  rewrite (iso_ltb_zone s end_dt) by congruence.
  rewrite (iso_ltb_zone dt e) by congruence.
  rewrite (iso_leb_zone dt s) by congruence.
  rewrite (iso_leb_zone e end_dt) by congruence.
  now rewrite orb_diag.
Qed.

Lemma half_open_overlap_zone (dt end_dt s e : Time.datetime) :
  Time.utcoffset s = Time.utcoffset dt ->
  Time.utcoffset e = Time.utcoffset dt ->
  Time.utcoffset end_dt = Time.utcoffset dt ->
  half_open_overlap s e dt end_dt <-> s < end_dt /\ dt < e.
Proof.
  intros Hs He Hd. unfold half_open_overlap, Time.instant.
  rewrite Hs, He, Hd. lia.
Qed.

Lemma conflict_intervals_half_open (dt end_dt s e : Time.datetime) :
  Time.utcoffset s = Time.utcoffset dt ->
  Time.utcoffset e = Time.utcoffset dt ->
  Time.utcoffset end_dt = Time.utcoffset dt ->
  s < e ->
  (conflict_intervals dt end_dt s e = true <-> half_open_overlap s e dt end_dt).
Proof.
  intros Hs He Hd Hse.
  rewrite conflict_intervals_zone, half_open_overlap_zone by assumption.
  rewrite !orb_true_iff, !andb_true_iff, !Z.ltb_lt, !Z.leb_le.
  lia.
Qed.

Lemma check_availability_conflicts dt duration d r d' :
  check_availability dt duration d = (Ok r, d') -> error r = None ->
  conflicts r =
    Some (map (fun c => (appt_id c, title c))
            (List.filter
               (conflict_where dt (Time.shift dt (Time.minutes duration)))
               (appointments d)))
  /\ available r =
     match List.filter
             (conflict_where dt (Time.shift dt (Time.minutes duration)))
             (appointments d) with
     | [] => true
     | _ :: _ => false
     end.
Proof.
  rewrite check_availability_cases; cbv zeta. intros Hrun Herr.
  destruct (Time.in_range (dt + Time.minutes duration)); [| discriminate].
  destruct (missing_column conflict_columns d).
  { inversion Hrun; subst; discriminate. }
  destruct (List.filter _ (appointments d)) as [| c found].
  { inversion Hrun; subst; split; reflexivity. }
  destruct (_suggest_alternatives dt duration 3 d) as [[sg | e |] d2].
  - inversion Hrun; subst; split; reflexivity.
  - destruct e; inversion Hrun; subst; discriminate.
  - discriminate.
Qed.

Lemma not_cancelled_iff a :
  not_cancelled a = true <->
  exists s, status a = Some s /\ s <> "cancelled"%string.
Proof.
  unfold not_cancelled. destruct (status a) as [s |].
  - rewrite negb_true_iff. split.
    + intros H. exists s. split; [reflexivity |].
      intros ->. discriminate.
    + intros (s' & Hs & Hne). injection Hs as <-.
      destruct (String.eqb_spec s "cancelled"); [contradiction | reflexivity].
  - split; [discriminate | intros (s & Hs & _); discriminate].
Qed.

(** C3 (as the code has it).  Take a stored appointment whose two
    datetimes are on one [tzinfo] and whose own interval is not empty
    ([start < end]).  For a proposed interval [[dt, end_dt)] on that
    [tzinfo] (all naive, or the same offset) the WHERE clause of
    [check_availability] holds iff the status of the row is a text other
    than ['cancelled'] and [existing.start < proposed.end] and
    [proposed.start < existing.end]: a confirmed row takes part, and so
    does a row of any other status; a cancelled row and a row whose status
    is NULL do not.  On such intervals the relation is reflexive and
    symmetric, and [check_availability] lists the row among the conflicts
    whenever the rule holds for it. *)
Theorem conflict_relation_half_open :
  forall a : appointment,
    Time.utcoffset (start_datetime a) = Time.utcoffset (end_datetime a) ->
    start_datetime a < end_datetime a ->
    (forall dt end_dt,
        same_zone dt a -> Time.utcoffset end_dt = Time.utcoffset dt ->
        (conflict_where dt end_dt a = true <->
         not_cancelled a = true /\
         half_open_overlap (start_datetime a) (end_datetime a) dt end_dt))
    /\ (not_cancelled a = true <->
        exists s, status a = Some s /\ s <> "cancelled"%string)
    /\ (status a = Some "confirmed"%string -> not_cancelled a = true)
    /\ (status a = Some "cancelled"%string -> not_cancelled a = false)
    /\ (status a = None -> not_cancelled a = false)
    /\ conflict_intervals (start_datetime a) (end_datetime a)
         (start_datetime a) (end_datetime a) = true
    /\ (forall s e : Time.datetime,
          same_zone s a -> Time.utcoffset e = Time.utcoffset s -> s < e ->
          conflict_intervals s e (start_datetime a) (end_datetime a)
          = conflict_intervals (start_datetime a) (end_datetime a) s e)
    /\ (forall d dt duration r d',
          In a (appointments d) -> same_zone dt a ->
          check_availability dt duration d = (Ok r, d') -> error r = None ->
          (not_cancelled a = true /\
           half_open_overlap (start_datetime a) (end_datetime a)
             dt (Time.shift dt (Time.minutes duration)))
          -> available r = false
             /\ exists cs, conflicts r = Some cs /\ In (appt_id a, title a) cs).
Proof.
  intros a Hrow Hne.
  assert (Hiff : forall dt end_dt,
             same_zone dt a -> Time.utcoffset end_dt = Time.utcoffset dt ->
             (conflict_where dt end_dt a = true <->
              not_cancelled a = true /\
              half_open_overlap (start_datetime a) (end_datetime a) dt end_dt)).
  { intros dt end_dt [Hs He] Hd. unfold conflict_where.
    rewrite andb_true_iff.
    rewrite (conflict_intervals_half_open dt end_dt) by assumption.
    tauto. }
  split; [exact Hiff |].
  split; [apply not_cancelled_iff |].
  split; [unfold not_cancelled; intros ->; reflexivity |].
  split; [unfold not_cancelled; intros ->; reflexivity |].
  split; [unfold not_cancelled; intros ->; reflexivity |].
  split.
  { apply conflict_intervals_half_open; try congruence.
    apply half_open_overlap_zone; try congruence. lia. }
  split.
  { intros s e [Hs He] Hse Hlt.
    rewrite (conflict_intervals_zone s e) by congruence.
    rewrite (conflict_intervals_zone (start_datetime a) (end_datetime a))
      by congruence.
    destruct (Z.ltb_spec (start_datetime a) e), (Z.ltb_spec s (end_datetime a)),
             (Z.leb_spec s (start_datetime a)), (Z.leb_spec (end_datetime a) e),
             (Z.ltb_spec s (end_datetime a)), (Z.ltb_spec (start_datetime a) e),
             (Z.leb_spec (start_datetime a) s), (Z.leb_spec e (end_datetime a));
      cbn; try reflexivity; lia. }
  intros d dt duration r d' Hin Hzone Hrun Herr Hrule.
  destruct (check_availability_conflicts _ _ _ _ _ Hrun Herr) as [Hcs Hav].
  assert (Hf : In a (List.filter
                       (conflict_where dt (Time.shift dt (Time.minutes duration)))
                       (appointments d))).
  { apply filter_In. split; [assumption |].
    apply Hiff; [assumption | reflexivity | assumption]. }
  split.
  - rewrite Hav. destruct (List.filter _ (appointments d)); [destruct Hf |].
    reflexivity.
  - eexists; split; [exact Hcs |].
    apply (in_map (fun c => (appt_id c, title c))). exact Hf.
Qed.

(** The theorem at work on the "Standup" row and the slot 15:30-16:00. *)
Lemma conflict_relation_half_open_witness :
  conflict_where (Time.shift march_1st_15h (Time.minutes 30))
    (Time.shift march_1st_15h (Time.minutes 60))
    (row_of (slot "Standup" march_1st_15h 60) 1) = true.
Proof.
  destruct (conflict_relation_half_open
              (row_of (slot "Standup" march_1st_15h 60) 1)) as [H _].
  - reflexivity.
  - vm_compute. reflexivity.
  - apply H.
    + split; reflexivity.
    + reflexivity.
    + split; [reflexivity |]. split; vm_compute; reflexivity.
Defined.

(** C3, where the statement of the claim fails, in the three ways that the
    code differs from it.  An empty row ([[15:00, 15:00)], as
    [book_appointment] stores it for a duration of zero) is a conflict for
    [[15:00, 16:00)] although [proposed.start < existing.end] does not
    hold, and with the two intervals exchanged the clause is false.  A row
    that is tentative, not confirmed, is a conflict.  And with the row
    stored at offset +00:00 from 15:00 to 16:00, the proposed half hour
    from 17:30+02:00, which is 15:30 to 16:00 at +00:00, overlaps the row
    in time and is reported free: the texts are compared, and
    ["...T16:00:00+00:00"] is not behind ["...T17:30:00+02:00"]. *)
Lemma conflict_rule_differs_from_half_open :
  (exists a,
      appointments ping_db = [a]
      /\ status a = Some "confirmed"%string
      /\ conflict_where march_1st_15h
           (Time.shift march_1st_15h (Time.minutes 60)) a = true
      /\ ~ half_open_overlap (start_datetime a) (end_datetime a)
             march_1st_15h (Time.shift march_1st_15h (Time.minutes 60))
      /\ conflict_intervals (start_datetime a) (end_datetime a)
           march_1st_15h (Time.shift march_1st_15h (Time.minutes 60)) = false)
  /\ (exists a,
        appointments tentative_db = [a]
        /\ status a = Some "tentative"%string
        /\ conflict_where march_1st_15h
             (Time.shift march_1st_15h (Time.minutes 60)) a = true
        /\ exists r,
             fst (check_availability march_1st_15h 60 tentative_db) = Ok r
             /\ available r = false
             /\ conflicts r = Some [(1, "Maybe"%string)])
  /\ (exists a,
        let dt := plus_two (Time.shift march_1st_15h (Time.minutes 150)) in
        appointments utc_standup_db = [a]
        /\ status a = Some "confirmed"%string
        /\ Time.instant (start_datetime a) < Time.instant (end_datetime a)
        /\ half_open_overlap (start_datetime a) (end_datetime a)
             dt (Time.shift dt (Time.minutes 30))
        /\ conflict_where dt (Time.shift dt (Time.minutes 30)) a = false
        /\ check_availability dt 30 utc_standup_db
           = (Ok free_result, utc_standup_db)).
Proof.
  split; [| split].
  - eexists. split; [vm_compute; reflexivity |].
    split; [reflexivity |]. split; [vm_compute; reflexivity |].
    split; [| vm_compute; reflexivity].
    intros [_ H]. vm_compute in H. discriminate.
  - eexists. split; [reflexivity |]. split; [reflexivity |].
    split; [vm_compute; reflexivity |].
    eexists. split; [vm_compute; reflexivity |]. split; reflexivity.
  - eexists. cbv zeta. split; [vm_compute; reflexivity |].
    split; [reflexivity |]. split; [vm_compute; reflexivity |].
    split; [split; vm_compute; reflexivity |].
    split; vm_compute; reflexivity.
Qed.

(** A suggestion is free by the test of the probe query.  On a store with
    an empty row [check_availability] can still refuse it: asked for 14:00
    on the "Ping" store it suggests 15:00, and asked for 15:00 it reports
    the "Ping" row. *)
Remark suggested_slot_next_to_empty_row :
  (exists r, fst (check_availability
                    (Time.shift march_1st_15h (Time.hours (-1))) 60 ping_db)
             = Ok r
             /\ suggested_times r
                = Some [march_1st_15h; Time.shift march_1st_15h (Time.hours 1);
                        Time.shift march_1st_15h (Time.hours 2)])
  /\ probe_free (appointments ping_db) 60 march_1st_15h = true
  /\ (exists r, fst (check_availability march_1st_15h 60 ping_db) = Ok r
                /\ available r = false).
Proof.
  split; [eexists; split; vm_compute; reflexivity |].
  split; [vm_compute; reflexivity |].
  eexists; split; vm_compute; reflexivity.
Qed.

(** C5, where the statement of the claim fails: the row is stored at offset
    +00:00 from 15:00 to 16:00, and a slot is asked for at 14:30+02:00.
    The texts conflict, the probe at 15:30+02:00 is refused and the probe
    at 16:30+02:00 is suggested: it lasts from 14:30 to 15:30 at +00:00
    and overlaps the row in time. *)
Lemma suggestion_overlaps_row_of_other_offset :
  let dt := plus_two (Time.shift march_1st_15h (Time.minutes (-30))) in
  exists a r s rest,
    appointments utc_standup_db = [a]
    /\ status a = Some "confirmed"%string
    /\ fst (check_availability dt 60 utc_standup_db) = Ok r
    /\ available r = false
    /\ suggested_times r = Some (s :: rest)
    /\ s = Time.shift dt (Time.hours 2)
    /\ half_open_overlap (start_datetime a) (end_datetime a)
         s (Time.shift s (Time.minutes 60)).
Proof.
  cbv zeta. eexists. eexists. eexists. eexists.
  split; [vm_compute; reflexivity |].
  split; [reflexivity |].
  split; [vm_compute; reflexivity |].
  split; [reflexivity |].
  split; [reflexivity |].
  split; [vm_compute; reflexivity |].
  split; vm_compute; reflexivity.
Qed.

(** *** Booking *)

(** C8 (as the code has it).  [book_appointment] does not look at the sign
    of the duration: a request whose interval is empty or reversed
    ([start >= end]) goes through the availability check like any other.
    When the check finds a conflicting row the store is unchanged and,
    with the week of probes inside the range of [datetime], the request is
    refused with those rows; when it finds none, on a table that has the
    columns of both statements, the row is inserted with [end <= start] and
    the call reports success.  In every case the store is either unchanged or
    has this one row more. *)
Theorem book_appointment_unvalidated_interval :
  forall (r : request) (d : db),
    req_duration r <= 0 ->
    let end_dt := Time.shift (req_start r) (Time.minutes (req_duration r)) in
    let found :=
      List.filter (conflict_where (req_start r) end_dt) (appointments d) in
    (found <> [] ->
       snd (book_appointment r d) = d
       /\ (0 <= end_dt -> req_start r + Time.days 7 < Time.MAX_US ->
           missing_column conflict_columns d = None ->
           book_appointment r d
           = (Ok (refused (map (fun c => (appt_id c, title c)) found)), d)))
    /\ (found = [] ->
        Time.in_range end_dt = true ->
        missing_column conflict_columns d = None ->
        missing_column insert_columns d = None ->
        book_appointment r d = (Ok (booked r (next_rowid d)), with_row d r)
        /\ with_row d r <> d
        /\ end_datetime (row_of r (next_rowid d))
           <= start_datetime (row_of r (next_rowid d)))
    /\ (snd (book_appointment r d) = d
        \/ snd (book_appointment r d) = with_row d r).
Proof.
  intros r d Hdur end_dt found.
  rewrite book_appointment_cases; cbv zeta. fold end_dt. fold found.
  change (req_start r + Time.minutes (req_duration r))
    with (Time.wall end_dt) in *.
  repeat split.
  - destruct (Time.in_range end_dt); [| reflexivity].
    destruct (missing_column conflict_columns d); [reflexivity |].
    destruct found; [congruence |].
    destruct (fst (_suggest_alternatives _ _ _ d)) as [sg | e |];
      try reflexivity.
    destruct e; reflexivity.
  - intros Hlow Hhigh Hcols.
    assert (Hmin : Time.minutes (req_duration r) <= 0)
      by (unfold Time.minutes; lia).
    assert (Hr : Time.in_range end_dt = true)
      by (apply in_range_iff; unfold end_dt, Time.days in *;
          cbn [Time.wall Time.shift] in *; lia).
    rewrite Hr, Hcols.
    destruct found; [congruence |].
    destruct (suggest_alternatives_total (req_start r) (req_duration r) d)
      as [sg Hsg];
      try (unfold end_dt, Time.days in *; cbn [Time.wall Time.shift] in *;
           lia).
    + apply probe_columns_present, Hcols.
    + rewrite Hsg. reflexivity.
  - rewrite H0, H1, H, H2. reflexivity.
  - apply with_row_changes.
  - simpl. unfold Time.minutes. lia.
  - destruct (Time.in_range end_dt); [| left; reflexivity].
    destruct (missing_column conflict_columns d); [left; reflexivity |].
    destruct found.
    + destruct (missing_column insert_columns d); [left | right]; reflexivity.
    + left. destruct (fst (_suggest_alternatives _ _ _ d)) as [sg | e |];
        try reflexivity.
      destruct e; reflexivity.
Qed.

(** The theorem at work: a request of zero minutes at 15:30 against the
    "Standup" row is refused, names "Standup", and leaves the store as it
    was. *)
Lemma book_appointment_unvalidated_interval_witness :
  book_appointment (slot "Ping" (Time.shift march_1st_15h (Time.minutes 30)) 0)
    standup_db
  = (Ok (refused [(1, "Standup"%string)]), standup_db).
Proof.
  destruct (book_appointment_unvalidated_interval
              (slot "Ping" (Time.shift march_1st_15h (Time.minutes 30)) 0)
              standup_db)
    as [H _].
  - simpl. lia.
  - destruct H as [_ H]; [vm_compute; discriminate |].
    apply H; vm_compute; congruence.
Defined.

(** C8, where the statement of the claim fails: a request from 15:00 that
    lasts minus thirty minutes is booked on the empty store, which then
    holds a row that ends before it starts. *)
Lemma book_negative_duration_inserts :
  let r := slot "Void" march_1st_15h (-30) in
  req_start r >= req_start r + Time.minutes (req_duration r)
  /\ fst (book_appointment r empty_db) = Ok (booked r 1)
  /\ appointments (snd (book_appointment r empty_db)) = [row_of r 1]
  /\ snd (book_appointment r empty_db) <> empty_db
  /\ end_datetime (row_of r 1) < start_datetime (row_of r 1).
Proof.
  cbv zeta. repeat split; try (vm_compute; reflexivity).
  - vm_compute. discriminate.
  - vm_compute. discriminate.
Qed.

(** On the database that [_init_db] creates, the INSERT names a column the
    table does not have: no request is ever booked. *)
Lemma book_appointment_on_init_db r :
  Time.in_range (req_start r + Time.minutes (req_duration r)) = true ->
  book_appointment r init_db =
    (Ok (failed "table appointments has no column named created_by"), init_db).
Proof.
  intros Hr. rewrite book_appointment_cases; cbv zeta. rewrite Hr. reflexivity.
Qed.

End CalendarFacts.

(* ================================================================== *)
(** * Two callers of [book_appointment] *)

Section RaceFacts.
Import Store Calendar CalendarSpec Race.

(** A caller that is not interrupted does what [book_appointment] does. *)
Lemma alone_is_book_appointment r d :
  step (fst (step (Ready r) d)) (snd (step (Ready r) d))
  = (Returned (fst (book_appointment r d)), snd (book_appointment r d)).
Proof.
  unfold book_appointment, try_sqlite, bind. cbn [step].
  destruct (book_check r d) as [[[early | []] | e |] d1]; cbn [fst snd step].
  - reflexivity.
  - destruct (book_insert r d1) as [[b | e |] d2]; cbn [fst snd guarded];
      try reflexivity.
    destruct e; reflexivity.
  - destruct e; reflexivity.
  - reflexivity.
Qed.

(** One caller after the other: the second one is refused, and the
    conflicts it is given name the appointment of the first. *)
Lemma one_after_the_other :
  run [false; false; true; true]
    (Ready (slot "A" march_1st_15h 60)) (Ready (slot "B" march_1st_15h 60))
    empty_db
  = (Returned (Ok (booked (slot "A" march_1st_15h 60) 1)),
     Returned (Ok (refused [(1, "A"%string)])),
     with_row empty_db (slot "A" march_1st_15h 60)).
Proof. vm_compute. reflexivity. Qed.

(** C1, at the failing schedule.  Two callers ask for the same hour on the
    empty store.  Both run their availability check before either runs its
    INSERT: both are told [success = True], with the ids 1 and 2, and the
    store ends with two confirmed rows for the same interval. *)
Theorem race_both_callers_succeed :
  let a := slot "A" march_1st_15h 60 in
  let b := slot "B" march_1st_15h 60 in
  run [false; true; false; true] (Ready a) (Ready b) empty_db
  = (Returned (Ok (booked a 1)), Returned (Ok (booked b 2)),
     with_row (with_row empty_db a) b)
  /\ appointments (with_row (with_row empty_db a) b) = [row_of a 1; row_of b 2]
  /\ conflict_where (req_start b)
       (Time.shift (req_start b) (Time.minutes (req_duration b)))
       (row_of a 1) = true.
Proof. cbv zeta. repeat split; vm_compute; reflexivity. Qed.

(** What a successful booking says about the store it was made on. *)
Lemma booked_inv r d b :
  fst (book_appointment r d) = Ok b -> success b = true ->
  Time.in_range (req_start r + Time.minutes (req_duration r)) = true
  /\ missing_column conflict_columns d = None
  /\ List.filter
       (conflict_where (req_start r)
          (Time.shift (req_start r) (Time.minutes (req_duration r))))
       (appointments d) = []
  /\ missing_column insert_columns d = None.
Proof.
  rewrite book_appointment_cases; cbv zeta.
  destruct (Time.in_range _); [| discriminate].
  destruct (missing_column conflict_columns d); [discriminate |].
  destruct (List.filter _ (appointments d)).
  - destruct (missing_column insert_columns d).
    + intros H; inversion H; subst; discriminate.
    + auto.
  - destruct (fst (_suggest_alternatives _ _ _ d)) as [sg | e |].
    + intros H; inversion H; subst; discriminate.
    + destruct e; discriminate.
    + discriminate.
Qed.

Lemma step_ready_free r d :
  Time.in_range (req_start r + Time.minutes (req_duration r)) = true ->
  missing_column conflict_columns d = None ->
  List.filter
    (conflict_where (req_start r)
          (Time.shift (req_start r) (Time.minutes (req_duration r))))
    (appointments d) = [] ->
  step (Ready r) d = (Checked r, d).
Proof.
  intros Hr Hc Hf. unfold step, book_check, bind.
  rewrite check_availability_cases; cbv zeta. rewrite Hr, Hc, Hf.
  reflexivity.
Qed.

Lemma step_checked r d :
  Time.in_range (req_start r + Time.minutes (req_duration r)) = true ->
  missing_column insert_columns d = None ->
  step (Checked r) d = (Returned (Ok (booked r (next_rowid d))), with_row d r).
Proof.
  intros Hr Hc. unfold step, book_insert, bind, lift, insert, Time.add.
  rewrite Hr, Hc. reflexivity.
Qed.

(** The same schedule, for any two requests that the store can take one at
    a time: both are booked, whether or not they overlap each other. *)
Lemma race_any_two_free_slots a b d ra rb :
  fst (book_appointment a d) = Ok ra -> success ra = true ->
  fst (book_appointment b d) = Ok rb -> success rb = true ->
  run [false; true; false; true] (Ready a) (Ready b) d
  = (Returned (Ok (booked a (next_rowid d))),
     Returned (Ok (booked b (next_rowid (with_row d a)))),
     with_row (with_row d a) b).
Proof.
  intros Ha Hsa Hb Hsb.
  destruct (booked_inv _ _ _ Ha Hsa) as (Ra & Ca & Fa & Ia).
  destruct (booked_inv _ _ _ Hb Hsb) as (Rb & Cb & Fb & Ib).
  cbn [run].
  rewrite (step_ready_free a d Ra Ca Fa).
  rewrite (step_ready_free b d Rb Cb Fb).
  rewrite (step_checked a d Ra Ia).
  rewrite (step_checked b (with_row d a) Rb Ib).
  reflexivity.
Qed.

End RaceFacts.

(* ================================================================== *)
(** * Properties of the local resolver *)

Section NluFacts.
Import Py Nlu.

Variable ollama_chat : Privacy.text -> dict -> option Privacy.text.
Variable json_loads : Privacy.text -> Nlu.loads.

(** C9 (as the code has it).  When the call of the local model raises,
    [parse_intent] returns the rule-based classification of the text:
    [check_availability] if the lowercased text contains "available" or
    "free", else [book_appointment] if it contains "book" or "schedule",
    else [create_task] if it contains "task" or "todo", else [unknown];
    a keyword result carries the confidence 0.5 and [unknown] 0.3.  The
    result has the two keys ["intent"] and ["confidence"] and no
    ["source"]. *)
Theorem fallback_classification :
  forall (text : Privacy.text) (context : dict),
    ollama_chat text context = None ->
    let r := parse_intent ollama_chat json_loads text context in
    let low := lower text in
    r = _rule_based_fallback text
    /\ (has "available" low || has "free" low = true ->
        r = [("intent", str "check_availability");
             ("confidence", VFloat (5 # 10))]%string)
    /\ (has "available" low || has "free" low = false ->
        has "book" low || has "schedule" low = true ->
        r = [("intent", str "book_appointment");
             ("confidence", VFloat (5 # 10))]%string)
    /\ (has "available" low || has "free" low = false ->
        has "book" low || has "schedule" low = false ->
        has "task" low || has "todo" low = true ->
        r = [("intent", str "create_task");
             ("confidence", VFloat (5 # 10))]%string)
    /\ (has "available" low || has "free" low = false ->
        has "book" low || has "schedule" low = false ->
        has "task" low || has "todo" low = false ->
        r = [("intent", str "unknown"); ("confidence", VFloat (3 # 10))]%string)
    /\ get "source" r = None.
Proof.
  intros text context Hraise r low. subst r low.
  unfold parse_intent. rewrite Hraise. unfold _rule_based_fallback.
  split; [reflexivity |].
  destruct (has "available" (lower text) || has "free" (lower text));
    [repeat split; try discriminate; reflexivity |].
  destruct (has "book" (lower text) || has "schedule" (lower text));
    [repeat split; try discriminate; reflexivity |].
  destruct (has "task" (lower text) || has "todo" (lower text));
    repeat split; try discriminate; reflexivity.
Qed.

End NluFacts.

(** The theorem at work: the model is down and the text is
    "Please BOOK a room". *)
Lemma fallback_classification_witness :
  Nlu.parse_intent (fun _ _ => None) (fun _ => Nlu.JSONDecodeError)
    (list_ascii_of_string "Please BOOK a room") []
  = [("intent", Py.str "book_appointment");
     ("confidence", Py.VFloat (5 # 10))]%string.
Proof.
  destruct (fallback_classification (fun _ _ => None) (fun _ => Nlu.JSONDecodeError)
              (list_ascii_of_string "Please BOOK a room") [] eq_refl)
    as (_ & _ & H & _).
  apply H; vm_compute; reflexivity.
Defined.

(** C9, where the statement of the claim fails.  The fallback result for
    "Please BOOK a room" has no ["source"] key, so it does not carry
    [source=fallback]; and for a model answer whose JSON cannot be decoded
    the result is not the rule-based classification of the text: it is
    [unknown] with the raw answer and the confidence 0.8. *)
Lemma fallback_result_has_no_source :
  let text := list_ascii_of_string "Please BOOK a room" in
  let broken := list_ascii_of_string "{oops}" in
  Py.get "source" (Nlu.parse_intent (fun _ _ => None) (fun _ => Nlu.JSONDecodeError) text [])
    <> Some (Py.str "fallback")
  /\ Nlu.parse_intent (fun _ _ => Some broken) (fun _ => Nlu.JSONDecodeError) text []
     = [("intent", Py.str "unknown"); ("raw", Py.VStr broken);
        ("confidence", Py.VFloat (8 # 10))]%string
  /\ Nlu.parse_intent (fun _ _ => Some broken) (fun _ => Nlu.JSONDecodeError) text []
     <> Nlu._rule_based_fallback text.
Proof.
  cbv zeta. repeat split.
  - vm_compute. discriminate.
  - vm_compute. discriminate.
Qed.

(* ================================================================== *)
(** * Properties of the cloud proxy *)

Section CloudFacts.
Import Cloud.

Variable respond : nat -> request -> response.
Variable cfg : config.

Lemma openai_attempts_sent p prompt :
  forall rounds attempt rq,
    In rq (snd (openai_attempts respond cfg p prompt attempt rounds)) ->
    rq = openai_request cfg prompt.
Proof.
  induction rounds as [| rounds IH]; intros attempt rq; simpl.
  - tauto.
  - destruct (session_open p); [| apply IH].
    destruct (respond attempt (openai_request cfg prompt)) as [content | | | |];
      try (destruct (openai_attempts respond cfg p prompt (S attempt) rounds)
             as [res sent] eqn:E; simpl;
           intros [<- | Hin]; [reflexivity |];
           apply (IH (S attempt)); rewrite E; exact Hin).
    simpl. intros [<- | []]. reflexivity.
Qed.

(** C6.  Whatever the provider answers, every request that [call_llm]
    sends carries the redacted text of [anonymize_text] as its content and
    is made of that text alone (two prompts with the same redacted text
    send the same requests, whatever their mappings); a prompt that the
    anonymizer changes is never sent as it was.  A request is sent only
    when cloud offloading is enabled and the user has consented; otherwise
    the call returns [None] and sends nothing. *)
Theorem call_llm_sends_redacted_only :
  forall (p : proxy) (prompt : Privacy.text) (max_retries : Z),
    let redacted := fst (Privacy.anonymize_text prompt) in
    let sent := snd (call_llm respond cfg p prompt max_retries) in
    (forall rq, In rq sent ->
       content rq = redacted /\ rq = openai_request cfg redacted)
    /\ (redacted <> prompt -> forall rq, In rq sent -> content rq <> prompt)
    /\ (sent <> [] -> enabled p = true /\ user_consent p = true)
    /\ (enabled p = false \/ user_consent p = false ->
        call_llm respond cfg p prompt max_retries = (None, []))
    /\ (forall prompt',
          fst (Privacy.anonymize_text prompt') = redacted ->
          call_llm respond cfg p prompt' max_retries
          = call_llm respond cfg p prompt max_retries).
Proof.
  intros p prompt max_retries redacted sent.
  assert (forall rq, In rq sent ->
            content rq = redacted /\ rq = openai_request cfg redacted) as Hsent.
  { subst sent redacted. unfold call_llm.
    destruct (negb (enabled p) || negb (user_consent p)); [intros rq [] |].
    destruct (Privacy.anonymize_text prompt) as [anonymized mapping]; simpl fst.
    destruct (key_set (OPENAI_API_KEY cfg)).
    - unfold _call_openai. intros rq Hin.
      apply openai_attempts_sent in Hin. subst rq. split; reflexivity.
    - destruct (key_set (ANTHROPIC_API_KEY cfg)); intros rq []. }
  split; [exact Hsent |].
  split; [intros Hne rq Hin; destruct (Hsent rq Hin) as [-> _]; exact Hne |].
  split.
  { subst sent. unfold call_llm.
    destruct (enabled p), (user_consent p); simpl; try (intros H; congruence).
    intros _. split; reflexivity. }
  split.
  { unfold call_llm. intros [-> | ->]; [reflexivity |].
    rewrite orb_true_r. reflexivity. }
  intros prompt' Heq. subst redacted. unfold call_llm.
  destruct (negb (enabled p) || negb (user_consent p)); [reflexivity |].
  destruct (Privacy.anonymize_text prompt') as [a' m'].
  destruct (Privacy.anonymize_text prompt) as [a m].
  simpl in Heq. subst a'. reflexivity.
Qed.

End CloudFacts.

(* ================================================================== *)
(** * Properties of the dispatch loop *)

Section DispatchFacts.
Import Py Orchestrator DispatchSpec.

Lemma text_eqb_eq a : forall b, Privacy.text_eqb a b = true -> a = b.
Proof.
  induction a as [| x a IH]; intros [| y b]; simpl; try discriminate.
  - reflexivity.
  - intros H. apply andb_true_iff in H as [Hxy Hab].
    apply Ascii.eqb_eq in Hxy. apply IH in Hab. congruence.
Qed.

Lemma with_calendar_same st : with_calendar st (calendar st) = st.
Proof. destruct st; reflexivity. Qed.

(** A [book_appointment] intent without ["datetime"]: the [KeyError] of
    [intent["datetime"]] is raised before the calendar is called, and is
    answered with the request for more details. *)
Lemma execute_book_without_datetime intent session_id st :
  is_intent "book_appointment" (get_default "intent" (str "unknown") intent)
    = true ->
  get "datetime" intent = None ->
  _execute_intent intent session_id st = (Ok (Say missing_details), st).
Proof.
  intros Hbook Hdt. unfold _execute_intent, dispatch.
  destruct (get_default "intent" (str "unknown") intent) as
    [| | | | kind | | | |]; try discriminate.
  simpl in Hbook. apply text_eqb_eq in Hbook. subst kind.
  cbn [is_intent]. replace (Privacy.text_eqb _ _) with false by reflexivity.
  replace (Privacy.text_eqb _ _) with true by reflexivity.
  unfold book_branch, item. rewrite Hdt.
  unfold Store.bind, Store.lift. cbn.
  rewrite with_calendar_same. reflexivity.
Qed.

Variable ollama_chat : Privacy.text -> dict -> option Privacy.text.
Variable json_loads : Privacy.text -> Nlu.loads.
Variable respond : nat -> Cloud.request -> Cloud.response.
Variable cfg : Cloud.config.

(** C7 (as the code has it).  When the intent that [process_text] resolved
    is a [book_appointment] without ["datetime"], nothing is raised to the
    caller: [_execute_intent] answers "I didn't get all the details.
    Please provide more information." and changes nothing, so the calendar
    and the tasks are as before and [process_text] returns success with
    this reply and the intent.  The session update of step 5 still runs:
    with a session identifier the context of that session is overwritten
    with the intent and the reply, and without one the sessions are as
    before. *)
Theorem book_without_datetime_is_answered :
  forall (text : Privacy.text) (session_id : option string) (use_cloud : bool)
         (st : state) (intent : dict) (sent : list Cloud.request),
    resolve ollama_chat json_loads respond cfg text session_id use_cloud st
      = (Ok intent, sent) ->
    is_intent "book_appointment" (get_default "intent" (str "unknown") intent)
      = true ->
    get "datetime" intent = None ->
    let st' :=
      snd (process_text ollama_chat json_loads respond cfg
             text session_id use_cloud st) in
    _execute_intent intent session_id st = (Ok (Say missing_details), st)
    /\ fst (process_text ollama_chat json_loads respond cfg
              text session_id use_cloud st)
       = (Ok (Success (Say missing_details) intent), sent)
    /\ calendar st' = calendar st
    /\ tasks st' = tasks st
    /\ (session_given session_id = None -> st' = st)
    /\ (forall s, session_given session_id = Some s ->
          active_sessions st'
          = <[s := set "last_response" (VReply (Say missing_details))
                     (set "last_intent" (VDict intent)
                        (default [] (active_sessions st !! s)))]>
              (active_sessions st)).
Proof.
  intros text session_id use_cloud st intent sent Hres Hbook Hdt st'.
  pose proof (execute_book_without_datetime intent session_id st Hbook Hdt)
    as Hexec.
  subst st'. unfold process_text. rewrite Hres, Hexec. cbn [fst snd].
  unfold update_session, context_of.
  split; [reflexivity |]. split; [reflexivity |].
  destruct (session_given session_id) as [s |]; cbn.
  - repeat split; try reflexivity; try discriminate.
    intros s' H; inversion H; subst; reflexivity.
  - repeat split; try reflexivity; discriminate.
Qed.

End DispatchFacts.

(** The theorem at work: the model is down, "book a room" falls back to a
    [book_appointment] intent without a datetime, no session is given. *)
Lemma book_without_datetime_is_answered_witness :
  fst (Orchestrator.process_text DispatchSpec.model_down DispatchSpec.no_json
         DispatchSpec.unreachable DispatchSpec.no_keys
         DispatchSpec.book_a_room None false DispatchSpec.idle_state)
  = (Ok (Orchestrator.Success (Py.Say Orchestrator.missing_details)
           (Nlu._rule_based_fallback DispatchSpec.book_a_room)), [])
  /\ snd (Orchestrator.process_text DispatchSpec.model_down DispatchSpec.no_json
            DispatchSpec.unreachable DispatchSpec.no_keys
            DispatchSpec.book_a_room None false DispatchSpec.idle_state)
     = DispatchSpec.idle_state.
Proof.
  destruct (book_without_datetime_is_answered
              DispatchSpec.model_down DispatchSpec.no_json
              DispatchSpec.unreachable DispatchSpec.no_keys
              DispatchSpec.book_a_room None false DispatchSpec.idle_state
              (Nlu._rule_based_fallback DispatchSpec.book_a_room) [])
    as (_ & H1 & _ & _ & H2 & _).
  - reflexivity.
  - reflexivity.
  - reflexivity.
  - split; [exact H1 | apply H2; reflexivity].
Defined.

(** C7, where the statement of the claim fails: the same request with the
    session identifier "s1".  The reply is the request for more details and
    the calendar is untouched, but the session map, which was empty, holds
    a context for "s1" afterwards. *)
Lemma book_without_datetime_updates_session :
  let st' :=
    snd (Orchestrator.process_text DispatchSpec.model_down DispatchSpec.no_json
           DispatchSpec.unreachable DispatchSpec.no_keys
           DispatchSpec.book_a_room (Some "s1"%string) false
           DispatchSpec.idle_state) in
  Orchestrator.active_sessions DispatchSpec.idle_state !! "s1"%string = None
  /\ Orchestrator.active_sessions st' !! "s1"%string
     = Some [("last_intent"%string,
              Py.VDict (Nlu._rule_based_fallback DispatchSpec.book_a_room));
             ("last_response"%string,
              Py.VReply (Py.Say Orchestrator.missing_details))]
  /\ Orchestrator.active_sessions st'
     <> Orchestrator.active_sessions DispatchSpec.idle_state
  /\ Orchestrator.calendar st' = Orchestrator.calendar DispatchSpec.idle_state.
Proof.
  cbv zeta.
  assert (Orchestrator.active_sessions
            (snd (Orchestrator.process_text DispatchSpec.model_down
                    DispatchSpec.no_json DispatchSpec.unreachable
                    DispatchSpec.no_keys DispatchSpec.book_a_room
                    (Some "s1"%string) false DispatchSpec.idle_state))
          !! "s1"%string
          = Some [("last_intent"%string,
                   Py.VDict (Nlu._rule_based_fallback DispatchSpec.book_a_room));
                  ("last_response"%string,
                   Py.VReply (Py.Say Orchestrator.missing_details))]) as Hs.
  { vm_compute. reflexivity. }
  split; [reflexivity |]. split; [exact Hs |]. split; [| reflexivity].
  intros Heq. rewrite Heq in Hs. discriminate.
Qed.

(* ================================================================== *)
(** * Properties of the privacy filter *)

(** Facts on single characters are proved by cases on the eight bits. *)
Ltac by_bits c :=
  destruct c as [[|] [|] [|] [|] [|] [|] [|] [|]];
  vm_compute; intros; first [reflexivity | discriminate | contradiction].

(** *** The filter on a sample text *)

Example anonymize_sample :
  Privacy.anonymize_text
    (list_ascii_of_string
       "mail john.doe@example.com or call +1234567890 John Smith")
  = (list_ascii_of_string "mail [EMAIL_0] or call +[PHONE_1] [NAME_2]",
     [(list_ascii_of_string "[EMAIL_0]",
       list_ascii_of_string "john.doe@example.com");
      (list_ascii_of_string "[PHONE_1]", list_ascii_of_string "1234567890");
      (list_ascii_of_string "[NAME_2]", list_ascii_of_string "John Smith")]).
Proof. vm_compute. reflexivity. Qed.

(** Greedy items give characters back: the address ends at the last dot
    that a word follows, and the number starts behind the bracket. *)
Example anonymize_backtracks :
  fst (Privacy.anonymize_text
         (list_ascii_of_string "(555)123-4567 tel+1234567890 a@b.c-d x@y"))
  = list_ascii_of_string "([PHONE_1] tel[PHONE_2] [EMAIL_0]-d x@y".
Proof. vm_compute. reflexivity. Qed.

Section MatcherFacts.
Import Privacy PrivacySpec.

Local Open Scope nat_scope.

Lemma last_or_app prev u v : last_or prev (u ++ v) = last_or (last_or prev u) v.
Proof. unfold last_or. apply fold_left_app. Qed.

Lemma last_or_cons prev c u : last_or prev (c :: u) = last_or (Some c) u.
Proof. reflexivity. Qed.

Lemma last_or_nonempty prev prev' u : u <> [] -> last_or prev u = last_or prev' u.
Proof. destruct u; [congruence | reflexivity]. Qed.

Lemma first_or_head (w rest : text) : head (w ++ rest) = first_or w (head rest).
Proof. destruct w; reflexivity. Qed.

(** *** The matcher finds what the language holds *)

Lemma rep_match_sound p rest (D : option ascii -> text -> option ascii -> Prop) :
  (forall prev s n, rest prev s = Some n ->
     exists w tl, s = w ++ tl /\ length w = n /\ D prev w (head tl)) ->
  forall s least prev n,
    rep_match p rest least prev s = Some n ->
    exists u v tl,
      s = (u ++ v) ++ tl /\ length (u ++ v) = n /\ forallb p u = true
      /\ least <= length u /\ D (last_or prev u) v (head tl).
Proof.
  intros Hrest.
  assert (forall s least prev n,
            (if least =? 0 then rest prev s else None) = Some n ->
            exists u v tl,
              s = (u ++ v) ++ tl /\ length (u ++ v) = n /\ forallb p u = true
              /\ least <= length u /\ D (last_or prev u) v (head tl)) as Hstop.
  { intros s least prev n. destruct (Nat.eqb_spec least 0); [| discriminate].
    intros H. apply Hrest in H as (w & tl & -> & <- & HD).
    exists [], w, tl. repeat split; simpl; try assumption. lia. }
  induction s as [| c s IH]; intros least prev n; simpl.
  - apply Hstop.
  - destruct (p c) eqn:Hp; [| apply Hstop].
    destruct (rep_match p rest (pred least) (Some c) s) as [m |] eqn:Hrec;
      [| apply Hstop].
    intros H; inversion H; subst n; clear H.
    apply IH in Hrec as (u & v & tl & -> & <- & Hu & Hle & HD).
    exists (c :: u), v, tl. repeat split; simpl; try assumption.
    + rewrite Hp, Hu. reflexivity.
    + lia.
Qed.

Lemma bmatch_sound r :
  forall prev s n,
    bmatch r prev s = Some n ->
    exists w tl, s = w ++ tl /\ length w = n /\ derives r prev w (head tl).
Proof.
  induction r as [| a r IH]; intros prev s n; simpl.
  - intros H; inversion H; subst. exists [], s. repeat split.
  - destruct a as [| p | p | p least].
    + destruct (is_boundary prev (head s)) eqn:Hb; [| discriminate].
      intros H. apply IH in H as (w & tl & -> & <- & HD).
      exists w, tl. repeat split; try assumption.
      rewrite <- first_or_head. exact Hb.
    + unfold one_match. destruct s as [| c s]; [discriminate |].
      destruct (p c) eqn:Hp; [| discriminate].
      destruct (bmatch r (Some c) s) as [m |] eqn:Hm; [| discriminate].
      intros H; inversion H; subst n; clear H.
      apply IH in Hm as (w & tl & -> & <- & HD).
      exists (c :: w), tl. repeat split. exists c, w. repeat split; assumption.
    + destruct (one_match p (bmatch r) s) as [m |] eqn:Hone.
      * intros H; inversion H; subst m; clear H.
        unfold one_match in Hone. destruct s as [| c s]; [discriminate |].
        destruct (p c) eqn:Hp; [| discriminate].
        destruct (bmatch r (Some c) s) as [m |] eqn:Hm; [| discriminate].
        inversion Hone; subst n; clear Hone.
        apply IH in Hm as (w & tl & -> & <- & HD).
        exists (c :: w), tl. repeat split.
        left. exists c, w. repeat split; assumption.
      * intros H. apply IH in H as (w & tl & -> & <- & HD).
        exists w, tl. repeat split. right. exact HD.
    + intros H.
      apply (rep_match_sound p (bmatch r) (derives r) IH) in H
        as (u & v & tl & -> & <- & Hu & Hle & HD).
      exists (u ++ v), tl. repeat split. exists u, v. repeat split; assumption.
Qed.

(** *** The matcher finds a match wherever the language has one *)

Lemma rep_match_stop p rest least prev s :
  rep_match p rest least prev s = None ->
  (if least =? 0 then rest prev s else None) = None.
Proof.
  destruct s as [| c s]; simpl; [tauto |].
  destruct (p c); [| tauto].
  destruct (rep_match p rest (pred least) (Some c) s); [discriminate | tauto].
Qed.

Lemma rep_match_complete p rest (D : option ascii -> text -> Prop) tl :
  (forall prev v, D prev v -> rest prev (v ++ tl) <> None) ->
  forall u v least prev,
    forallb p u = true -> least <= length u -> D (last_or prev u) v ->
    rep_match p rest least prev ((u ++ v) ++ tl) <> None.
Proof.
  intros Hrest. induction u as [| c u IH]; intros v least prev Hu Hle HD.
  - simpl in *. intros Hnone. apply rep_match_stop in Hnone.
    replace (least =? 0) with true in Hnone
      by (symmetry; apply Nat.eqb_eq; lia).
    exact (Hrest prev v HD Hnone).
  - simpl in Hu. apply andb_true_iff in Hu as [Hc Hu]. simpl. rewrite Hc.
    specialize (IH v (pred least) (Some c) Hu).
    destruct (rep_match p rest (pred least) (Some c) ((u ++ v) ++ tl));
      [discriminate |].
    exfalso. apply IH; [simpl in Hle; lia | exact HD | reflexivity].
Qed.

Lemma bmatch_complete r :
  forall prev w tl,
    derives r prev w (head tl) -> bmatch r prev (w ++ tl) <> None.
Proof.
  induction r as [| a r IH]; intros prev w tl; simpl.
  - discriminate.
  - destruct a as [| p | p | p least].
    + intros [Hb HD]. rewrite first_or_head, Hb. apply IH. exact HD.
    + intros (c & w' & -> & Hp & HD). simpl. rewrite Hp.
      specialize (IH _ _ _ HD).
      destruct (bmatch r (Some c) (w' ++ tl)); [discriminate | congruence].
    + intros [(c & w' & -> & Hp & HD) | HD].
      * simpl. rewrite Hp. specialize (IH _ _ _ HD).
        destruct (bmatch r (Some c) (w' ++ tl)); [discriminate | congruence].
      * destruct (one_match p (bmatch r) (w ++ tl)); [discriminate |].
        apply IH. exact HD.
    + intros (u & v & -> & Hu & Hle & HD).
      apply (rep_match_complete p (bmatch r)
               (fun prev v => derives r prev v (head tl)) tl); auto.
Qed.

(** *** Bodies between two boundaries *)

Lemma derives_free r :
  boundary_free r = true ->
  forall prev w next prev' next',
    derives r prev w next -> derives r prev' w next'.
Proof.
  induction r as [| a r IH]; simpl; [auto |].
  destruct a as [| p | p | p least]; [discriminate | | |]; intros Hfree;
    intros prev w next prev' next'.
  - intros (c & w' & -> & Hp & HD). exists c, w'. eauto.
  - intros [(c & w' & -> & Hp & HD) | HD]; [left | right]; eauto.
    exists c, w'. eauto.
  - intros (u & v & -> & Hu & Hle & HD). exists u, v. eauto 6.
Qed.

Lemma derives_end body :
  forall prev w next,
    derives (body ++ [Boundary]) prev w next <->
    derives body prev w next /\ is_boundary (last_or prev w) next = true.
Proof.
  induction body as [| a body IH]; intros prev w next; simpl.
  - split.
    + intros [Hb ->]. auto.
    + intros [-> Hb]. auto.
  - destruct a as [| p | p | p least].
    + rewrite IH. tauto.
    + split.
      * intros (c & w' & -> & Hp & HD). apply IH in HD as [HD Hb].
        split; [exists c, w'; auto | exact Hb].
      * intros [(c & w' & -> & Hp & HD) Hb]. exists c, w'.
        repeat split; auto. apply IH. auto.
    + split.
      * intros [(c & w' & -> & Hp & HD) | HD]; apply IH in HD as [HD Hb].
        -- split; [left; exists c, w'; auto | exact Hb].
        -- split; [right; exact HD | exact Hb].
      * intros [[(c & w' & -> & Hp & HD) | HD] Hb].
        -- left. exists c, w'. repeat split; auto. apply IH. auto.
        -- right. apply IH. auto.
    + split.
      * intros (u & v & -> & Hu & Hle & HD). apply IH in HD as [HD Hb].
        split; [exists u, v; auto | rewrite last_or_app; exact Hb].
      * intros [(u & v & -> & Hu & Hle & HD) Hb]. exists u, v.
        repeat split; auto. apply IH. rewrite last_or_app in Hb. auto.
Qed.

Lemma derives_nonempty r :
  consumes r = true ->
  forall prev w next, derives r prev w next -> w <> [].
Proof.
  induction r as [| a r IH]; simpl; [discriminate |].
  destruct a as [| p | p | p [| least]]; intros Hc prev w next.
  - intros [_ HD]. eauto.
  - intros (c & w' & -> & _). discriminate.
  - intros [(c & w' & -> & _) | HD]; [discriminate | eauto].
  - intros (u & v & -> & _ & _ & HD). apply IH in HD; [| exact Hc].
    destruct u; [exact HD | discriminate].
  - intros (u & v & -> & _ & Hle & _). destruct u; simpl in *; [lia | discriminate].
Qed.

Lemma derives_chars Q r :
  classes_within Q r ->
  forall prev w next, derives r prev w next -> forallb Q w = true.
Proof.
  induction r as [| a r IH]; simpl.
  - intros _ prev w next ->. reflexivity.
  - destruct a as [| p | p | p least].
    + intros HQ prev w next [_ HD]. eauto.
    + intros [Hp HQ] prev w next (c & w' & -> & Hc & HD). simpl.
      rewrite (Hp c Hc). eauto.
    + intros [Hp HQ] prev w next [(c & w' & -> & Hc & HD) | HD]; [| eauto].
      simpl. rewrite (Hp c Hc). eauto.
    + intros [Hp HQ] prev w next (u & v & -> & Hu & _ & HD).
      rewrite forallb_app. apply andb_true_iff. split; [| eauto].
      apply forallb_forall. intros c Hin.
      apply Hp. rewrite forallb_forall in Hu. auto.
Qed.

(** A framed body matches a word between [prev] and [next] iff the body
    matches the word and there is a boundary at both of its ends. *)
Lemma framed_iff body :
  boundary_free body = true -> consumes body = true ->
  forall prev w next,
    derives (framed body) prev w next <->
    w <> [] /\ is_boundary prev (head w) = true
    /\ derives body None w None
    /\ is_boundary (last_or None w) next = true.
Proof.
  intros Hfree Hcons prev w next. unfold framed. simpl.
  rewrite derives_end. split.
  - intros (Hb & HD & He).
    pose proof (derives_nonempty body Hcons _ _ _ HD) as Hne.
    destruct w as [| c w]; [congruence |].
    repeat split; auto.
    eapply derives_free; eauto.
  - intros (Hne & Hb & HD & He).
    destruct w as [| c w]; [congruence |].
    repeat split; auto.
    eapply derives_free; eauto.
Qed.

(** *** Facts on single characters *)

Lemma email_char_plain c : is_email_char c = true -> plain c = true.
Proof. by_bits c. Qed.
Lemma word_plain c : is_word c = true -> plain c = true.
Proof. by_bits c. Qed.
Lemma phone_char_plain c : is_phone_char c = true -> plain c = true.
Proof. by_bits c. Qed.
Lemma upper_plain c : is_upper c = true -> plain c = true.
Proof. by_bits c. Qed.
Lemma lower_plain c : is_lower c = true -> plain c = true.
Proof. by_bits c. Qed.
Lemma at_plain c : is_char "@" c = true -> plain c = true.
Proof. by_bits c. Qed.
Lemma dot_plain c : is_char "." c = true -> plain c = true.
Proof. by_bits c. Qed.
Lemma plus_plain c : is_char "+" c = true -> plain c = true.
Proof. by_bits c. Qed.
Lemma space_plain c : is_char " " c = true -> plain c = true.
Proof. by_bits c. Qed.

Lemma inner_word c : inner c = true -> is_word c = true.
Proof. by_bits c. Qed.
Lemma inner_plain c : inner c = true -> plain c = true.
Proof. by_bits c. Qed.
Lemma at_not_inner c : is_char "@" c = true -> inner c = false.
Proof. by_bits c. Qed.
Lemma lower_not_inner c : is_lower c = true -> inner c = false.
Proof. by_bits c. Qed.
Lemma upper_not_phone c : is_upper c = true -> is_phone_char c = false.
Proof. by_bits c. Qed.
Lemma upper_not_plus c : is_upper c = true -> is_char "+" c = false.
Proof. by_bits c. Qed.
Lemma upper_not_email_sign c : is_upper c = true -> is_char "@" c = false.
Proof. by_bits c. Qed.

Lemma forallb_app_inv {A} (f : A -> bool) u v :
  forallb f (u ++ v) = true -> forallb f u = true /\ forallb f v = true.
Proof. rewrite forallb_app. apply andb_true_iff. Qed.

(** *** The three bodies *)

Lemma email_body_pii : pii_body email_body.
Proof.
  repeat split; try reflexivity;
    try solve [apply email_char_plain | apply word_plain
              | apply at_plain | apply dot_plain].
  intros c w HD Hup Hin. simpl in HD.
  destruct HD as (u & v & Hw & Hu & Hle & c1 & w1 & -> & Hat & _).
  assert (forallb inner (c :: w) = true) as Hall.
  { simpl. rewrite Hin. unfold inner. rewrite Hup. reflexivity. }
  rewrite Hw in Hall. apply forallb_app_inv in Hall as [_ Hall].
  simpl in Hall. rewrite (at_not_inner c1 Hat) in Hall. discriminate.
Qed.

Lemma phone_body_pii : pii_body phone_body.
Proof.
  repeat split; try reflexivity;
    try solve [apply phone_char_plain | apply plus_plain].
  intros c w HD Hup Hin. simpl in HD.
  destruct HD as [(c1 & w1 & Hw & Hplus & _) | (u & v & Hw & Hu & Hle & _)].
  - inversion Hw; subst c1. rewrite (upper_not_plus c Hup) in Hplus.
    discriminate.
  - destruct u as [| c1 u]; [simpl in Hle; lia |].
    inversion Hw; subst c1. simpl in Hu.
    rewrite (upper_not_phone c Hup) in Hu. discriminate.
Qed.

Lemma name_body_pii : pii_body name_body.
Proof.
  repeat split; try reflexivity;
    try solve [apply upper_plain | apply lower_plain | apply space_plain].
  intros c w HD Hup Hin. simpl in HD.
  destruct HD as (c1 & w1 & Hw & _ & u & v & -> & Hu & Hle & _).
  inversion Hw; subst c1 w.
  destruct u as [| c2 u]; [simpl in Hle; lia |].
  simpl in Hu, Hin. apply andb_true_iff in Hu as [Hlow _].
  rewrite (lower_not_inner c2 Hlow) in Hin. discriminate.
Qed.

Lemma bodies_pii body : In body bodies -> pii_body body.
Proof.
  intros [<- | [<- | [<- | []]]];
    [apply email_body_pii | apply phone_body_pii | apply name_body_pii].
Qed.

(** *** What a match of a framed body is *)

Lemma match_inv body prev s n :
  pii_body body ->
  bmatch (framed body) prev s = Some n ->
  exists w tl,
    s = w ++ tl /\ length w = n /\ w <> [] /\ forallb plain w = true
    /\ is_boundary prev (head w) = true
    /\ is_boundary (last_or None w) (head tl) = true
    /\ derives body None w None.
Proof.
  intros (Hfree & Hcons & Hplain & _) Hm.
  apply bmatch_sound in Hm as (w & tl & -> & <- & HD).
  apply (framed_iff body Hfree Hcons) in HD as (Hne & Hb & HD & He).
  exists w, tl. repeat split; auto.
  eapply derives_chars; eauto.
Qed.

Lemma match_intro body prev w tl :
  pii_body body ->
  w <> [] -> derives body None w None ->
  is_boundary prev (head w) = true ->
  is_boundary (last_or None w) (head tl) = true ->
  bmatch (framed body) prev (w ++ tl) <> None.
Proof.
  intros (Hfree & Hcons & _) Hne HD Hb He.
  apply bmatch_complete. apply (framed_iff body Hfree Hcons). auto.
Qed.

Lemma match_nonempty body prev s :
  pii_body body -> bmatch (framed body) prev s <> Some 0.
Proof.
  intros Hb Hm. apply (match_inv body) in Hm as (w & tl & _ & Hlen & Hne & _);
    [| exact Hb].
  destruct w; [congruence | discriminate].
Qed.

End MatcherFacts.

Section PlaceholderFacts.
Import Privacy PrivacySpec.

Local Open Scope nat_scope.

Lemma patterns_framed :
  map snd patterns = map framed bodies.
Proof. reflexivity. Qed.

(** *** Decimal numerals *)

Lemma uint_digits d :
  forallb is_digit (list_ascii_of_string (NilEmpty.string_of_uint d)) = true.
Proof. induction d; simpl; try rewrite IHd; reflexivity. Qed.

Lemma decimal_digits n : forallb is_digit (decimal n) = true.
Proof. apply uint_digits. Qed.

Lemma decimal_inj n m : decimal n = decimal m -> n = m.
Proof.
  unfold decimal. intros H.
  apply (f_equal string_of_list_ascii) in H.
  rewrite !string_of_list_ascii_of_string in H.
  apply (f_equal NilEmpty.uint_of_string) in H.
  rewrite !NilEmpty.usu in H. inversion H as [Hd].
  apply (f_equal Nat.of_uint) in Hd.
  now rewrite !DecimalNat.Unsigned.of_to in Hd.
Qed.

Lemma digit_inner c : is_digit c = true -> inner c = true.
Proof. by_bits c. Qed.

(** *** The shape of a placeholder *)

Lemma placeholder_shape pii_type n :
  placeholder pii_type n = "["%char :: inside pii_type n ++ ["]"%char].
Proof.
  unfold placeholder, inside. rewrite <- app_assoc. reflexivity.
Qed.

Lemma inside_shape pii_type n :
  In pii_type type_names ->
  exists c rest,
    inside pii_type n = c :: rest /\ is_upper c = true
    /\ forallb inner (c :: rest) = true.
Proof.
  assert (forallb inner ("_"%char :: decimal n) = true) as Htail.
  { simpl. apply forallb_forall. intros c Hin. apply digit_inner.
    pose proof (decimal_digits n) as Hd. rewrite forallb_forall in Hd. auto. }
  intros [<- | [<- | [<- | []]]]; unfold inside;
    eexists; eexists; (split; [reflexivity |]); (split; [reflexivity |]);
    change (forallb inner ("_"%char :: decimal n)) with
      (true && forallb inner ("_"%char :: decimal n)) in Htail;
    simpl; exact Htail.
Qed.

Lemma is_boundary_words a b :
  is_word a = true -> is_word b = true -> is_boundary (Some a) (Some b) = false.
Proof. unfold is_boundary. simpl. intros -> ->. reflexivity. Qed.

Lemma last_or_snoc prev u z : last_or prev (u ++ [z]) = Some z.
Proof. rewrite last_or_app. reflexivity. Qed.

Lemma split_last {A} (a b B : list A) e :
  a ++ b = B ++ [e] -> b <> [] -> exists b0, b = b0 ++ [e] /\ B = a ++ b0.
Proof.
  intros H Hb. destruct (exists_last Hb) as (b0 & z & ->).
  rewrite app_assoc in H. apply app_inj_tail in H as [<- ->].
  exists b0. auto.
Qed.

(** A word without the character [e] that starts a text in which [e]
    comes behind [b0] lies within [b0]. *)
Lemma prefix_before (e : ascii) (w : text) :
  forall b0 tl rest,
    w ++ tl = b0 ++ e :: rest ->
    forallb (fun c => negb (Ascii.eqb e c)) w = true ->
    exists b1, b0 = w ++ b1 /\ tl = b1 ++ e :: rest.
Proof.
  induction w as [| c w IH]; intros b0 tl rest H Hw.
  - exists b0. auto.
  - simpl in Hw. apply andb_true_iff in Hw as [Hc Hw].
    destruct b0 as [| x b0]; simpl in H.
    + inversion H; subst. rewrite Ascii.eqb_refl in Hc. discriminate.
    + inversion H; subst x. apply IH in H2 as (b1 & -> & ->); [| exact Hw].
      exists b1. auto.
Qed.

Lemma plain_no_open w :
  forallb plain w = true -> forallb (fun c => negb (Ascii.eqb "[" c)) w = true.
Proof.
  intros H. apply forallb_forall. intros c Hin.
  rewrite forallb_forall in H. specialize (H c Hin).
  unfold plain, is_char in H. apply andb_true_iff in H. tauto.
Qed.

Lemma plain_no_close w :
  forallb plain w = true -> forallb (fun c => negb (Ascii.eqb "]" c)) w = true.
Proof.
  intros H. apply forallb_forall. intros c Hin.
  rewrite forallb_forall in H. specialize (H c Hin).
  unfold plain, is_char in H. apply andb_true_iff in H. tauto.
Qed.

(** No pattern matches at a position inside a placeholder, whatever comes
    before and behind the placeholder. *)
Lemma no_match_in_placeholder body pii_type n :
  pii_body body -> In pii_type type_names ->
  forall a b prev rest,
    placeholder pii_type n = a ++ b -> b <> [] ->
    bmatch (framed body) (last_or prev a) (b ++ rest) = None.
Proof.
  intros Hbody Hty a b prev rest Hsplit Hb.
  destruct (bmatch (framed body) (last_or prev a) (b ++ rest)) as [k |] eqn:Hm;
    [exfalso | reflexivity].
  apply (match_inv body) in Hm
    as (w & tl & Heq & _ & Hne & Hplain & Hstart & _ & Hcore); [| exact Hbody].
  rewrite placeholder_shape in Hsplit.
  destruct (inside_shape pii_type n Hty) as (c0 & B & HB & Hup & Hinner).
  rewrite HB in Hsplit.
  destruct w as [| c w]; [congruence |].
  destruct a as [| x a].
  - (* at the opening bracket *)
    simpl in Hsplit. subst b. simpl in Heq. inversion Heq; subst c.
    simpl in Hplain. discriminate.
  - simpl in Hsplit. inversion Hsplit as [[Hx Hrest]]. subst x.
    symmetry in Hrest.
    change (c0 :: B ++ ["]"%char]) with ((c0 :: B) ++ ["]"%char]) in Hrest.
    apply split_last in Hrest as (b0 & -> & HBa); [| exact Hb].
    rewrite <- app_assoc in Heq. simpl in Heq. symmetry in Heq.
    change (c :: w ++ tl) with ((c :: w) ++ tl) in Heq.
    apply prefix_before in Heq as (b1 & -> & _);
      [| apply plain_no_close; exact Hplain].
    rewrite HBa in Hinner. apply forallb_app_inv in Hinner as [Ha Hcw].
    simpl in Hcw. apply andb_true_iff in Hcw as [Hc Hcw].
    apply forallb_app_inv in Hcw as [Hw _].
    destruct a as [| y a].
    + (* right behind the opening bracket *)
      simpl in HBa. inversion HBa; subst c0.
      destruct Hbody as (_ & _ & _ & Hfree).
      exact (Hfree c w Hcore Hup Hw).
    + (* further inside: a word character on both sides *)
      destruct (exists_last (l := y :: a)) as (a' & z & Hz); [discriminate |].
      rewrite Hz in Ha. apply forallb_app_inv in Ha as [_ Hzin].
      simpl in Hzin. apply andb_true_iff in Hzin as [Hzin _].
      change ("["%char :: y :: a) with (["["%char] ++ (y :: a)) in Hstart.
      rewrite Hz, app_assoc, last_or_snoc in Hstart. simpl in Hstart.
      rewrite is_boundary_words in Hstart;
        [discriminate | apply inner_word; exact Hzin
        | apply inner_word; exact Hc].
Qed.

End PlaceholderFacts.

Section ScanFacts.
Import Privacy PrivacySpec.

Local Open Scope nat_scope.

Variable pattern : regex.
Variable pii_type : text.

(** *** The scan, one match at a time *)

Lemma sub_scan_skip :
  forall s k prev m,
    sub_scan pattern pii_type prev k s m
    = sub_scan pattern pii_type (last_or prev (firstn k s)) 0 (skipn k s) m.
Proof.
  induction s as [| c s IH]; intros k prev m.
  - destruct k; reflexivity.
  - destruct k as [| k]; [reflexivity |].
    simpl sub_scan at 1. rewrite IH. reflexivity.
Qed.

Lemma sub_scan_keep c s prev m :
  bmatch pattern prev (c :: s) = None ->
  sub_scan pattern pii_type prev 0 (c :: s) m
  = (c :: fst (sub_scan pattern pii_type (Some c) 0 s m),
     snd (sub_scan pattern pii_type (Some c) 0 s m)).
Proof.
  intros Hm. simpl. rewrite Hm.
  destruct (sub_scan pattern pii_type (Some c) 0 s m); reflexivity.
Qed.

Lemma firstn_exact (w tl : text) : firstn (length w) (w ++ tl) = w.
Proof.
  rewrite firstn_app, Nat.sub_diag, firstn_all, firstn_O, app_nil_r.
  reflexivity.
Qed.

Lemma skipn_exact (w tl : text) : skipn (length w) (w ++ tl) = tl.
Proof. rewrite skipn_app, Nat.sub_diag, skipn_all. reflexivity. Qed.

Lemma sub_scan_subst w tl prev m :
  w <> [] ->
  bmatch pattern prev (w ++ tl) = Some (length w) ->
  let ph := placeholder pii_type (length m) in
  let m1 := dict_set ph w m in
  sub_scan pattern pii_type prev 0 (w ++ tl) m
  = (ph ++ fst (sub_scan pattern pii_type (last_or prev w) 0 tl m1),
     snd (sub_scan pattern pii_type (last_or prev w) 0 tl m1)).
Proof.
  intros Hne Hm ph m1. destruct w as [| c w]; [congruence |].
  change ((c :: w) ++ tl) with (c :: (w ++ tl)) in *.
  cbn [sub_scan]. rewrite Hm. cbn [length].
  change (firstn (S (length w)) (c :: w ++ tl))
    with (c :: firstn (length w) (w ++ tl)).
  rewrite firstn_exact. fold ph. fold m1.
  rewrite (sub_scan_skip (w ++ tl) (length w)).
  rewrite firstn_exact, skipn_exact, last_or_cons.
  destruct (sub_scan pattern pii_type (last_or (Some c) w) 0 tl m1);
    reflexivity.
Qed.

End ScanFacts.

Section PassFacts.
Import Privacy PrivacySpec.

Local Open Scope nat_scope.

Variable body : regex.
Hypothesis body_pii : pii_body body.
Variable pii_type : text.
Hypothesis type_known : In pii_type type_names.

(** *** The cut of one pass *)

Lemma src_keep c segs : src (Keep c :: segs) = c :: src segs.
Proof. reflexivity. Qed.
Lemma src_subst w ph segs : src (Subst w ph :: segs) = w ++ src segs.
Proof. reflexivity. Qed.
Lemma dst_keep c segs : dst (Keep c :: segs) = c :: dst segs.
Proof. reflexivity. Qed.
Lemma dst_subst w ph segs : dst (Subst w ph :: segs) = ph ++ dst segs.
Proof. reflexivity. Qed.

Lemma sub_scan_scanned :
  forall n s, length s <= n ->
  forall prev m,
    exists segs,
      src segs = s
      /\ fst (sub_scan (framed body) pii_type prev 0 s m) = dst segs
      /\ scanned (framed body) pii_type prev m segs
           (snd (sub_scan (framed body) pii_type prev 0 s m)).
Proof.
  induction n as [| n IH]; intros s Hlen prev m.
  - destruct s; [| simpl in Hlen; lia].
    exists []. repeat split. constructor.
  - destruct s as [| c s].
    { exists []. repeat split. constructor. }
    destruct (bmatch (framed body) prev (c :: s)) as [k |] eqn:Hm.
    + pose proof Hm as Hinv.
      apply (match_inv body) in Hinv as (w & tl & Heq & Hk & Hne & _);
        [| exact body_pii].
      subst k. rewrite Heq in Hm |- *.
      rewrite (sub_scan_subst (framed body) pii_type w tl prev m Hne Hm).
      cbv zeta. cbn [fst snd].
      destruct (IH tl) with
        (prev := last_or prev w)
        (m := dict_set (placeholder pii_type (length m)) w m)
        as (segs & Hsrc & Hdst & Hsc).
      { apply (f_equal (@length ascii)) in Heq.
        rewrite length_app in Heq. simpl in Heq, Hlen.
        destruct w; [congruence |]. simpl in Heq. lia. }
      exists (Subst w (placeholder pii_type (length m)) :: segs).
      split; [rewrite src_subst, Hsrc; reflexivity |].
      split; [rewrite dst_subst, Hdst; reflexivity |].
      constructor; [exact Hne | rewrite Hsrc; exact Hm | exact Hsc].
    + rewrite (sub_scan_keep (framed body) pii_type c s prev m Hm).
      cbn [fst snd].
      destruct (IH s) with (prev := Some c) (m := m)
        as (segs & Hsrc & Hdst & Hsc); [simpl in Hlen; lia |].
      exists (Keep c :: segs).
      split; [rewrite src_keep, Hsrc; reflexivity |].
      split; [rewrite dst_keep, Hdst; reflexivity |].
      constructor; [rewrite Hsrc; exact Hm | exact Hsc].
Qed.

Lemma app_same_length {A} (w w' tl tl' : list A) :
  w ++ tl = w' ++ tl' -> length w = length w' -> w = w' /\ tl = tl'.
Proof.
  revert w'. induction w as [| c w IH]; intros [| c' w'] H Hl;
    simpl in *; try discriminate.
  - auto.
  - inversion H; subst. destruct (IH w') as [-> ->]; auto.
Qed.

Lemma scanned_shaped prev m segs m' :
  scanned (framed body) pii_type prev m segs m' -> shaped prev segs.
Proof.
  induction 1 as [| prev m c segs m' Hm Hsc IH
                  | prev m w segs m' Hne Hm Hsc IH]; simpl; auto.
  apply (match_inv body) in Hm
    as (w' & tl & Heq & Hlen & _ & _ & Hstart & Hend & _); [| exact body_pii].
  symmetry in Hlen.
  destruct (app_same_length _ _ _ _ Heq Hlen) as [<- <-].
  repeat split; auto. exists pii_type, (length m). auto.
Qed.

Lemma scanned_unmatched prev m segs m' :
  scanned (framed body) pii_type prev m segs m' -> unmatched body prev segs.
Proof. induction 1; simpl; auto. Qed.

End PassFacts.

Section CleanFacts.
Import Privacy PrivacySpec.

Local Open Scope nat_scope.

(** The body whose matches are looked for in the output. *)
Variable q : regex.
Hypothesis q_pii : pii_body q.

Lemma no_match_at_end prev : bmatch (framed q) prev [] = None.
Proof.
  destruct (bmatch (framed q) prev []) as [k |] eqn:Hm; [| reflexivity].
  apply (match_inv q) in Hm as (w & tl & Heq & _ & Hne & _); [| exact q_pii].
  destruct w; [congruence | discriminate].
Qed.

Lemma open_not_plain w tl ph_rest :
  "["%char :: ph_rest = w ++ tl -> forallb plain w = true -> w = [].
Proof.
  destruct w as [| c w]; [reflexivity |].
  simpl. intros H Hp. inversion H; subst c. discriminate.
Qed.

(** A word without brackets that starts the text after the pass starts the
    text before it as well, and a boundary behind it after the pass is a
    boundary behind it before the pass. *)
Lemma prefix_transfer :
  forall segs prev, shaped prev segs ->
  forall w tl,
    dst segs = w ++ tl -> forallb plain w = true ->
    exists tl_x,
      src segs = w ++ tl_x
      /\ (is_boundary (last_or prev w) (head tl) = true ->
          is_boundary (last_or prev w) (head tl_x) = true).
Proof.
  induction segs as [| [c | w2 ph] segs IH]; intros prev Hsh w tl Hdst Hplain.
  - destruct w; [| discriminate]. simpl in Hdst. subst tl.
    exists []. auto.
  - rewrite dst_keep in Hdst. destruct w as [| c' w].
    + simpl in Hdst. subst tl. exists (src (Keep c :: segs)). auto.
    + simpl in Hdst. inversion Hdst; subst c'.
      simpl in Hplain. apply andb_true_iff in Hplain as [_ Hplain].
      destruct (IH (Some c) Hsh w tl H1 Hplain) as (tl_x & Hsrc & Hb).
      exists tl_x. rewrite src_keep, Hsrc. auto.
  - rewrite dst_subst in Hdst.
    destruct Hsh as (Hne & Hstart & _ & (ty & n & Hty & ->) & _).
    rewrite placeholder_shape in Hdst. simpl in Hdst.
    apply open_not_plain in Hdst as Hw; [| exact Hplain]. subst w.
    exists (src (Subst w2 (placeholder ty n) :: segs)).
    split; [reflexivity |]. intros _. rewrite src_subst. simpl.
    destruct w2; [congruence | exact Hstart].
Qed.

Lemma last_or_placeholder prev ty n : last_or prev (placeholder ty n) = Some "]"%char.
Proof.
  rewrite placeholder_shape.
  change ("["%char :: inside ty n ++ ["]"%char])
    with (("["%char :: inside ty n) ++ ["]"%char]).
  apply last_or_snoc.
Qed.

(** The text after a pass is clean of [q] when [q] matched at none of the
    kept characters before the pass. *)
Lemma dst_clean :
  forall segs prev_x prev_y,
    shaped prev_x segs -> unmatched q prev_x segs ->
    (is_boundary prev_y (head (src segs)) = true ->
     is_boundary prev_x (head (src segs)) = true) ->
    clean (framed q) prev_y (dst segs).
Proof.
  induction segs as [| [c | w2 ph] segs IH];
    intros prev_x prev_y Hsh Hun Hcompat a b Hsplit.
  - destruct a; [| discriminate]. destruct b; [| discriminate].
    apply no_match_at_end.
  - rewrite dst_keep in Hsplit. destruct a as [| c' a].
    + (* at the kept character itself *)
      simpl in Hsplit. subst b. simpl last_or.
      destruct (bmatch (framed q) prev_y (c :: dst segs)) as [k |] eqn:Hm;
        [exfalso | reflexivity].
      apply (match_inv q) in Hm
        as (w & tl & Heq & _ & Hne & Hplain & Hstart & Hend & Hcore);
        [| exact q_pii].
      rewrite <- dst_keep in Heq.
      destruct (prefix_transfer (Keep c :: segs) prev_x Hsh w tl Heq Hplain)
        as (tl_x & Hsrc & Hb).
      destruct Hun as [Hnone _]. rewrite <- src_keep, Hsrc in Hnone.
      apply (match_intro q prev_x w tl_x q_pii Hne Hcore); [| | exact Hnone].
      * rewrite Hsrc in Hcompat. destruct w as [| c0 w]; [congruence |].
        apply Hcompat. exact Hstart.
      * rewrite (last_or_nonempty None prev_x w Hne).
        apply Hb. rewrite (last_or_nonempty prev_x None w Hne). exact Hend.
    + simpl in Hsplit. inversion Hsplit; subst c'.
      rewrite last_or_cons. destruct Hun as [_ Hun].
      apply (IH (Some c) (Some c)); auto.
  - rewrite dst_subst in Hsplit.
    destruct Hsh as (Hne & Hstart & Hend & (ty & n & Hty & ->) & Hsh).
    assert (clean (framed q) (Some "]"%char) (dst segs)) as Hclean.
    { apply (IH (last_or prev_x w2) (Some "]"%char)); auto.
      intros _. rewrite (last_or_nonempty prev_x None w2 Hne). exact Hend. }
    apply app_eq_app in Hsplit as [l [[Hph Hb] | [Ha Hd]]].
    + (* inside the placeholder, or right behind it *)
      destruct l as [| x l].
      * rewrite app_nil_r in Hph. subst a. simpl in Hb. subst b.
        rewrite last_or_placeholder. apply (Hclean [] (dst segs)).
        reflexivity.
      * subst b.
        apply (no_match_in_placeholder q ty n q_pii Hty a (x :: l) prev_y
                 (dst segs) Hph).
        discriminate.
    + subst a. rewrite last_or_app, last_or_placeholder.
      apply (Hclean l b). exact Hd.
Qed.

Lemma clean_unmatched :
  forall segs prev, clean (framed q) prev (src segs) -> unmatched q prev segs.
Proof.
  induction segs as [| [c | w ph] segs IH]; intros prev Hclean; simpl; auto.
  - split.
    + apply (Hclean [] (c :: src segs)). reflexivity.
    + apply IH. intros a b Hsplit.
      rewrite <- (last_or_cons prev c a). apply Hclean.
      rewrite src_keep, Hsplit. reflexivity.
  - apply IH. intros a b Hsplit.
    rewrite <- (last_or_app prev w a). apply Hclean.
    rewrite src_subst, Hsplit. apply app_assoc.
Qed.

Lemma search_from_clean :
  forall y prev, clean (framed q) prev y -> search_from (framed q) prev y = false.
Proof.
  induction y as [| c y IH]; intros prev Hclean; cbn [search_from].
  - pose proof (Hclean [] [] eq_refl) as H0.
    change (last_or prev []) with prev in H0. rewrite H0. reflexivity.
  - pose proof (Hclean [] (c :: y) eq_refl) as H0.
    change (last_or prev []) with prev in H0. rewrite H0.
    apply IH. intros a b Hsplit. rewrite <- (last_or_cons prev c a).
    apply Hclean. rewrite Hsplit. reflexivity.
Qed.

(** One pass of [re.sub] leaves no match of [q] when [q] is the pattern of
    the pass, or when there was none before the pass. *)
Lemma pass_clean body pii_type x m :
  pii_body body -> In pii_type type_names ->
  body = q \/ clean (framed q) None x ->
  clean (framed q) None (fst (re_sub (framed body) pii_type x m)).
Proof.
  intros Hbody Hty Hq. unfold re_sub.
  destruct (sub_scan_scanned body Hbody pii_type (length x) x (le_n _) None m)
    as (segs & Hsrc & -> & Hsc).
  apply (dst_clean segs None None).
  - eapply scanned_shaped; eauto.
  - destruct Hq as [-> | Hclean].
    + eapply scanned_unmatched; eauto.
    + apply clean_unmatched. rewrite Hsrc. exact Hclean.
  - auto.
Qed.

End CleanFacts.

Section AnonymizeFacts.
Import Privacy PrivacySpec.

Local Open Scope nat_scope.

(** [anonymize_text] is the three passes in a row. *)
Lemma anonymize_text_passes t :
  let r1 := re_sub (framed email_body) email_type t [] in
  let r2 := re_sub (framed phone_body) phone_type (fst r1) (snd r1) in
  anonymize_text t = re_sub (framed name_body) name_type (fst r2) (snd r2).
Proof.
  unfold anonymize_text, patterns. cbn [fold_left].
  change email_pattern with (framed email_body).
  change phone_pattern with (framed phone_body).
  change name_pattern with (framed name_body).
  fold email_type. fold phone_type. fold name_type.
  destruct (re_sub (framed email_body) email_type t []) as [x1 m1].
  cbn [fst snd].
  destruct (re_sub (framed phone_body) phone_type x1 m1) as [x2 m2].
  reflexivity.
Qed.

Lemma email_known : In email_type type_names.
Proof. left; reflexivity. Qed.
Lemma phone_known : In phone_type type_names.
Proof. right; left; reflexivity. Qed.
Lemma name_known : In name_type type_names.
Proof. right; right; left; reflexivity. Qed.

(** C4.  For every text, [re.search] finds none of the configured patterns
    (email, phone, name) in the redacted text that [anonymize_text]
    returns: no pattern matches at any position of it. *)
Theorem redacted_text_matches_no_pattern :
  forall (t : text) (pii_type : text) (pattern : regex),
    In (pii_type, pattern) patterns ->
    search pattern (fst (anonymize_text t)) = false.
Proof.
  intros t pii_type pattern Hin.
  rewrite anonymize_text_passes. cbv zeta.
  set (r1 := re_sub (framed email_body) email_type t []).
  set (r2 := re_sub (framed phone_body) phone_type (fst r1) (snd r1)).
  unfold search.
  destruct Hin as [H | [H | [H | []]]]; inversion H; subst pii_type pattern.
  - change email_pattern with (framed email_body).
    apply (search_from_clean email_body).
    apply pass_clean;
      [apply email_body_pii | apply name_body_pii | apply name_known |].
    right. apply pass_clean;
      [apply email_body_pii | apply phone_body_pii | apply phone_known |].
    right. apply pass_clean;
      [apply email_body_pii | apply email_body_pii | apply email_known |].
    left. reflexivity.
  - change phone_pattern with (framed phone_body).
    apply (search_from_clean phone_body).
    apply pass_clean;
      [apply phone_body_pii | apply name_body_pii | apply name_known |].
    right. apply pass_clean;
      [apply phone_body_pii | apply phone_body_pii | apply phone_known |].
    left. reflexivity.
  - change name_pattern with (framed name_body).
    apply (search_from_clean name_body).
    apply pass_clean;
      [apply name_body_pii | apply name_body_pii | apply name_known |].
    left. reflexivity.
Qed.

End AnonymizeFacts.

Section RoundTripFacts.
Import Privacy PrivacySpec.

Local Open Scope nat_scope.

(** *** Placeholders are told apart by their numbers *)

Lemma starts_with_digits rest :
  forall u v,
    forallb is_digit u = true -> forallb is_digit v = true ->
    starts_with (u ++ ["]"%char]) (v ++ "]"%char :: rest) = true -> u = v.
Proof.
  induction u as [| d u IH]; intros [| d' v] Hu Hv;
    cbn [app starts_with forallb] in *.
  - reflexivity.
  - apply andb_true_iff in Hv as [Hd _]. intros H.
    apply andb_true_iff in H as [H _]. apply Ascii.eqb_eq in H. subst d'.
    discriminate.
  - apply andb_true_iff in Hu as [Hd _]. intros H.
    apply andb_true_iff in H as [H _]. apply Ascii.eqb_eq in H. subst d.
    discriminate.
  - apply andb_true_iff in Hu as [_ Hu].
    apply andb_true_iff in Hv as [_ Hv]. intros H.
    apply andb_true_iff in H as [Hd H]. apply Ascii.eqb_eq in Hd. subst d'.
    f_equal. apply IH; assumption.
Qed.

Lemma placeholder_starts ty ty' i j rest :
  In ty type_names -> In ty' type_names ->
  starts_with (placeholder ty i) (placeholder ty' j ++ rest) = true ->
  i = j /\ placeholder ty i = placeholder ty' j.
Proof.
  intros Hty Hty' H.
  assert (decimal i = decimal j -> i = j /\ decimal i = decimal j) as Hdec
    by (intros E; split; [apply decimal_inj; exact E | exact E]).
  assert (upper (list_ascii_of_string "email") = list_ascii_of_string "EMAIL")
    as Hup1 by reflexivity.
  assert (upper (list_ascii_of_string "phone") = list_ascii_of_string "PHONE")
    as Hup2 by reflexivity.
  assert (upper (list_ascii_of_string "name") = list_ascii_of_string "NAME")
    as Hup3 by reflexivity.
  unfold placeholder in *.
  destruct Hty as [<- | [<- | [<- | []]]];
    destruct Hty' as [<- | [<- | [<- | []]]];
    cbn [fst] in *; rewrite ?Hup1, ?Hup2, ?Hup3 in *;
    cbn in H; try discriminate;
    (rewrite <- app_assoc in H; cbn [app] in H;
     apply starts_with_digits in H;
     [destruct (Hdec H) as [-> _]; auto
     | apply decimal_digits | apply decimal_digits]).
Qed.

Lemma placeholder_inj ty ty' i j :
  In ty type_names -> In ty' type_names ->
  placeholder ty i = placeholder ty' j -> i = j.
Proof.
  intros Hty Hty' H.
  destruct (placeholder_starts ty ty' i j [] Hty Hty') as [Hij _]; [| exact Hij].
  rewrite app_nil_r, H. clear.
  induction (placeholder ty' j) as [| c l IH]; cbn [starts_with];
    [reflexivity | rewrite Ascii.eqb_refl; exact IH].
Qed.

Lemma plain_forall_no_open w : forallb plain w = true -> no_open w.
Proof. apply plain_no_open. Qed.

Lemma placeholder_tail ty n :
  In ty type_names ->
  exists rest, placeholder ty n = "["%char :: rest /\ no_open rest.
Proof.
  intros Hty. rewrite placeholder_shape.
  destruct (inside_shape ty n Hty) as (c & B & -> & _ & Hinner).
  eexists. split; [reflexivity |].
  unfold no_open. rewrite forallb_app. apply andb_true_iff. split.
  - apply plain_no_open. apply forallb_forall. intros x Hx.
    apply inner_plain. rewrite forallb_forall in Hinner. auto.
  - reflexivity.
Qed.

(** *** The mapping grows at its end *)

Lemma text_eqb_refl a : text_eqb a a = true.
Proof.
  induction a as [| c a IH]; cbn [text_eqb];
    [reflexivity | rewrite Ascii.eqb_refl; exact IH].
Qed.

Lemma dict_set_fresh key value :
  forall m, (forall k v, In (k, v) m -> k <> key) ->
  dict_set key value m = m ++ [(key, value)].
Proof.
  induction m as [| [k v] m IH]; intros Hfresh; cbn [dict_set app].
  - reflexivity.
  - destruct (text_eqb k key) eqn:E.
    + apply text_eqb_eq in E. exfalso. apply (Hfresh k v); [left; auto | exact E].
    + rewrite IH; [reflexivity |]. intros k' v' Hin. apply (Hfresh k' v').
      right. exact Hin.
Qed.

Lemma keys_fresh m ty :
  keys_ok m -> In ty type_names ->
  forall k v, In (k, v) m -> k <> placeholder ty (length m).
Proof.
  intros Hkeys Hty k v Hin Heq.
  apply In_nth_error in Hin as [i Hi].
  assert (i < length m) as Hlt by (apply nth_error_Some; congruence).
  destruct (Hkeys i k v Hi) as (_ & ty' & Hty' & ->).
  apply placeholder_inj in Heq; auto. lia.
Qed.

Lemma keys_ok_grow m ty w :
  keys_ok m -> In ty type_names -> no_open w ->
  keys_ok (m ++ [(placeholder ty (length m), w)]).
Proof.
  intros Hkeys Hty Hw i k v Hi.
  destruct (Nat.lt_ge_cases i (length m)) as [Hlt | Hge].
  - rewrite nth_error_app1 in Hi by exact Hlt. eauto.
  - rewrite nth_error_app2 in Hi by exact Hge.
    destruct (i - length m) as [| d] eqn:Hd; cbn in Hi.
    + inversion Hi; subst k v. split; [exact Hw |].
      exists ty. split; [exact Hty |].
      replace i with (length m) by lia. reflexivity.
    + destruct d; discriminate.
Qed.

Lemma item_ok_grow m ext it : item_ok m it -> item_ok (m ++ ext) it.
Proof.
  destruct it as [c | n ty o]; cbn [item_ok]; [auto |].
  intros [Hty Hn]. split; [exact Hty |].
  rewrite nth_error_app1; [exact Hn |].
  apply nth_error_Some. congruence.
Qed.

(** *** One pass, on characters and holes *)

Lemma render_cons i it items : render i (it :: items) = render1 i it ++ render i items.
Proof. reflexivity. Qed.

Lemma render_app i its1 its2 : render i (its1 ++ its2) = render i its1 ++ render i its2.
Proof. unfold render. apply flat_map_app. Qed.

Lemma expand_app its1 its2 : expand (its1 ++ its2) = expand its1 ++ expand its2.
Proof. unfold expand. apply flat_map_app. Qed.

(** A word without an opening bracket that starts the text is made of
    characters, not of holes. *)
Lemma lits_prefix :
  forall w items tl,
    render 0 items = w ++ tl -> no_open w ->
    exists its1 its2,
      items = its1 ++ its2 /\ expand its1 = w /\ render 0 its2 = tl
      /\ length its1 = length w.
Proof.
  induction w as [| c w IH]; intros items tl Hr Hw.
  - exists [], items. auto.
  - unfold no_open in Hw. cbn [forallb] in Hw.
    apply andb_true_iff in Hw as [Hc Hw].
    destruct items as [| [c0 | n ty o] items]; [discriminate | |].
    + rewrite render_cons in Hr. cbn [render1 app] in Hr.
      inversion Hr; subst c0.
      destruct (IH items tl H1 Hw) as (its1 & its2 & -> & He & Ht & Hl).
      exists (Lit c :: its1), its2. repeat split; auto.
      * unfold expand in *. cbn [flat_map expand1 app]. rewrite He. reflexivity.
      * cbn [length]. rewrite Hl. reflexivity.
    + rewrite render_cons in Hr. cbn [render1] in Hr.
      change (n <? 0) with false in Hr. unfold placeholder in Hr.
      cbn [app] in Hr. inversion Hr; subst c.
      rewrite Ascii.eqb_refl in Hc. discriminate.
Qed.

Section OnePass.

Variable body : regex.
Hypothesis body_pii : pii_body body.
Variable pii_type : text.
Hypothesis type_known : In pii_type type_names.

(** The scan copies a placeholder that is in its way. *)
Lemma scan_copies_rest ty0 n s m prev :
  In ty0 type_names ->
  forall b a,
    placeholder ty0 n = a ++ b ->
    sub_scan (framed body) pii_type (last_or prev a) 0 (b ++ s) m
    = (b ++ fst (sub_scan (framed body) pii_type (last_or prev (a ++ b)) 0 s m),
       snd (sub_scan (framed body) pii_type (last_or prev (a ++ b)) 0 s m)).
Proof.
  intros Hty0. induction b as [| x b IH]; intros a Hsplit.
  - rewrite app_nil_r. cbn [app].
    destruct (sub_scan (framed body) pii_type (last_or prev a) 0 s m);
      reflexivity.
  - cbn [app]. rewrite sub_scan_keep.
    + change (Some x) with (last_or (last_or prev a) [x]).
      rewrite <- last_or_app.
      rewrite (IH (a ++ [x])) by (rewrite <- app_assoc; exact Hsplit).
      rewrite <- app_assoc. reflexivity.
    + change (x :: b ++ s) with ((x :: b) ++ s).
      apply (no_match_in_placeholder body ty0 n body_pii Hty0 a (x :: b)
               prev s Hsplit).
      discriminate.
Qed.

Lemma scan_copies_placeholder ty0 n s m prev :
  In ty0 type_names ->
  sub_scan (framed body) pii_type prev 0 (placeholder ty0 n ++ s) m
  = (placeholder ty0 n
       ++ fst (sub_scan (framed body) pii_type (Some "]"%char) 0 s m),
     snd (sub_scan (framed body) pii_type (Some "]"%char) 0 s m)).
Proof.
  intros Hty0.
  pose proof (scan_copies_rest ty0 n s m prev Hty0 (placeholder ty0 n) []
                eq_refl) as H.
  cbn [app] in H. change (last_or prev []) with prev in H.
  rewrite last_or_placeholder in H. exact H.
Qed.

Lemma pass_items :
  forall n items, length items <= n ->
  forall prev m,
    keys_ok m -> Forall (item_ok m) items ->
    exists items' ext,
      fst (sub_scan (framed body) pii_type prev 0 (render 0 items) m)
        = render 0 items'
      /\ snd (sub_scan (framed body) pii_type prev 0 (render 0 items) m)
         = m ++ ext
      /\ keys_ok (m ++ ext)
      /\ Forall (item_ok (m ++ ext)) items'
      /\ expand items' = expand items.
Proof.
  induction n as [| n IH]; intros items Hlen prev m Hkeys Hitems.
  { destruct items; [| cbn in Hlen; lia].
    exists [], []. rewrite app_nil_r. repeat apply conj; auto. }
  destruct items as [| [c | k ty0 o] items].
  { exists [], []. rewrite app_nil_r. repeat apply conj; auto. }
  - (* a character *)
    inversion Hitems as [| ? ? Hc Hrest]; subst.
    rewrite render_cons. cbn [render1 app].
    destruct (bmatch (framed body) prev (c :: render 0 items)) as [j |] eqn:Hm.
    + (* a match starts here *)
      pose proof Hm as Hinv.
      apply (match_inv body) in Hinv
        as (w & tl & Heq & Hj & Hne & Hplain & _); [| exact body_pii].
      subst j. rewrite Heq in Hm |- *.
      rewrite (sub_scan_subst (framed body) pii_type w tl prev m Hne Hm).
      cbv zeta. cbn [fst snd].
      change (c :: render 0 items) with (render 0 (Lit c :: items)) in Heq.
      apply lits_prefix in Heq as (its1 & its2 & Hsplit & He & Ht & Hl);
        [| apply plain_no_open; exact Hplain].
      rewrite (dict_set_fresh _ _ m (keys_fresh m pii_type Hkeys type_known)).
      set (m1 := m ++ [(placeholder pii_type (length m), w)]).
      assert (keys_ok m1) as Hkeys1
        by (apply keys_ok_grow; auto; apply plain_no_open; exact Hplain).
      assert (Forall (item_ok m1) its2) as Hits2.
      { assert (Forall (item_ok m) (Lit c :: items)) as Hall
          by (constructor; assumption).
        rewrite Hsplit in Hall. apply Forall_app in Hall as [_ Hall].
        revert Hall. apply List.Forall_impl.
        intros it. apply item_ok_grow. }
      destruct (IH its2) with (prev := last_or prev w) (m := m1)
        as (items' & ext & Hfst & Hsnd & Hk' & Hi' & Hex); auto.
      { apply (f_equal (@length item)) in Hsplit.
        rewrite length_app in Hsplit. cbn [length] in Hsplit, Hlen.
        destruct w; [congruence |]. cbn [length] in Hl. lia. }
      subst m1. rewrite <- Ht.
      rewrite <- app_assoc in Hsnd, Hk', Hi'. cbn [app] in Hsnd, Hk', Hi'.
      exists (Hole (length m) pii_type w :: items'),
             ((placeholder pii_type (length m), w) :: ext).
      repeat apply conj.
      * rewrite render_cons. cbn [render1].
        change (length m <? 0) with false. f_equal. exact Hfst.
      * exact Hsnd.
      * exact Hk'.
      * constructor; [| exact Hi']. cbn [item_ok]. split; [exact type_known |].
        rewrite nth_error_app2 by lia. rewrite Nat.sub_diag. reflexivity.
      * rewrite Hsplit, expand_app, He.
        unfold expand in *. cbn [flat_map expand1]. rewrite Hex. reflexivity.
    + (* the character is kept *)
      rewrite (sub_scan_keep (framed body) pii_type c _ prev m Hm).
      cbn [fst snd].
      destruct (IH items) with (prev := Some c) (m := m)
        as (items' & ext & Hfst & Hsnd & Hk' & Hi' & Hex); auto.
      { cbn [length] in Hlen. lia. }
      rewrite Hfst, Hsnd.
      exists (Lit c :: items'), ext. repeat apply conj.
      * reflexivity.
      * reflexivity.
      * exact Hk'.
      * constructor; [exact Hc | exact Hi'].
      * unfold expand in *. cbn [flat_map expand1]. rewrite Hex. reflexivity.
  - (* a hole: its placeholder is copied *)
    inversion Hitems as [| ? ? Hh Hrest]; subst.
    destruct Hh as [Hty0 Hk].
    rewrite render_cons. cbn [render1]. change (k <? 0) with false.
    cbv iota.
    rewrite scan_copies_placeholder by exact Hty0. cbn [fst snd].
    destruct (IH items) with (prev := Some "]"%char) (m := m)
      as (items' & ext & Hfst & Hsnd & Hk' & Hi' & Hex); auto.
    { cbn [length] in Hlen. lia. }
    rewrite Hfst, Hsnd.
    exists (Hole k ty0 o :: items'), ext. repeat apply conj.
    + rewrite render_cons. cbn [render1]. change (k <? 0) with false.
      reflexivity.
    + reflexivity.
    + exact Hk'.
    + constructor; [| exact Hi']. apply item_ok_grow. split; assumption.
    + unfold expand in *. cbn [flat_map expand1]. rewrite Hex. reflexivity.
Qed.

End OnePass.

(** *** [str.replace] on characters and holes *)

Lemma replace_scan_skip old new :
  forall u s, replace_scan old new (length u) (u ++ s) = replace_scan old new 0 s.
Proof.
  induction u as [| c u IH]; intros s; [reflexivity |].
  cbn [length app replace_scan]. apply IH.
Qed.

Lemma starts_with_self old : forall s, starts_with old (old ++ s) = true.
Proof.
  induction old as [| c old IH]; intros s; cbn [starts_with app];
    [reflexivity | rewrite Ascii.eqb_refl; apply IH].
Qed.

Lemma replace_scan_hit old new s :
  old <> [] ->
  replace_scan old new 0 (old ++ s) = new ++ replace_scan old new 0 s.
Proof.
  destruct old as [| c old]; [congruence |]. intros _.
  change ((c :: old) ++ s) with (c :: (old ++ s)).
  cbn [replace_scan].
  change (c :: (old ++ s)) with ((c :: old) ++ s).
  rewrite starts_with_self.
  replace (length (c :: old) - 1) with (length old) by (cbn [length]; lia).
  rewrite replace_scan_skip. reflexivity.
Qed.

Lemma replace_scan_block old' new :
  forall blk s,
    no_open blk ->
    replace_scan ("["%char :: old') new 0 (blk ++ s)
    = blk ++ replace_scan ("["%char :: old') new 0 s.
Proof.
  induction blk as [| c blk IH]; intros s Hb; [reflexivity |].
  unfold no_open in Hb. cbn [forallb] in Hb.
  apply andb_true_iff in Hb as [Hc Hb]. apply negb_true_iff in Hc.
  cbn [app replace_scan starts_with]. rewrite Hc. cbn [andb].
  rewrite IH by exact Hb. reflexivity.
Qed.

Lemma replace_scan_miss old new c s :
  starts_with old (c :: s) = false ->
  replace_scan old new 0 (c :: s) = c :: replace_scan old new 0 s.
Proof. intros H. cbn [replace_scan]. rewrite H. reflexivity. Qed.

(** Replacing the [i]-th placeholder fills the [i]-th hole. *)
Lemma replace_fills m i k v :
  keys_ok m -> nth_error m i = Some (k, v) ->
  forall items,
    Forall (item_ok m) items ->
    replace k v (render i items) = render (S i) items.
Proof.
  intros Hkeys Hi.
  destruct (Hkeys i k v Hi) as (Hv & ty & Hty & ->).
  destruct (placeholder_tail ty i Hty) as (tail & Hph & Htail).
  assert (forall s, replace (placeholder ty i) v s
                    = replace_scan (placeholder ty i) v 0 s) as Hrep
    by (intros s; rewrite Hph; reflexivity).
  intros items Hitems. rewrite Hrep.
  induction Hitems as [| it items Hit Hitems IH]; [reflexivity |].
  rewrite !render_cons.
  destruct it as [c | n ty' o]; cbn [render1 item_ok] in *.
  - rewrite Hph in *.
    rewrite (replace_scan_block tail v [c]); [rewrite IH; reflexivity |].
    unfold no_open. cbn [forallb]. rewrite Hit. reflexivity.
  - destruct Hit as [Hty' Hn].
    destruct (Nat.ltb_spec n i) as [Hlt | Hge].
    + (* filled before: the original is copied *)
      replace (n <? S i) with true by (symmetry; apply Nat.ltb_lt; lia).
      destruct (Hkeys n _ _ Hn) as [Ho _].
      rewrite Hph in *. rewrite replace_scan_block by exact Ho.
      rewrite IH. reflexivity.
    + destruct (Nat.eq_dec n i) as [-> | Hne].
      * (* this hole *)
        replace (i <? S i) with true by (symmetry; apply Nat.ltb_lt; lia).
        rewrite Hi in Hn.
        assert (placeholder ty i = placeholder ty' i /\ v = o) as [Hk Ho]
          by (split; congruence).
        subst o.
        rewrite <- Hk. rewrite replace_scan_hit by (rewrite Hph; discriminate).
        rewrite IH. reflexivity.
      * (* a later hole: its placeholder is copied *)
        replace (n <? S i) with false by (symmetry; apply Nat.ltb_ge; lia).
        destruct (placeholder_tail ty' n Hty') as (tail' & Hph' & Htail').
        assert (starts_with (placeholder ty i)
                  (placeholder ty' n ++ render i items) = false) as Hmiss.
        { destruct (starts_with _ _) eqn:E; [| reflexivity].
          apply placeholder_starts in E as [E _]; auto. congruence. }
        rewrite Hph' in Hmiss |- *. cbn [app] in Hmiss |- *.
        rewrite replace_scan_miss by exact Hmiss.
        rewrite Hph in *. rewrite replace_scan_block by exact Htail'.
        rewrite IH. reflexivity.
Qed.

Lemma deanonymize_steps m items :
  keys_ok m -> Forall (item_ok m) items ->
  forall todo filled,
    m = filled ++ todo ->
    fold_left (fun s '(ph, original) => replace ph original s) todo
      (render (length filled) items)
    = render (length m) items.
Proof.
  intros Hkeys Hitems.
  induction todo as [| [k v] todo IH]; intros pre Hm.
  - rewrite app_nil_r in Hm. subst pre. reflexivity.
  - cbn [fold_left].
    rewrite (replace_fills m (length pre) k v Hkeys); [| | exact Hitems].
    + specialize (IH (pre ++ [(k, v)])).
      rewrite length_app in IH. cbn [length] in IH.
      rewrite Nat.add_1_r in IH. apply IH.
      rewrite <- app_assoc. exact Hm.
    + rewrite Hm, nth_error_app2 by lia. rewrite Nat.sub_diag. reflexivity.
Qed.

Lemma render_all m items :
  Forall (item_ok m) items -> render (length m) items = expand items.
Proof.
  induction 1 as [| it items Hit Hitems IH]; [reflexivity |].
  rewrite render_cons. unfold expand in *. cbn [flat_map]. rewrite IH.
  f_equal. destruct it as [c | n ty o]; cbn [render1 expand1 item_ok] in *;
    [reflexivity |].
  destruct Hit as [_ Hn].
  replace (n <? length m) with true; [reflexivity |].
  symmetry. apply Nat.ltb_lt. apply nth_error_Some. congruence.
Qed.

Lemma deanonymize_render m items :
  keys_ok m -> Forall (item_ok m) items ->
  deanonymize_text (render 0 items) m = expand items.
Proof.
  intros Hkeys Hitems. unfold deanonymize_text.
  rewrite <- (render_all m items Hitems).
  apply (deanonymize_steps m items Hkeys Hitems m []). reflexivity.
Qed.

End RoundTripFacts.

Section RoundTrip.
Import Privacy PrivacySpec.

Local Open Scope nat_scope.

Lemma literal_items t :
  no_open t ->
  render 0 (map Lit t) = t /\ expand (map Lit t) = t
  /\ Forall (item_ok []) (map Lit t).
Proof.
  induction t as [| c t IH]; intros Ht.
  - repeat apply conj; [reflexivity | reflexivity | constructor].
  - unfold no_open in Ht. cbn [forallb] in Ht.
    apply andb_true_iff in Ht as [Hc Ht]. apply negb_true_iff in Hc.
    destruct (IH Ht) as (Hr & He & Hok).
    repeat apply conj.
    + cbn [map]. rewrite render_cons. cbn [render1 app]. rewrite Hr. reflexivity.
    + unfold expand in *. cbn [map flat_map expand1 app]. rewrite He. reflexivity.
    + cbn [map]. constructor; [exact Hc | exact Hok].
Qed.

Lemma keys_ok_empty : keys_ok [].
Proof. intros [| i] k v H; discriminate. Qed.

(** One [re.sub] keeps the text a rendering of characters and holes that
    expands to the same text. *)
Lemma re_sub_items body pii_type x items m :
  pii_body body -> In pii_type type_names ->
  x = render 0 items ->
  keys_ok m -> Forall (item_ok m) items ->
  exists items',
    fst (re_sub (framed body) pii_type x m) = render 0 items'
    /\ keys_ok (snd (re_sub (framed body) pii_type x m))
    /\ Forall (item_ok (snd (re_sub (framed body) pii_type x m))) items'
    /\ expand items' = expand items.
Proof.
  intros Hbody Hty -> Hkeys Hitems. unfold re_sub.
  destruct (pass_items body Hbody pii_type Hty (length items) items (le_n _)
              None m Hkeys Hitems)
    as (items' & ext & Hfst & Hsnd & Hk & Hi & He).
  exists items'. rewrite Hsnd. auto.
Qed.

(** Where the round trip holds.  For every text that has no opening square
    bracket, [deanonymize_text] applied to the redacted text and the
    mapping that [anonymize_text] returns for it gives the text back: such
    a text cannot hold a placeholder of its own. *)
Theorem round_trip_without_brackets :
  forall t : text,
    no_open t ->
    deanonymize_text (fst (anonymize_text t)) (snd (anonymize_text t)) = t.
Proof.
  intros t Ht.
  destruct (literal_items t Ht) as (Hr0 & He0 & Hok0).
  rewrite anonymize_text_passes. cbv zeta.
  set (r1 := re_sub (framed email_body) email_type t []).
  set (r2 := re_sub (framed phone_body) phone_type (fst r1) (snd r1)).
  set (r3 := re_sub (framed name_body) name_type (fst r2) (snd r2)).
  destruct (re_sub_items email_body email_type t (map Lit t) []
              email_body_pii email_known (eq_sym Hr0) keys_ok_empty Hok0)
    as (items1 & Hf1 & Hk1 & Hi1 & He1).
  fold r1 in Hf1, Hk1, Hi1.
  destruct (re_sub_items phone_body phone_type (fst r1) items1 (snd r1)
              phone_body_pii phone_known Hf1 Hk1 Hi1)
    as (items2 & Hf2 & Hk2 & Hi2 & He2).
  fold r2 in Hf2, Hk2, Hi2.
  destruct (re_sub_items name_body name_type (fst r2) items2 (snd r2)
              name_body_pii name_known Hf2 Hk2 Hi2)
    as (items3 & Hf3 & Hk3 & Hi3 & He3).
  fold r3 in Hf3, Hk3, Hi3.
  rewrite Hf3.
  rewrite (deanonymize_render (snd r3) items3 Hk3 Hi3).
  congruence.
Qed.

End RoundTrip.

(** The theorem at work on a text with an address, a number and a name. *)
Lemma round_trip_without_brackets_witness :
  let t := list_ascii_of_string
             "mail john.doe@example.com or call 1234567890, John Smith" in
  Privacy.deanonymize_text (fst (Privacy.anonymize_text t))
    (snd (Privacy.anonymize_text t)) = t.
Proof.
  cbv zeta. apply round_trip_without_brackets. vm_compute. reflexivity.
Defined.

(** C2, at the input where the code fails it.  The text holds the
    placeholder that the first replacement will use: [anonymize_text]
    writes the same placeholder for the address, and [deanonymize_text],
    which is to restore the original text, fills both places with the
    address.  What comes back is not the text that went in. *)
Lemma round_trip_fails_on_placeholder_text :
  let t := list_ascii_of_string "[EMAIL_0] a@b.co" in
  Privacy.anonymize_text t
  = (list_ascii_of_string "[EMAIL_0] [EMAIL_0]",
     [(list_ascii_of_string "[EMAIL_0]", list_ascii_of_string "a@b.co")])
  /\ Privacy.deanonymize_text (fst (Privacy.anonymize_text t))
       (snd (Privacy.anonymize_text t))
     = list_ascii_of_string "a@b.co a@b.co"
  /\ Privacy.deanonymize_text (fst (Privacy.anonymize_text t))
       (snd (Privacy.anonymize_text t)) <> t.
Proof.
  cbv zeta. repeat apply conj.
  - vm_compute. reflexivity.
  - vm_compute. reflexivity.
  - vm_compute. discriminate.
Qed.

(** Brackets alone do no harm: a text with a bracket, or with a
    placeholder that the call does not issue, comes back as it was. *)
Example round_trip_with_other_brackets :
  Forall (fun t => Privacy.deanonymize_text (fst (Privacy.anonymize_text t))
                     (snd (Privacy.anonymize_text t)) = t)
    [list_ascii_of_string "[x] a@b.co";
     list_ascii_of_string "see [1], mail a@b.co";
     list_ascii_of_string "[EMAIL_1] a@b.co"].
Proof. repeat constructor; vm_compute; reflexivity. Qed.

(** C4 at work: nothing that looks like an address is left of a text with
    two addresses side by side. *)
Lemma redacted_text_matches_no_pattern_witness :
  Privacy.search Privacy.email_pattern
    (fst (Privacy.anonymize_text
            (list_ascii_of_string "write to a@b.co-x@y.zz or call")))
  = false.
Proof.
  apply (redacted_text_matches_no_pattern _ PrivacySpec.email_type).
  left. reflexivity.
Defined.

(** The boundaries count in C4: in "John Smith2" there is no boundary
    between the h and the 2, the name pattern matches nowhere, and the
    text is returned as it is. *)
Example name_before_digit_is_kept :
  let t := list_ascii_of_string "John Smith2" in
  Privacy.anonymize_text t = (t, [])
  /\ Privacy.search Privacy.name_pattern t = false.
Proof. cbv zeta. split; vm_compute; reflexivity. Qed.
(* ================================================================== *)
(** * More properties of the calendar *)

Section CalendarMoreFacts.
Import Store Calendar CalendarSpec Schema CalendarMore.

Lemma add_not_out t delta : Time.add t delta <> OutOfFuel.
Proof. unfold Time.add. destruct (Time.in_range _); discriminate. Qed.

Lemma add_raises t delta e : Time.add t delta = Raise e -> e = OverflowError.
Proof.
  unfold Time.add. destruct (Time.in_range _); [discriminate |].
  intros H; inversion H; reflexivity.
Qed.

(** The loop of [_suggest_alternatives] ends within its fuel: every round
    moves the probe by one hour, and the probe stops at the horizon. *)
Lemma suggest_loop_ends preferred duration limit d :
  forall fuel k suggestions,
    Z.max 0 (168 - k) < Z.of_nat fuel ->
    fst (suggest_loop fuel preferred duration limit
           (Time.shift preferred (Time.hours k)) suggestions d) <> OutOfFuel.
Proof.
  induction fuel as [| fuel IH]; intros k sg Hfuel; [lia |].
  simpl. destruct (Z.of_nat (length sg) <? limit); [| discriminate].
  unfold bind at 1, lift at 1.
  destruct (Time.add preferred (Time.days 7)) as [horizon | e |] eqn:Hh;
    [| discriminate | apply add_not_out in Hh; contradiction].
  apply add_inv in Hh as [-> _].
  rewrite before_horizon.
  destruct (Z.ltb_spec k 168) as [Hk | Hk]; [| discriminate].
  unfold bind at 1, lift at 1.
  destruct (Time.add (Time.shift preferred (Time.hours k)) (Time.minutes duration))
    as [end_check | e |] eqn:He;
    [| discriminate | apply add_not_out in He; contradiction].
  unfold bind at 1, select.
  destruct (missing_column probe_columns d); [discriminate |].
  unfold bind at 1, lift at 1.
  destruct (Time.add (Time.shift preferred (Time.hours k)) (Time.hours 1))
    as [check' | e |] eqn:Hc;
    [| discriminate | apply add_not_out in Hc; contradiction].
  apply add_inv in Hc as [-> _].
  rewrite hours_succ. apply IH. lia.
Qed.

Lemma suggest_alternatives_ends preferred duration limit d :
  fst (_suggest_alternatives preferred duration limit d) <> OutOfFuel.
Proof.
  unfold _suggest_alternatives, bind at 1, lift at 1.
  destruct (Time.add preferred (Time.hours 1)) as [check | e |] eqn:Hc;
    [| discriminate | apply add_not_out in Hc; contradiction].
  apply add_inv in Hc as [-> _].
  apply suggest_loop_ends. unfold suggest_fuel. lia.
Qed.

Lemma check_availability_ends dt duration d :
  fst (check_availability dt duration d) <> OutOfFuel.
Proof.
  rewrite check_availability_cases; cbv zeta.
  destruct (Time.in_range _); [| discriminate].
  destruct (missing_column conflict_columns d); [discriminate |].
  destruct (List.filter _ (appointments d)); [discriminate |].
  pose proof (suggest_alternatives_ends dt duration 3 d) as Hends.
  destruct (_suggest_alternatives dt duration 3 d) as [[sg | e |] d2];
    cbn [fst] in *; try discriminate.
  - destruct e; discriminate.
  - contradiction.
Qed.

Lemma book_appointment_ends r d :
  fst (book_appointment r d) <> OutOfFuel.
Proof.
  rewrite book_appointment_cases; cbv zeta.
  destruct (Time.in_range _); [| discriminate].
  destruct (missing_column conflict_columns d); [discriminate |].
  destruct (List.filter _ (appointments d)).
  - destruct (missing_column insert_columns d); discriminate.
  - pose proof (suggest_alternatives_ends (req_start r) (req_duration r) 3 d)
      as Hends.
    destruct (fst (_suggest_alternatives _ _ _ d)) as [sg | e |];
      try discriminate.
    + destruct e; discriminate.
    + contradiction.
Qed.

(** *** A database that [_init_db] made *)

Lemma init_new_file : _init_db new_file = init_db.
Proof. reflexivity. Qed.

Lemma init_db_lacks_created_by f :
  appointments_table f = None ->
  missing_column conflict_columns (_init_db f) = None
  /\ missing_column insert_columns (_init_db f) = Some "created_by"%string
  /\ appointments (_init_db f) = [].
Proof.
  intros Hf. unfold _init_db. rewrite Hf. cbn [default].
  repeat split; reflexivity.
Qed.

(** X1.  On a file that had no [appointments] table, [_init_db] creates the
    table without the [created_by] column that the INSERT of
    [book_appointment] names.  On the database it returns, every slot is
    reported free and no booking is ever made: a request whose end is a
    datetime gets [success = False] with the error of SQLite, any other
    one raises, and the database is as before. *)
Theorem booking_fails_on_fresh_database :
  forall (f : file) (r : request),
    appointments_table f = None ->
    let d := _init_db f in
    snd (book_appointment r d) = d
    /\ (forall b, fst (book_appointment r d) = Ok b -> success b = false)
    /\ (Time.in_range (req_start r + Time.minutes (req_duration r)) = true ->
        check_availability (req_start r) (req_duration r) d = (Ok free_result, d)
        /\ book_appointment r d
           = (Ok (failed "table appointments has no column named created_by"),
              d)).
Proof.
  intros f r Hf d.
  destruct (init_db_lacks_created_by f Hf) as (Hc & Hi & Hrows).
  fold d in Hc, Hi, Hrows.
  rewrite book_appointment_cases, check_availability_cases; cbv zeta.
  rewrite Hc, Hi, Hrows. cbn [List.filter].
  destruct (Time.in_range _).
  - repeat split; try reflexivity.
    intros b Hb; inversion Hb; reflexivity.
  - repeat split; try reflexivity; discriminate.
Qed.

(** The theorem at work: a first hour on a new file. *)
Lemma booking_fails_on_fresh_database_witness :
  book_appointment (slot "Standup" march_1st_15h 60) (_init_db new_file)
  = (Ok (failed "table appointments has no column named created_by"),
     _init_db new_file).
Proof.
  destruct (booking_fails_on_fresh_database new_file
              (slot "Standup" march_1st_15h 60) eq_refl) as (_ & _ & H).
  apply H. vm_compute. reflexivity.
Defined.

(** X2.  Opening a database again changes nothing: [_init_db] on the file of a
    database it returned gives that database back.  On the file of any
    database the table of the appointments, its rows and its counter are
    kept as they are, the windows are kept when there is one, and the five
    default windows (Monday to Friday, 09:00 to 17:00, 15 minutes) are
    written when there is none. *)
Theorem init_db_is_idempotent :
  forall (f : file) (d : db),
    _init_db (file_of (_init_db f)) = _init_db f
    /\ columns (_init_db (file_of d)) = columns d
    /\ appointments (_init_db (file_of d)) = appointments d
    /\ seq (_init_db (file_of d)) = seq d
    /\ (availability_windows d <> [] -> _init_db (file_of d) = d)
    /\ (availability_windows d = [] ->
        availability_windows (_init_db (file_of d)) = default_windows)
    /\ availability_windows (_init_db f) <> []
    /\ (windows_table f = None ->
        map day_of_week (availability_windows (_init_db f)) = [0; 1; 2; 3; 4]).
Proof.
  intros f d. repeat apply conj.
  - unfold _init_db, file_of.
    destruct (appointments_table f) as [[[cols rows] counter] |];
      destruct (windows_table f) as [[| w ws] |]; reflexivity.
  - reflexivity.
  - reflexivity.
  - reflexivity.
  - intros Hw. destruct d as [cols rows counter [| w ws]];
      [cbn in Hw; congruence | reflexivity].
  - intros Hw. unfold _init_db, file_of; cbn. rewrite Hw. reflexivity.
  - unfold _init_db.
    destruct (appointments_table f) as [[[cols rows] counter] |];
      destruct (windows_table f) as [[| w ws] |]; discriminate.
  - intros Hw. unfold _init_db. rewrite Hw.
    destruct (appointments_table f) as [[[cols rows] counter] |]; reflexivity.
Qed.

(** The theorem at work: the store with "Standup" is reopened as it is. *)
Lemma init_db_is_idempotent_witness : _init_db (file_of standup_db) = standup_db.
Proof.
  destruct (init_db_is_idempotent new_file standup_db) as (_ & _ & _ & _ & H & _).
  apply H. vm_compute. discriminate.
Defined.

(** *** A booked slot *)

Lemma row_conflicts_with_itself r i :
  conflict_where (req_start r)
    (Time.shift (req_start r) (Time.minutes (req_duration r))) (row_of r i)
  = true.
Proof.
  unfold conflict_where, conflict_intervals, not_cancelled, row_of; cbn.
  rewrite !iso_leb_refl, orb_true_r. reflexivity.
Qed.

Lemma missing_column_with_row cols d r :
  missing_column cols (with_row d r) = missing_column cols d.
Proof. reflexivity. Qed.

Lemma filter_app_one {A} (f : A -> bool) l x :
  List.filter f (l ++ [x]) = List.filter f l ++ (if f x then [x] else []).
Proof. rewrite List.filter_app. reflexivity. Qed.

(** X3.  Insert and look up.  After [book_appointment] reported success, the
    row it wrote is the one row that conflicts with the same slot,
    whatever the duration was: [check_availability] for that slot reports
    it with its id and title, and a second [book_appointment] for that
    slot is refused with it and leaves the database as it is (it never
    succeeds, and away from the ends of the calendar it returns). *)
Theorem booked_slot_is_taken :
  forall (r r2 : request) (d d' : db) (b : booking),
    book_appointment r d = (Ok b, d') -> success b = true ->
    req_start r2 = req_start r -> req_duration r2 = req_duration r ->
    let i := next_rowid d in
    let end_dt := Time.shift (req_start r) (Time.minutes (req_duration r)) in
    b = booked r i
    /\ d' = with_row d r
    /\ List.filter (conflict_where (req_start r) end_dt) (appointments d')
       = [row_of r i]
    /\ snd (book_appointment r2 d') = d'
    /\ (forall b2, fst (book_appointment r2 d') = Ok b2 ->
          b2 = refused [(i, req_title r)])
    /\ (0 <= end_dt -> 0 <= req_start r ->
        req_start r + Time.days 7 < Time.MAX_US ->
        req_start r + Time.days 7 + Time.minutes (req_duration r) < Time.MAX_US ->
        book_appointment r2 d' = (Ok (refused [(i, req_title r)]), d')
        /\ exists sg,
             check_availability (req_start r) (req_duration r) d'
             = (Ok {| available := false;
                      conflicts := Some [(i, req_title r)];
                      suggested_times := Some sg; error := None |}, d')).
Proof.
  intros r r2 d d' b Hrun Hok Hstart Hdur i end_dt. subst end_dt.
  assert (Hfst : fst (book_appointment r d) = Ok b) by (rewrite Hrun; reflexivity).
  destruct (booked_inv r d b Hfst Hok) as (Hr & Hc & Hf & Hi).
  assert (Hd : b = booked r i /\ d' = with_row d r).
  { rewrite book_appointment_cases in Hrun; cbv zeta in Hrun.
    rewrite Hr, Hc, Hf, Hi in Hrun. inversion Hrun; subst; auto. }
  destruct Hd as [-> ->].
  assert (Hfound :
    List.filter
      (conflict_where (req_start r)
          (Time.shift (req_start r) (Time.minutes (req_duration r))))
      (appointments (with_row d r))
    = [row_of r i]).
  { unfold with_row; cbn [appointments]. rewrite filter_app_one.
    rewrite Hf, row_conflicts_with_itself. reflexivity. }
  split; [reflexivity |]. split; [reflexivity |]. split; [exact Hfound |].
  rewrite book_appointment_cases, check_availability_cases; cbv zeta.
  rewrite Hstart, Hdur, Hr.
  rewrite (missing_column_with_row conflict_columns d r), Hc, Hfound.
  cbn [map appt_id title row_of].
  pose proof (read_only_suggest_alternatives (req_start r) (req_duration r) 3
                (with_row d r)) as Hro.
  repeat apply conj.
  - destruct (fst (_suggest_alternatives _ _ _ _)) as [sg | e |];
      try reflexivity.
    destruct e; reflexivity.
  - intros b2.
    destruct (fst (_suggest_alternatives _ _ _ _)) as [sg | e |].
    + intros H; inversion H; reflexivity.
    + destruct e; discriminate.
    + discriminate.
  - intros Hlow Hstart0 Hhigh Hhigh'.
    destruct (suggest_alternatives_total (req_start r) (req_duration r)
                (with_row d r) Hstart0 Hlow Hhigh Hhigh') as [sg Hsg].
    + apply probe_columns_present. exact Hc.
    + rewrite Hsg. split; [reflexivity | exists sg; reflexivity].
Qed.

(** The theorem at work: "Ping" takes no time at all at 15:00 on the empty
    store, and a second "Ping" is refused with the first. *)
Lemma booked_slot_is_taken_witness :
  book_appointment (slot "Ping" march_1st_15h 0) ping_db
  = (Ok (refused [(1, "Ping"%string)]), ping_db).
Proof.
  destruct (booked_slot_is_taken
              (slot "Ping" march_1st_15h 0) (slot "Ping" march_1st_15h 0)
              empty_db ping_db (booked (slot "Ping" march_1st_15h 0) 1))
    as (_ & _ & _ & _ & _ & H).
  - vm_compute. reflexivity.
  - reflexivity.
  - reflexivity.
  - reflexivity.
  - apply H; vm_compute; congruence.
Defined.

(** *** What a booking leaves alone *)

Lemma firstn_exact_list {A} (l tl : list A) : firstn (length l) (l ++ tl) = l.
Proof. induction l as [| a l IH]; cbn; [reflexivity | now rewrite IH]. Qed.

Lemma NoDup_app_one {A} (l : list A) x :
  List.NoDup l -> ~ In x l -> List.NoDup (l ++ [x]).
Proof.
  induction l as [| a l IH]; intros Hnd Hx; cbn.
  - constructor; [cbn; tauto | constructor].
  - apply NoDup_cons_iff in Hnd as [Ha Hnd].
    apply NoDup_cons_iff. split.
    + intros Hin. apply in_app_or in Hin as [Hin | [<- | []]];
        [contradiction | apply Hx; left; reflexivity].
    + apply IH; [exact Hnd | intros Hin; apply Hx; right; exact Hin].
Qed.

Lemma next_rowid_above d :
  Forall (fun a => appt_id a < next_rowid d) (appointments d)
  /\ seq d < next_rowid d.
Proof.
  unfold next_rowid. generalize (seq d) as s.
  induction (appointments d) as [| a rows IH]; intros s; cbn [map fold_right].
  - split; [constructor | lia].
  - destruct (IH s) as [Hall Hs]. split; [constructor |]; try lia.
    eapply List.Forall_impl; [| exact Hall]. cbn. intros x Hx. lia.
Qed.

(** X4.  [book_appointment] either leaves the database as it is or appends the
    one row of the request, which it does exactly when it reports success.
    It never changes or removes a row that was there, never touches the
    columns or the availability windows, and the id it gives is above
    every id of the table: ids that were distinct stay distinct. *)
Theorem book_appointment_appends_one_row :
  forall (r : request) (d : db),
    let d' := snd (book_appointment r d) in
    (book_appointment r d = (Ok (booked r (next_rowid d)), with_row d r)
     \/ (d' = d /\ forall b, fst (book_appointment r d) = Ok b ->
                             success b = false))
    /\ columns d' = columns d
    /\ availability_windows d' = availability_windows d
    /\ firstn (length (appointments d)) (appointments d') = appointments d
    /\ (length (appointments d') <= length (appointments d) + 1)%nat
    /\ Forall (fun a => appt_id a < next_rowid d) (appointments d)
    /\ (List.NoDup (map appt_id (appointments d)) ->
        List.NoDup (map appt_id (appointments d'))).
Proof.
  intros r d d'. subst d'.
  assert (Hcases :
    book_appointment r d = (Ok (booked r (next_rowid d)), with_row d r)
    \/ (snd (book_appointment r d) = d
        /\ forall b, fst (book_appointment r d) = Ok b -> success b = false)).
  { rewrite book_appointment_cases; cbv zeta.
    destruct (Time.in_range _); [| right; split; [reflexivity | discriminate]].
    destruct (missing_column conflict_columns d);
      [right; split; [reflexivity | discriminate] |].
    destruct (List.filter _ (appointments d)).
    - destruct (missing_column insert_columns d); [right | left; reflexivity].
      split; [reflexivity |]. intros b H; inversion H; reflexivity.
    - right. destruct (fst (_suggest_alternatives _ _ _ d)) as [sg | e |].
      + split; [reflexivity |]. intros b H; inversion H; reflexivity.
      + destruct e; (split; [reflexivity | discriminate]).
      + split; [reflexivity | discriminate]. }
  split; [exact Hcases |].
  pose proof (next_rowid_above d) as [Hall Hseq].
  destruct Hcases as [-> | [-> _]]; cbn [snd].
  - unfold with_row; cbn [columns availability_windows appointments].
    repeat apply conj; try reflexivity.
    + apply firstn_exact_list.
    + rewrite length_app. cbn. lia.
    + exact Hall.
    + intros Hnd. rewrite map_app. cbn [map row_of appt_id].
      apply NoDup_app_one; [exact Hnd |].
      intros Hin. apply in_map_iff in Hin as (a & Ha & Hin).
      rewrite List.Forall_forall in Hall. apply Hall in Hin. lia.
  - repeat apply conj; try reflexivity.
    + apply firstn_all.
    + lia.
    + exact Hall.
    + auto.
Qed.

(** *** One call after the other *)

Lemma non_overlapping_snoc rows x :
  non_overlapping rows -> List.Forall (fun a => apart a x) rows ->
  non_overlapping (rows ++ [x]).
Proof.
  induction rows as [| a rows IH]; intros Hrows Hx; cbn [app non_overlapping].
  - split; [constructor | exact I].
  - destruct Hrows as [Ha Hrows]. inversion Hx; subst. split.
    + apply List.Forall_app. split; [exact Ha |]. constructor; [assumption |].
      constructor.
    + apply IH; assumption.
Qed.

Lemma free_slot_is_apart (dt end_dt : Time.datetime) rows :
  Time.utcoffset end_dt = Time.utcoffset dt ->
  Forall (same_zone dt) rows ->
  List.filter (conflict_where dt end_dt) rows = [] ->
  forall x, start_datetime x = dt -> end_datetime x = end_dt ->
    List.Forall (fun a => apart a x) rows.
Proof.
  intros Hd Hzone Hfree x Hs He. apply List.Forall_forall.
  intros a Hin Ha _ Hover.
  pose proof (proj1 (List.Forall_forall _ _) Hzone a Hin) as [Hza Hzb].
  assert (Hc : conflict_where dt end_dt a = true).
  { unfold conflict_where. rewrite Ha. cbn [andb].
    rewrite conflict_intervals_zone by assumption.
    apply orb_true_iff; left.
    assert (Hw : start_datetime a < end_dt /\ dt < end_datetime a).
    { apply (half_open_overlap_zone dt end_dt); try assumption.
      unfold half_open_overlap. rewrite <- Hs, <- He. exact Hover. }
    apply andb_true_iff. split; apply Z.ltb_lt; tauto. }
  assert (Hin' : In a (List.filter (conflict_where dt end_dt) rows))
    by (apply filter_In; split; assumption).
  rewrite Hfree in Hin'. destruct Hin'.
Qed.

(** The rows of the table are on one [tzinfo]. *)
Lemma rows_zone zone rows requests :
  one_zone zone rows requests ->
  forall dt, Time.utcoffset dt = zone -> Forall (same_zone dt) rows.
Proof.
  intros [Hrows _] dt Hdt. eapply List.Forall_impl; [| exact Hrows].
  cbn. intros a [Hs He]. split; congruence.
Qed.

Lemma book_keeps_zone zone r d requests :
  Time.utcoffset (req_start r) = zone ->
  one_zone zone (appointments d) requests ->
  one_zone zone (appointments (snd (book_appointment r d))) requests.
Proof.
  intros Hr [Hrows Hreqs]. split; [| exact Hreqs].
  rewrite book_appointment_cases; cbv zeta.
  destruct (Time.in_range _); [| exact Hrows].
  destruct (missing_column conflict_columns d); [exact Hrows |].
  destruct (List.filter _ (appointments d)).
  - destruct (missing_column insert_columns d); [exact Hrows |].
    cbn [snd with_row appointments]. apply List.Forall_app. split;
      [exact Hrows |].
    constructor; [| constructor]. split; exact Hr.
  - destruct (fst (_suggest_alternatives _ _ _ d)) as [sg | e |];
      try exact Hrows.
    destruct e; exact Hrows.
Qed.

Lemma book_keeps_apart r d :
  Forall (same_zone (req_start r)) (appointments d) ->
  non_overlapping (appointments d) ->
  non_overlapping (appointments (snd (book_appointment r d))).
Proof.
  intros Hzone Hrows. rewrite book_appointment_cases; cbv zeta.
  destruct (Time.in_range _); [| exact Hrows].
  destruct (missing_column conflict_columns d); [exact Hrows |].
  destruct (List.filter _ (appointments d)) eqn:Hfree.
  - destruct (missing_column insert_columns d); [exact Hrows |].
    cbn [snd with_row appointments].
    apply non_overlapping_snoc; [exact Hrows |].
    apply (free_slot_is_apart (req_start r)
             (Time.shift (req_start r) (Time.minutes (req_duration r)))
             _ eq_refl Hzone Hfree); reflexivity.
  - destruct (fst (_suggest_alternatives _ _ _ d)) as [sg | e |];
      try exact Hrows.
    destruct e; exact Hrows.
Qed.

(** X5.  No double booking, one call after the other, on one [tzinfo].
    Take a table whose datetimes are all naive, or all aware with the same
    offset, and requests for datetimes of that kind.  When no two live rows
    of the table overlap in time, none do after [book_appointment],
    whatever the request (a duration of zero or less included) and
    whatever the outcome; so the rows that any sequence of such calls, each
    after the other has returned, writes to an empty table are pairwise
    apart. *)
Theorem sequential_bookings_do_not_overlap :
  forall (zone : option Z) (requests : list request) (d : db),
    one_zone zone (appointments d) requests ->
    non_overlapping (appointments d) ->
    non_overlapping (appointments (book_all requests d))
    /\ (forall r, Time.utcoffset (req_start r) = zone ->
          non_overlapping (appointments (snd (book_appointment r d))))
    /\ non_overlapping (appointments (book_all requests empty_db)).
Proof.
  assert (Hall : forall zone requests d,
            one_zone zone (appointments d) requests ->
            non_overlapping (appointments d) ->
            non_overlapping (appointments (book_all requests d))).
  { unfold book_all. intros zone.
    induction requests as [| r requests IH]; intros d Hz Hd.
    - exact Hd.
    - cbn [fold_left].
      assert (Hr : Time.utcoffset (req_start r) = zone)
        by (destruct Hz as [_ Hq]; inversion Hq; assumption).
      assert (Hz' : one_zone zone (appointments d) requests)
        by (destruct Hz as [Hrows Hq]; inversion Hq; split; assumption).
      apply IH.
      + apply book_keeps_zone; assumption.
      + apply book_keeps_apart; [| exact Hd].
        apply (rows_zone zone _ requests Hz'). exact Hr. }
  intros zone requests d Hz Hd. repeat apply conj.
  - apply (Hall zone); assumption.
  - intros r Hr. apply book_keeps_apart; [| exact Hd].
    apply (rows_zone zone _ requests Hz). exact Hr.
  - apply (Hall zone); [| exact I].
    split; [constructor | apply Hz].
Qed.

(** The theorem at work: three requests in a row, for 15:00, 15:30 and
    16:00; the second one is refused and the rows of the other two are
    apart. *)
Lemma sequential_bookings_do_not_overlap_witness :
  let requests := [slot "A" march_1st_15h 60;
                   slot "B" (Time.shift march_1st_15h (Time.minutes 30)) 60;
                   slot "C" (Time.shift march_1st_15h (Time.minutes 60)) 60] in
  map title (appointments (book_all requests empty_db)) = ["A"; "C"]%string
  /\ non_overlapping (appointments (book_all requests empty_db)).
Proof.
  cbv zeta. split; [vm_compute; reflexivity |].
  apply (sequential_bookings_do_not_overlap None _ empty_db).
  - split; [constructor |]. repeat constructor.
  - exact I.
Defined.

(** With two offsets a call after the other can book two rows that overlap
    in time: the hour from 15:00+00:00 is booked, and then the half hour
    from 17:30+02:00, which starts at 15:30+00:00. *)
Example bookings_of_two_offsets_overlap :
  let requests :=
    [slot "A" march_1st_15h_utc 60;
     slot "B" (plus_two (Time.shift march_1st_15h (Time.minutes 150))) 30] in
  map title (appointments (book_all requests empty_db)) = ["A"; "B"]%string
  /\ ~ non_overlapping (appointments (book_all requests empty_db)).
Proof.
  cbv zeta. split; [vm_compute; reflexivity |].
  intros H.
  change (appointments (book_all _ empty_db))
    with (appointments (book_all
            [slot "A" march_1st_15h_utc 60;
             slot "B" (plus_two (Time.shift march_1st_15h (Time.minutes 150)))
               30] empty_db)) in H.
  assert (Hrows :
    appointments (book_all
      [slot "A" march_1st_15h_utc 60;
       slot "B" (plus_two (Time.shift march_1st_15h (Time.minutes 150))) 30]
      empty_db)
    = [row_of (slot "A" march_1st_15h_utc 60) 1;
       row_of (slot "B" (plus_two (Time.shift march_1st_15h (Time.minutes 150)))
                 30) 2])
    by (vm_compute; reflexivity).
  rewrite Hrows in H. cbn [non_overlapping] in H. destruct H as [H _].
  inversion H as [| x l Hap _]; subst.
  apply Hap; [reflexivity | reflexivity |].
  split; vm_compute; reflexivity.
Qed.

Lemma non_overlapping_last_two rows x y :
  non_overlapping (rows ++ [x; y]) -> apart x y.
Proof.
  induction rows as [| a rows IH]; cbn [app non_overlapping].
  - intros [H _]. inversion H; assumption.
  - intros [_ H]. apply IH. exact H.
Qed.

(** X6.  Two callers whose halves alternate.  For any two requests that
    [book_appointment] would each book on the database, in the schedule
    check, check, insert, insert both callers are told [success = True] and
    both rows are written, whether or not the two requests overlap; when
    they do overlap in time, the table ends with two live rows that
    overlap. *)
Theorem interleaved_callers_are_both_booked :
  forall (a b : request) (d : db) (ra rb : booking),
    fst (book_appointment a d) = Ok ra -> success ra = true ->
    fst (book_appointment b d) = Ok rb -> success rb = true ->
    let d' := with_row (with_row d a) b in
    Race.run [false; true; false; true] (Race.Ready a) (Race.Ready b) d
    = (Race.Returned (Ok (booked a (next_rowid d))),
       Race.Returned (Ok (booked b (next_rowid (with_row d a)))), d')
    /\ (Time.instant (req_start a)
        < Time.instant (req_start b) + Time.minutes (req_duration b) ->
        Time.instant (req_start b)
        < Time.instant (req_start a) + Time.minutes (req_duration a) ->
        ~ non_overlapping (appointments d')).
Proof.
  intros a b d ra rb Ha Hsa Hb Hsb d'.
  destruct (booked_inv _ _ _ Ha Hsa) as (Ra & Ca & Fa & Ia).
  destruct (booked_inv _ _ _ Hb Hsb) as (Rb & Cb & Fb & Ib).
  split.
  - cbn [Race.run].
    rewrite (step_ready_free a d Ra Ca Fa).
    rewrite (step_ready_free b d Rb Cb Fb).
    rewrite (step_checked a d Ra Ia).
    rewrite (step_checked b (with_row d a) Rb Ib).
    reflexivity.
  - intros H1 H2 Hrows. unfold d', with_row in Hrows.
    cbn [appointments] in Hrows. rewrite <- app_assoc in Hrows.
    apply non_overlapping_last_two in Hrows.
    apply Hrows; [reflexivity | reflexivity |].
    cbn [start_datetime end_datetime row_of]. rewrite !instant_shift.
    split; assumption.
Qed.

(** The theorem at work on two requests that overlap by half an hour. *)
Lemma interleaved_callers_are_both_booked_witness :
  let a := slot "A" march_1st_15h 60 in
  let b := slot "B" (Time.shift march_1st_15h (Time.minutes 30)) 60 in
  Race.run [false; true; false; true] (Race.Ready a) (Race.Ready b) empty_db
  = (Race.Returned (Ok (booked a 1)), Race.Returned (Ok (booked b 2)),
     with_row (with_row empty_db a) b)
  /\ ~ non_overlapping (appointments (with_row (with_row empty_db a) b)).
Proof.
  cbv zeta.
  destruct (interleaved_callers_are_both_booked
              (slot "A" march_1st_15h 60)
              (slot "B" (Time.shift march_1st_15h (Time.minutes 30)) 60) empty_db
              (booked (slot "A" march_1st_15h 60) 1)
              (booked (slot "B" (Time.shift march_1st_15h (Time.minutes 30)) 60) 1))
    as [Hrun Hrows].
  - vm_compute. reflexivity.
  - reflexivity.
  - vm_compute. reflexivity.
  - reflexivity.
  - split.
    + etransitivity; [exact Hrun | vm_compute; reflexivity].
    + apply Hrows; vm_compute; reflexivity.
Defined.

(** *** Rows that do not count *)

Lemma filter_live (p : appointment -> bool) rows :
  (forall a, p a = true -> not_cancelled a = true) ->
  List.filter p rows = List.filter p (live rows).
Proof.
  intros Hp. unfold live. induction rows as [| a rows IH]; [reflexivity |].
  cbn [List.filter]. destruct (not_cancelled a) eqn:Hn.
  - cbn [List.filter]. rewrite IH. reflexivity.
  - destruct (p a) eqn:Hpa; [| exact IH].
    apply Hp in Hpa. congruence.
Qed.

Lemma existsb_live (p : appointment -> bool) rows :
  (forall a, p a = true -> not_cancelled a = true) ->
  existsb p rows = existsb p (live rows).
Proof.
  intros Hp. unfold live. induction rows as [| a rows IH]; [reflexivity |].
  cbn [List.filter existsb]. destruct (not_cancelled a) eqn:Hn.
  - cbn [existsb]. rewrite IH. reflexivity.
  - destruct (p a) eqn:Hpa; [| exact IH].
    apply Hp in Hpa. congruence.
Qed.

Lemma conflict_where_live dt end_dt a :
  conflict_where dt end_dt a = true -> not_cancelled a = true.
Proof. unfold conflict_where. intros H; apply andb_true_iff in H; tauto. Qed.

Lemma probe_where_live check end_check a :
  probe_where check end_check a = true -> not_cancelled a = true.
Proof. unfold probe_where. intros H; apply andb_true_iff in H; tauto. Qed.

Lemma missing_column_columns cols d1 d2 :
  columns d1 = columns d2 -> missing_column cols d1 = missing_column cols d2.
Proof. unfold missing_column. intros ->. reflexivity. Qed.

Lemma suggest_loop_live preferred duration limit d1 d2 :
  columns d1 = columns d2 ->
  live (appointments d1) = live (appointments d2) ->
  forall fuel check suggestions,
    fst (suggest_loop fuel preferred duration limit check suggestions d1)
    = fst (suggest_loop fuel preferred duration limit check suggestions d2).
Proof.
  intros Hcols Hrows.
  induction fuel as [| fuel IH]; intros check sg; [reflexivity |].
  simpl. destruct (Z.of_nat (length sg) <? limit); [| reflexivity].
  unfold bind, lift, select, ret.
  destruct (Time.add preferred (Time.days 7)) as [horizon | e |];
    try reflexivity.
  destruct (Time.ltb check horizon); [| reflexivity].
  destruct (Time.add check (Time.minutes duration)) as [end_check | e |];
    try reflexivity.
  rewrite (missing_column_columns probe_columns d1 d2 Hcols).
  destruct (missing_column probe_columns d2); [reflexivity |].
  rewrite (existsb_live _ (appointments d1) (probe_where_live check end_check)).
  rewrite (existsb_live _ (appointments d2) (probe_where_live check end_check)).
  rewrite Hrows.
  destruct (Time.add check (Time.hours 1)) as [check' | e |]; try reflexivity.
  apply IH.
Qed.

(** X7.  What [check_availability] answers depends on the columns of the table
    and on the rows whose status is a text other than ['cancelled'], and on
    nothing else: rows that are cancelled or have no status, the AUTOINCREMENT
    counter and the availability windows (with their buffers) make no
    difference. *)
Theorem check_availability_sees_live_rows_only :
  forall (dt : Time.datetime) (duration : Z) (d1 d2 : db),
    columns d1 = columns d2 ->
    live (appointments d1) = live (appointments d2) ->
    fst (check_availability dt duration d1)
    = fst (check_availability dt duration d2).
Proof.
  intros dt duration d1 d2 Hcols Hrows.
  rewrite !check_availability_cases; cbv zeta.
  destruct (Time.in_range _); [| reflexivity].
  rewrite (missing_column_columns conflict_columns d1 d2 Hcols).
  destruct (missing_column conflict_columns d2); [reflexivity |].
  rewrite (filter_live _ (appointments d1)
             (conflict_where_live dt (Time.shift dt (Time.minutes duration)))).
  rewrite (filter_live _ (appointments d2)
             (conflict_where_live dt (Time.shift dt (Time.minutes duration)))).
  rewrite Hrows.
  destruct (List.filter _ (live (appointments d2))); [reflexivity |].
  pose proof (suggest_loop_live dt duration 3 d1 d2 Hcols Hrows) as Hloop.
  pose proof (read_only_suggest_alternatives dt duration 3 d1) as H1.
  pose proof (read_only_suggest_alternatives dt duration 3 d2) as H2.
  assert (Hs : fst (_suggest_alternatives dt duration 3 d1)
               = fst (_suggest_alternatives dt duration 3 d2)).
  { unfold _suggest_alternatives, bind, lift.
    destruct (Time.add dt (Time.hours 1)); try reflexivity. apply Hloop. }
  destruct (_suggest_alternatives dt duration 3 d1) as [o1 e1].
  destruct (_suggest_alternatives dt duration 3 d2) as [o2 e2].
  cbn [fst snd] in *. subst o2.
  destruct o1 as [sg | e |]; try reflexivity.
  destruct e; reflexivity.
Qed.

(** The theorem at work: with the "Standup" row cancelled, a second row
    without a status and no availability window at all, 15:00 is as free as
    on the empty store. *)
Lemma check_availability_sees_live_rows_only_witness :
  fst (check_availability march_1st_15h 60
         (with_rows empty_db
            [with_status (Some "cancelled"%string)
               (row_of (slot "Standup" march_1st_15h 60) 1);
             with_status None (row_of (slot "Review" march_1st_15h 60) 2)]
            []))
  = Ok free_result.
Proof.
  rewrite (check_availability_sees_live_rows_only march_1st_15h 60 _ empty_db).
  - vm_compute. reflexivity.
  - reflexivity.
  - vm_compute. reflexivity.
Defined.

(** *** Failures *)

Lemma suggest_loop_round fuel preferred duration limit check suggestions :
  suggest_loop (S fuel) preferred duration limit check suggestions
  = if Z.of_nat (length suggestions) <? limit then
      do horizon <- lift (Time.add preferred (Time.days 7));
      if Time.ltb check horizon then
        do end_check <- lift (Time.add check (Time.minutes duration));
        do row <- select probe_columns (existsb (probe_where check end_check));
        let suggestions' :=
          if row then suggestions else suggestions ++ [check] in
        do check' <- lift (Time.add check (Time.hours 1));
        suggest_loop fuel preferred duration limit check' suggestions'
      else ret suggestions
    else ret suggestions.
Proof. reflexivity. Qed.

(** X8.  When the query of [check_availability] fails in SQLite (here: the table
    lacks a column the query names), the failure comes back as a dictionary
    with ["available"] false and the error text, and without ["conflicts"].
    [book_appointment] reads ["conflicts"] of it: it raises [KeyError]
    instead of returning its own failure dictionary.  The database is as
    before. *)
Theorem failed_check_raises_key_error :
  forall (r : request) (d : db) (c : string),
    Time.in_range (req_start r + Time.minutes (req_duration r)) = true ->
    missing_column conflict_columns d = Some c ->
    check_availability (req_start r) (req_duration r) d
    = (Ok {| available := false; conflicts := None; suggested_times := None;
             error := Some (no_such_column c) |}, d)
    /\ book_appointment r d = (Raise (KeyError "conflicts"), d).
Proof.
  intros r d c Hr Hc.
  rewrite check_availability_cases, book_appointment_cases; cbv zeta.
  rewrite Hr, Hc. split; reflexivity.
Qed.

(** The theorem at work: a table that was created without [status]. *)
Lemma failed_check_raises_key_error_witness :
  book_appointment (slot "Standup" march_1st_15h 60) old_db
  = (Raise (KeyError "conflicts"), old_db).
Proof.
  destruct (failed_check_raises_key_error (slot "Standup" march_1st_15h 60)
              old_db "status") as [_ H]; [vm_compute; reflexivity .. |].
  exact H.
Defined.

(** X9.  The ends of the calendar.  A slot whose end is not a datetime (before
    year 1 or after year 9999) makes [check_availability] and
    [book_appointment] raise [OverflowError]: the exception is not an error
    of SQLite and is not caught.  The same happens for a slot that is in
    range and taken, when the first probe or the horizon of the suggestions
    is not a datetime.  The database is as before. *)
Theorem ends_of_the_calendar_raise :
  forall (r : request) (d : db),
    let dt := req_start r in
    let end_dt := Time.shift dt (Time.minutes (req_duration r)) in
    (Time.in_range end_dt = false ->
     check_availability dt (req_duration r) d = (Raise OverflowError, d)
     /\ book_appointment r d = (Raise OverflowError, d))
    /\ (Time.in_range end_dt = true ->
        missing_column conflict_columns d = None ->
        List.filter (conflict_where dt end_dt) (appointments d) <> [] ->
        Time.in_range (dt + Time.hours 1) = false
        \/ Time.in_range (dt + Time.days 7) = false ->
        check_availability dt (req_duration r) d = (Raise OverflowError, d)
        /\ book_appointment r d = (Raise OverflowError, d)).
Proof.
  intros r d dt end_dt.
  change (Time.wall end_dt) with (dt + Time.minutes (req_duration r)).
  split.
  - intros Hr.
    rewrite check_availability_cases, book_appointment_cases; cbv zeta.
    fold dt end_dt. rewrite Hr. split; reflexivity.
  - intros Hr Hc Hfound Hout.
    assert (Hs : _suggest_alternatives dt (req_duration r) 3 d
                 = (Raise OverflowError, d)).
    { unfold _suggest_alternatives, bind at 1, lift at 1, Time.add at 1.
      destruct (Time.in_range (dt + Time.hours 1)) eqn:H1; [| reflexivity].
      destruct Hout as [Hout | Hout]; [discriminate |].
      unfold suggest_fuel. rewrite suggest_loop_round.
      change (Z.of_nat (length []) <? 3) with true. cbv iota.
      unfold bind at 1, lift at 1, Time.add at 1. rewrite Hout. reflexivity. }
    rewrite check_availability_cases, book_appointment_cases; cbv zeta.
    fold dt end_dt. rewrite Hr, Hc.
    destruct (List.filter _ (appointments d)); [congruence |].
    rewrite Hs. split; reflexivity.
Qed.

(** The theorem at work: the last hour of 9999 is booked for thirty
    minutes; asking for it again raises, since the probe an hour later is
    past the end of the calendar. *)
Lemma ends_of_the_calendar_raise_witness :
  let d := snd (book_appointment (slot "Party" last_hour 30) empty_db) in
  appointments d = [row_of (slot "Party" last_hour 30) 1]
  /\ check_availability last_hour 30 d = (Raise OverflowError, d).
Proof.
  cbv zeta. split; [vm_compute; reflexivity |].
  destruct (ends_of_the_calendar_raise (slot "Party" last_hour 30)
              (snd (book_appointment (slot "Party" last_hour 30) empty_db)))
    as [_ H].
  apply H.
  - vm_compute. reflexivity.
  - vm_compute. reflexivity.
  - vm_compute. discriminate.
  - left. vm_compute. reflexivity.
Defined.

(** *** The suggestions, for any limit *)

Lemma increasing_cons (a : Time.datetime) l :
  Forall (fun x : Time.datetime => a < x) l -> increasing l = true ->
  increasing (a :: l) = true.
Proof.
  intros Hall Hinc. destruct l as [| b l]; [reflexivity |].
  cbn [increasing]. inversion Hall; subst.
  apply andb_true_iff; split; [apply Z.ltb_lt; assumption | exact Hinc].
Qed.

Lemma increasing_inv (a : Time.datetime) l :
  increasing (a :: l) = true ->
  Forall (fun x : Time.datetime => a < x) l /\ increasing l = true.
Proof.
  revert a. induction l as [| b l IH]; intros a H.
  - split; [constructor | reflexivity].
  - cbn [increasing] in H. apply andb_true_iff in H as [Hab Hinc].
    apply Z.ltb_lt in Hab. split; [| exact Hinc].
    constructor; [exact Hab |].
    destruct (IH b Hinc) as [Hall _].
    eapply List.Forall_impl; [| exact Hall]. cbn. intros x Hx. lia.
Qed.

Lemma increasing_filter (f : Time.datetime -> bool) l :
  increasing l = true -> increasing (List.filter f l) = true.
Proof.
  induction l as [| a l IH]; intros H; [reflexivity |].
  apply increasing_inv in H as [Hall Hinc].
  cbn [List.filter]. destruct (f a); [| auto].
  apply increasing_cons; [| auto].
  apply List.Forall_forall. intros x Hx. apply filter_In in Hx as [Hx _].
  rewrite List.Forall_forall in Hall. auto.
Qed.

Lemma increasing_firstn n l :
  increasing l = true -> increasing (firstn n l) = true.
Proof.
  revert l. induction n as [| n IH]; intros [| a l] H; try reflexivity.
  apply increasing_inv in H as [Hall Hinc].
  cbn [firstn]. apply increasing_cons; [| auto].
  apply List.Forall_forall. intros x Hx. apply in_firstn in Hx.
  rewrite List.Forall_forall in Hall. auto.
Qed.

Lemma increasing_probes p : forall n k, increasing (probes_from p k n) = true.
Proof.
  induction n as [| n IH]; intros k; [reflexivity |].
  cbn [probes_from]. apply increasing_cons; [| apply IH].
  apply List.Forall_forall. intros x Hx.
  apply in_probes_from in Hx as (j & Hj & ->).
  cbn [Time.wall Time.shift]. unfold Time.hours. lia.
Qed.

(** X10.  [_suggest_alternatives] with any [limit]: what it returns are the
    first [limit] free probes of the week, in chronological order and none
    twice; with a limit of zero or less it returns the empty list.  The
    loop always ends, and away from the ends of the calendar it returns. *)
Theorem suggestions_for_any_limit :
  forall (preferred : Time.datetime) (duration limit : Z) (d : db),
    (forall res d',
        _suggest_alternatives preferred duration limit d = (Ok res, d') ->
        res = firstn (Z.to_nat limit)
                (List.filter (probe_free (appointments d) duration)
                   (probes preferred))
        /\ (Z.of_nat (length res) <= Z.max 0 limit)
        /\ increasing res = true
        /\ (limit <= 0 -> res = [])
        /\ d' = d)
    /\ fst (_suggest_alternatives preferred duration limit d) <> OutOfFuel
    /\ (0 <= preferred -> 0 <= preferred + Time.minutes duration ->
        preferred + Time.days 7 < Time.MAX_US ->
        preferred + Time.days 7 + Time.minutes duration < Time.MAX_US ->
        missing_column probe_columns d = None ->
        exists res, _suggest_alternatives preferred duration limit d = (Ok res, d)).
Proof.
  intros preferred duration limit d. repeat apply conj.
  - intros res d' Hrun.
    assert (Hd : d' = d).
    { pose proof (read_only_suggest_alternatives preferred duration limit d) as H.
      rewrite Hrun in H. exact H. }
    unfold _suggest_alternatives, bind at 1, lift at 1 in Hrun.
    destruct (Time.add preferred (Time.hours 1)) as [check | e |] eqn:Hc;
      try discriminate.
    apply add_inv in Hc as [-> _].
    apply suggest_loop_spec in Hrun. cbn [length app] in Hrun.
    rewrite Z.sub_0_r in Hrun. change (Z.to_nat (168 - 1)) with 167%nat in Hrun.
    fold (probes preferred) in Hrun.
    repeat apply conj.
    + exact Hrun.
    + subst res. rewrite length_firstn. lia.
    + subst res. apply increasing_firstn, increasing_filter, increasing_probes.
    + intros Hl. subst res. replace (Z.to_nat limit) with O by lia. reflexivity.
    + exact Hd.
  - apply suggest_alternatives_ends.
  - intros Hp Hpd Hh Hhd Hcols.
    unfold _suggest_alternatives, bind at 1, lift at 1.
    rewrite add_in_range
      by (apply in_range_iff; unfold Time.days, Time.hours in *; lia).
    apply suggest_loop_total; auto; unfold suggest_fuel; lia.
Qed.

End CalendarMoreFacts.
(* ================================================================== *)
(** * More properties of the intent engine *)

Section NluMoreFacts.
Import Py Nlu.

Lemma get_set_same key v d : get key (set key v d) = Some v.
Proof.
  induction d as [| [k v0] d IH]; cbn [set get].
  - rewrite String.eqb_refl. reflexivity.
  - destruct (String.eqb k key) eqn:E; cbn [get]; rewrite E; auto.
Qed.

Lemma get_set_other key key' v d :
  key' <> key -> get key' (set key v d) = get key' d.
Proof.
  intros Hne. induction d as [| [k v0] d IH]; cbn [set get].
  - destruct (String.eqb key key') eqn:E; [| reflexivity].
    apply String.eqb_eq in E. congruence.
  - destruct (String.eqb k key) eqn:E; cbn [get].
    + apply String.eqb_eq in E. subst k.
      destruct (String.eqb key key') eqn:E2; [| reflexivity].
      apply String.eqb_eq in E2. congruence.
    + rewrite IH. reflexivity.
Qed.

Lemma fallback_confidence text :
  get "confidence" (_rule_based_fallback text) = Some (VFloat conf_05)
  \/ get "confidence" (_rule_based_fallback text) = Some (VFloat conf_03).
Proof.
  unfold _rule_based_fallback.
  destruct (has "available" (lower text) || has "free" (lower text));
    [left; reflexivity |].
  destruct (has "book" (lower text) || has "schedule" (lower text));
    [left; reflexivity |].
  destruct (has "task" (lower text) || has "todo" (lower text));
    [left | right]; reflexivity.
Qed.

Variable ollama_chat : Privacy.text -> dict -> option Privacy.text.
Variable json_loads : Privacy.text -> Nlu.loads.

Lemma local_failure_iff text context :
  EntrySpec.local_failure ollama_chat json_loads text context = true <->
  ollama_chat text context = None
  \/ exists content span,
       ollama_chat text context = Some content
       /\ json_span content = Some span /\ json_loads span = OtherError.
Proof.
  unfold EntrySpec.local_failure.
  destruct (ollama_chat text context) as [content |] eqn:Hc;
    [| split; [intros _; left; reflexivity | reflexivity]].
  destruct (json_span content) as [span |] eqn:Hs.
  - destruct (json_loads span) eqn:He.
    + split; [discriminate |].
      intros [H | (c & sp & Hc' & Hs' & He')]; [discriminate |].
      injection Hc' as <-. rewrite Hs in Hs'. injection Hs' as <-. congruence.
    + split; [discriminate |].
      intros [H | (c & sp & Hc' & Hs' & He')]; [discriminate |].
      injection Hc' as <-. rewrite Hs in Hs'. injection Hs' as <-. congruence.
    + split; [| reflexivity]. intros _. right. eauto.
  - split; [discriminate |].
    intros [H | (c & sp & Hc' & Hs' & He')]; [discriminate |].
    injection Hc' as <-. congruence.
Qed.

Lemma failure_is_fallback text context :
  EntrySpec.local_failure ollama_chat json_loads text context = true ->
  parse_intent ollama_chat json_loads text context = _rule_based_fallback text.
Proof.
  unfold EntrySpec.local_failure, parse_intent.
  destruct (ollama_chat text context) as [content |]; [| reflexivity].
  destruct (json_span content) as [span |]; [| discriminate].
  destruct (json_loads span); try discriminate. reflexivity.
Qed.

Lemma local_confidence text context :
  EntrySpec.local_failure ollama_chat json_loads text context = false ->
  get "confidence" (parse_intent ollama_chat json_loads text context)
  = Some (VFloat conf_08).
Proof.
  unfold EntrySpec.local_failure, parse_intent.
  destruct (ollama_chat text context) as [content |]; [| discriminate].
  destruct (json_span content) as [span |]; [| intros _; apply get_set_same].
  destruct (json_loads span); try discriminate; intros _; apply get_set_same.
Qed.

(** X11.  The confidence of an intent is fixed by the path that made it: 0.8
    when the local model answered and [json.loads] returned or raised
    [JSONDecodeError] (a confidence that the model wrote into its JSON is
    overwritten, and every other key of the object is passed on as it is),
    and 0.5 or 0.3 when the call raised or [json.loads] raised something
    else. *)
Theorem parse_intent_confidence :
  forall (text : Privacy.text) (context : dict),
    let r := parse_intent ollama_chat json_loads text context in
    (forall content,
        ollama_chat text context = Some content ->
        (forall span, json_span content = Some span ->
                      json_loads span <> OtherError) ->
        get "confidence" r = Some (VFloat (8 # 10))
        /\ forall span obj,
             json_span content = Some span -> json_loads span = Loaded obj ->
             r = set "confidence" (VFloat (8 # 10)) obj
             /\ forall key, key <> "confidence"%string -> get key r = get key obj)
    /\ (ollama_chat text context = None
        \/ (exists content span,
              ollama_chat text context = Some content
              /\ json_span content = Some span
              /\ json_loads span = OtherError) ->
        get "confidence" r = Some (VFloat (5 # 10))
        \/ get "confidence" r = Some (VFloat (3 # 10))).
Proof.
  intros text context r. subst r. split.
  - intros content H Hother. split.
    + apply local_confidence.
      destruct (EntrySpec.local_failure ollama_chat json_loads text context)
        eqn:E; [| reflexivity].
      apply local_failure_iff in E as [E | (c & sp & Hc & Hs & He)];
        [congruence |].
      rewrite H in Hc. injection Hc as <-. destruct (Hother sp Hs He).
    + intros span obj Hspan Hobj. unfold parse_intent.
      rewrite H, Hspan, Hobj. split; [reflexivity |].
      intros key Hkey. apply get_set_other. exact Hkey.
  - intros H. apply local_failure_iff in H.
    rewrite (failure_is_fallback _ _ H). apply fallback_confidence.
Qed.

End NluMoreFacts.

(** The theorem at work: the model answers with a confidence of its own. *)
Lemma parse_intent_confidence_witness :
  let answer := list_ascii_of_string "Sure: {...}" in
  let obj := [("intent", Py.str "create_task"); ("confidence", Py.VFloat (1 # 10));
              ("title", Py.str "Paint")]%string in
  let r := Nlu.parse_intent (fun _ _ => Some answer) (fun _ => Nlu.Loaded obj)
             [] [] in
  Py.get "confidence" r = Some (Py.VFloat (8 # 10))
  /\ Py.get "title" r = Some (Py.str "Paint").
Proof.
  cbv zeta.
  destruct (parse_intent_confidence
              (fun _ _ => Some (list_ascii_of_string "Sure: {...}"))
              (fun _ => Nlu.Loaded [("intent", Py.str "create_task");
                                    ("confidence", Py.VFloat (1 # 10));
                                    ("title", Py.str "Paint")]%string) [] [])
    as [H _].
  destruct (H _ eq_refl) as [Hc Hk]; [intros span _; discriminate |].
  split; [exact Hc |].
  destruct (Hk (list_ascii_of_string "{...}") _ eq_refl eq_refl) as [_ Hkeys].
  rewrite Hkeys; [reflexivity | discriminate].
Defined.

Section JsonSpanFacts.
Import Py Nlu.

Local Open Scope char_scope.

Lemma upto_last_brace_none s :
  upto_last_brace s = None <-> ~ In "}" s.
Proof.
  induction s as [| c s IH]; cbn [upto_last_brace In]; [tauto |].
  destruct (upto_last_brace s) as [span |].
  - split; [discriminate |]. intros H. exfalso.
    assert (Hs : ~ In "}" s) by tauto.
    apply IH in Hs. discriminate.
  - destruct (Ascii.eqb_spec c "}") as [-> | Hc].
    + split; [discriminate | tauto].
    + assert (Hs : ~ In "}" s) by (apply IH; reflexivity).
      split; [| reflexivity]. intros _ [Heq | Hin]; [congruence | tauto].
Qed.

Lemma upto_last_brace_some s span :
  upto_last_brace s = Some span <->
  exists body post, s = body ++ "}" :: post /\ ~ In "}" post
                    /\ span = body ++ ["}"].
Proof.
  revert span. induction s as [| c s IH]; intros span; cbn [upto_last_brace].
  - split; [discriminate |]. intros (body & post & H & _). destruct body; discriminate.
  - destruct (upto_last_brace s) as [span' |] eqn:E.
    + split.
      * intros H; inversion H; subst span.
        destruct (proj1 (IH span') eq_refl) as (body & post & -> & Hpost & ->).
        exists (c :: body), post. auto.
      * intros (body & post & Hs & Hpost & ->).
        destruct body as [| b body]; cbn in Hs; inversion Hs; subst.
        -- exfalso. apply upto_last_brace_none in Hpost. congruence.
        -- assert (H : Some span' = Some (body ++ ["}"])).
           { apply IH. exists body, post. auto. }
           inversion H; reflexivity.
    + apply upto_last_brace_none in E.
      destruct (Ascii.eqb_spec c "}") as [-> | Hc].
      * split.
        -- intros H; inversion H; subst. exists [], s. auto.
        -- intros (body & post & Hs & Hpost & ->).
           destruct body as [| b body]; cbn in Hs; inversion Hs; subst;
             [reflexivity |].
           exfalso. apply E. apply in_or_app. right; left; reflexivity.
      * split; [discriminate |].
        intros (body & post & Hs & Hpost & ->).
        destruct body as [| b body]; cbn in Hs; inversion Hs; subst;
          [congruence |].
        exfalso. apply E. apply in_or_app. right; left; reflexivity.
Qed.

(** X12.  The span that [re.search(r'\{.*\}', content, re.DOTALL)] finds goes
    from the first opening brace of the content to its last closing brace:
    there is one exactly when a closing brace follows the first opening
    brace, and it is the whole of the text between the two, other braces
    included. *)
Theorem json_span_first_to_last_brace :
  forall (content : Privacy.text),
    (forall span,
        json_span content = Some span <->
        exists pre body post,
          content = pre ++ "{" :: body ++ "}" :: post
          /\ ~ In "{" pre /\ ~ In "}" post
          /\ span = "{" :: body ++ ["}"])
    /\ (json_span content = None <->
        forall pre body post, content <> pre ++ "{" :: body ++ "}" :: post).
Proof.
  assert (Hsome : forall content span,
    json_span content = Some span <->
    exists pre body post,
      content = pre ++ "{" :: body ++ "}" :: post
      /\ ~ In "{" pre /\ ~ In "}" post
      /\ span = "{" :: body ++ ["}"]).
  { induction content as [| c content IH]; intros span; cbn [json_span].
    - split; [discriminate |].
      intros (pre & body & post & H & _). destruct pre; discriminate.
    - destruct (Ascii.eqb_spec c "{") as [-> | Hc].
      + destruct (upto_last_brace content) as [span' |] eqn:E.
        * apply upto_last_brace_some in E as (body & post & -> & Hpost & ->).
          split.
          -- intros H; inversion H; subst span.
             exists [], body, post. cbn. auto.
          -- intros (pre & body' & post' & Hs & Hpre & Hpost' & ->).
             destruct pre as [| p pre]; cbn in Hs; inversion Hs as [Hb].
             ++ assert (E2 : upto_last_brace (body ++ "}" :: post)
                             = Some (body ++ ["}"])).
                { apply upto_last_brace_some. exists body, post. auto. }
                rewrite Hb in E2.
                assert (E3 : upto_last_brace (body' ++ "}" :: post')
                             = Some (body' ++ ["}"])).
                { apply upto_last_brace_some. exists body', post'. auto. }
                rewrite E3 in E2. injection E2 as H2. rewrite H2. reflexivity.
             ++ subst p. exfalso. apply Hpre. left; reflexivity.
        * split; [discriminate |].
          intros (pre & body' & post' & Hs & Hpre & Hpost' & ->).
          destruct pre as [| p pre]; cbn in Hs; inversion Hs as [Hb].
          -- apply upto_last_brace_none in E. exfalso. apply E.
             rewrite Hb. apply in_or_app. right; left; reflexivity.
          -- subst p. exfalso. apply Hpre. left; reflexivity.
      + rewrite IH. split.
        * intros (pre & body & post & -> & Hpre & Hpost & ->).
          exists (c :: pre), body, post. repeat split; auto.
          intros [Heq | Hin]; [congruence | auto].
        * intros (pre & body & post & Hs & Hpre & Hpost & ->).
          destruct pre as [| p pre]; cbn in Hs; inversion Hs; subst;
            [congruence |].
          exists pre, body, post. repeat split; auto.
          intros Hin. apply Hpre. right; exact Hin. }
  intros content. split; [apply Hsome |].
  split.
  - intros Hnone pre body post Hs.
    revert pre Hs. induction content as [| c content IH]; intros pre Hs.
    + destruct pre; discriminate.
    + cbn [json_span] in Hnone.
      destruct (Ascii.eqb_spec c "{") as [-> | Hc].
      * destruct (upto_last_brace content) as [span' |] eqn:E; [discriminate |].
        apply upto_last_brace_none in E. apply E.
        destruct pre as [| p pre]; cbn in Hs; inversion Hs; subst.
        -- apply in_or_app. right; left; reflexivity.
        -- apply in_or_app. right. right.
           apply in_or_app. right; left; reflexivity.
      * destruct pre as [| p pre]; cbn in Hs; inversion Hs; subst;
          [congruence |].
        apply (IH Hnone pre). reflexivity.
  - intros Hno. destruct (json_span content) as [span |] eqn:E; [| reflexivity].
    apply Hsome in E as (pre & body & post & Hs & _). exfalso.
    apply (Hno pre body post Hs).
Qed.

End JsonSpanFacts.

(* ================================================================== *)
(** * More properties of the cloud proxy *)

Section CloudMoreFacts.
Import Cloud CloudSpec.

Variable respond : nat -> request -> response.
Variable cfg : config.

Lemma openai_attempts_closed p prompt :
  session_open p = false ->
  forall rounds attempt,
    openai_attempts respond cfg p prompt attempt rounds = (None, []).
Proof.
  intros Hs. induction rounds as [| rounds IH]; intros attempt; cbn.
  - reflexivity.
  - rewrite Hs. apply IH.
Qed.

Lemma openai_attempts_open p prompt :
  session_open p = true ->
  forall rounds attempt,
    let rq := openai_request cfg prompt in
    let res := fst (openai_attempts respond cfg p prompt attempt rounds) in
    let sent := snd (openai_attempts respond cfg p prompt attempt rounds) in
    sent = repeat rq (length sent)
    /\ (length sent <= rounds)%nat
    /\ (forall k, (k + 1 < length sent)%nat ->
          forall content, respond (attempt + k) rq <> Status200 content)
    /\ (forall text, res = Some text ->
          (1 <= length sent)%nat
          /\ answered respond (attempt + (length sent - 1)) rq text)
    /\ (res = None ->
          ((1 <= length sent)%nat
           /\ respond (attempt + (length sent - 1)) rq = Status200 None)
          \/ (length sent = rounds
              /\ forall k, (k < rounds)%nat ->
                   forall content,
                     respond (attempt + k) rq <> Status200 content)).
Proof.
  intros Hs. induction rounds as [| rounds IH]; intros attempt rq.
  - cbn. repeat split; try discriminate; try (intros; lia).
    intros _. right. split; [reflexivity | intros; lia].
  - cbn [openai_attempts]. rewrite Hs. fold rq.
    specialize (IH (S attempt)). cbv zeta in IH. fold rq in IH.
    destruct (respond attempt rq) as [content | | status | |] eqn:E.
    1:{ cbn [fst snd length repeat].
        replace (attempt + (1 - 1))%nat with attempt by lia.
        repeat apply conj.
        - reflexivity.
        - lia.
        - intros k Hk; lia.
        - intros text' Hres. subst content. split; [lia | exact E].
        - intros Hres. subst content. left. split; [lia | exact E]. }
    all: assert (Hno : forall content, respond attempt rq <> Status200 content)
           by (intros content; rewrite E; discriminate).
    all: destruct (openai_attempts respond cfg p prompt (S attempt) rounds)
           as [res sent]; cbn [fst snd] in *;
         destruct IH as (Hrep & Hlen & Hfail & Hsome & Hnone);
         cbn [length repeat]; repeat apply conj;
         [ f_equal; exact Hrep
         | lia
         | intros k Hk content; destruct k as [| k];
           [ rewrite Nat.add_0_r; apply Hno
           | replace (attempt + S k)%nat with (S attempt + k)%nat by lia;
             apply Hfail; lia ]
         | intros text Hres; destruct (Hsome text Hres) as [Hone Hans];
           split; [lia |];
           replace (attempt + (S (length sent) - 1))%nat
             with (S attempt + (length sent - 1))%nat by lia;
           exact Hans
         | intros Hres; destruct (Hnone Hres) as [[Hone Hnull] | [Hall Hk0]];
           [ left; split; [lia |];
             replace (attempt + (S (length sent) - 1))%nat
               with (S attempt + (length sent - 1))%nat by lia;
             exact Hnull
           | right; split; [lia |];
             intros k Hk content; destruct k as [| k];
             [ rewrite Nat.add_0_r; apply Hno
             | replace (attempt + S k)%nat with (S attempt + k)%nat by lia;
               apply Hk0; lia ] ] ].
Qed.

(** X13.  The retries of [_call_openai].  At most [max_retries + 1] requests
    are sent, all the same.  The loop stops at the first attempt that is
    answered with status 200 and a content, and returns that content, be it
    a text or [null]; no attempt before it was answered so.  When it returns
    [None] with a client session, either the last request was answered with
    a content that is [null], or all the [max_retries + 1] attempts were
    made and none was answered with status 200 and a content; without a
    client session nothing is sent at all. *)
Theorem call_openai_retries :
  forall (p : proxy) (prompt : Privacy.text) (max_retries : Z),
    let rq := openai_request cfg prompt in
    let rounds := Z.to_nat (max_retries + 1) in
    let res := fst (_call_openai respond cfg p prompt max_retries) in
    let sent := snd (_call_openai respond cfg p prompt max_retries) in
    sent = repeat rq (length sent)
    /\ (length sent <= rounds)%nat
    /\ (session_open p = false -> res = None /\ sent = [])
    /\ (forall k, (k + 1 < length sent)%nat ->
          forall content, respond k rq <> Status200 content)
    /\ (forall text, res = Some text ->
          session_open p = true
          /\ (1 <= length sent)%nat
          /\ answered respond (length sent - 1) rq text)
    /\ (session_open p = true -> res = None ->
          ((1 <= length sent)%nat
           /\ respond (length sent - 1)%nat rq = Status200 None)
          \/ (length sent = rounds
              /\ forall k, (k < rounds)%nat ->
                   forall content, respond k rq <> Status200 content)).
Proof.
  intros p prompt max_retries rq rounds res sent.
  subst res sent. unfold _call_openai. fold rounds.
  destruct (session_open p) eqn:Hs.
  - pose proof (openai_attempts_open p prompt Hs rounds 0) as H.
    cbv zeta in H. fold rq in H.
    destruct H as (Hrep & Hlen & Hfail & Hsome & Hnone).
    repeat apply conj.
    + exact Hrep.
    + exact Hlen.
    + discriminate.
    + exact Hfail.
    + intros text Hres. destruct (Hsome text Hres) as [Hone Hans].
      repeat split; assumption.
    + intros _ Hres. apply Hnone. exact Hres.
  - rewrite (openai_attempts_closed p prompt Hs). cbn [fst snd length repeat].
    repeat apply conj; try reflexivity; try lia; try discriminate.
    intros _; split; reflexivity.
Qed.

(** The provider answers the first request with a content that is [null]:
    one request is sent and the result is [None]. *)
Example null_content_ends_the_retries :
  _call_openai (fun _ _ => Status200 None) cfg CloudSpec.consenting [] 2
  = (None, [openai_request cfg []]).
Proof. reflexivity. Qed.

Lemma call_llm_sent p prompt max_retries :
  let sent := snd (call_llm respond cfg p prompt max_retries) in
  (sent <> [] ->
   enabled p = true /\ user_consent p = true
   /\ key_set (OPENAI_API_KEY cfg) = true /\ session_open p = true)
  /\ sent = repeat (openai_request cfg (fst (Privacy.anonymize_text prompt)))
              (length sent)
  /\ (length sent <= Z.to_nat (max_retries + 1))%nat.
Proof.
  cbv zeta. unfold call_llm.
  destruct (Privacy.anonymize_text prompt) as [anonymized mapping]; cbn [fst].
  destruct (enabled p), (user_consent p); cbn [negb orb];
    try (repeat apply conj; cbn [snd length repeat];
         [congruence | reflexivity | lia]).
  destruct (key_set (OPENAI_API_KEY cfg)).
  2:{ destruct (key_set (ANTHROPIC_API_KEY cfg)); unfold _call_anthropic;
        (repeat apply conj; cbn [snd length repeat];
         [congruence | reflexivity | lia]). }
  unfold _call_openai.
  destruct (session_open p) eqn:Hs.
  - pose proof (openai_attempts_open p anonymized Hs
                  (Z.to_nat (max_retries + 1)) 0) as H.
    cbv zeta in H. destruct H as (Hrep & Hlen & _).
    repeat apply conj; auto.
  - rewrite (openai_attempts_closed p anonymized Hs).
    repeat apply conj; cbn [snd length repeat];
      [congruence | reflexivity | lia].
Qed.

Lemma call_llm_without_consent p prompt max_retries :
  user_consent p = false \/ session_open p = false ->
  call_llm respond cfg p prompt max_retries = (None, []).
Proof.
  intros H. unfold call_llm.
  destruct (Privacy.anonymize_text prompt) as [anonymized mapping].
  destruct (enabled p), (user_consent p) eqn:Hc; cbn [negb orb];
    try reflexivity.
  destruct H as [H | H]; [discriminate |].
  destruct (key_set (OPENAI_API_KEY cfg)).
  - unfold _call_openai. apply openai_attempts_closed. exact H.
  - destruct (key_set (ANTHROPIC_API_KEY cfg)); reflexivity.
Qed.

(** X14.  [call_llm] returns a text only when it was enabled, had consent, an
    OpenAI key was configured and the client session was open, and then
    the text is what the provider answered to the redacted prompt within
    the retries.  Without an OpenAI key nothing is sent and the result is
    [None], also when the key of Anthropic is set. *)
Theorem call_llm_answers_from_openai_only :
  forall (p : proxy) (prompt : Privacy.text) (max_retries : Z),
    let redacted := fst (Privacy.anonymize_text prompt) in
    (forall text,
        fst (call_llm respond cfg p prompt max_retries) = Some text ->
        enabled p = true /\ user_consent p = true
        /\ key_set (OPENAI_API_KEY cfg) = true /\ session_open p = true
        /\ exists attempt, (Z.of_nat attempt <= max_retries)
             /\ answered respond attempt (openai_request cfg redacted) text)
    /\ (snd (call_llm respond cfg p prompt max_retries) <> [] ->
        enabled p = true /\ user_consent p = true
        /\ key_set (OPENAI_API_KEY cfg) = true /\ session_open p = true
        /\ 0 <= max_retries)
    /\ (key_set (OPENAI_API_KEY cfg) = false ->
        call_llm respond cfg p prompt max_retries = (None, [])).
Proof.
  intros p prompt max_retries redacted. subst redacted.
  unfold call_llm.
  destruct (Privacy.anonymize_text prompt) as [anonymized mapping]; cbn [fst].
  destruct (enabled p), (user_consent p); cbn [negb orb];
    try (repeat apply conj; cbn [fst snd];
         [discriminate | congruence | reflexivity]).
  destruct (key_set (OPENAI_API_KEY cfg)).
  2:{ destruct (key_set (ANTHROPIC_API_KEY cfg)); unfold _call_anthropic;
        (repeat apply conj; cbn [fst snd];
         [discriminate | congruence | reflexivity]). }
  unfold _call_openai.
  destruct (session_open p) eqn:Hs.
  - pose proof (openai_attempts_open p anonymized Hs
                  (Z.to_nat (max_retries + 1)) 0) as H.
    cbv zeta in H. destruct H as (Hrep & Hlen & Hfail & Hsome & Hnone).
    repeat apply conj.
    + intros text Hres. destruct (Hsome text Hres) as [Hone Hans].
      repeat split.
      exists (length (snd (openai_attempts respond cfg p anonymized 0
                             (Z.to_nat (max_retries + 1)))) - 1)%nat.
      split; [lia | exact Hans].
    + intros Hsent. repeat split.
      destruct (snd (openai_attempts respond cfg p anonymized 0
                       (Z.to_nat (max_retries + 1)))); [congruence |].
      cbn [length] in Hlen. lia.
    + discriminate.
  - rewrite (openai_attempts_closed p anonymized Hs).
    repeat apply conj; cbn [fst snd]; [discriminate | congruence | discriminate].
Qed.

End CloudMoreFacts.
(* ================================================================== *)
(** * More properties of the dispatch loop *)

Section ExecuteFacts.
Import Py Orchestrator EntrySpec Json CalendarSpec.

Lemma duration_arg_ends v : duration_arg v <> OutOfFuel.
Proof. destruct v; discriminate. Qed.

Lemma datetime_arg_ends v : datetime_arg v <> OutOfFuel.
Proof. destruct v; discriminate. Qed.

Lemma title_arg_ends v : title_arg v <> OutOfFuel.
Proof. destruct v; discriminate. Qed.

Lemma strings_arg_ends l : strings_arg l <> OutOfFuel.
Proof.
  induction l as [| v l IH]; [discriminate |].
  destruct v; try discriminate. cbn [strings_arg].
  destruct (strings_arg l); [discriminate | discriminate | contradiction].
Qed.

Lemma attendees_arg_ends v : attendees_arg v <> OutOfFuel.
Proof.
  destruct v; try discriminate. cbn [attendees_arg].
  pose proof (strings_arg_ends l) as H.
  destruct (strings_arg l); [discriminate | discriminate | contradiction].
Qed.

Lemma item_ends key d : item key d <> OutOfFuel.
Proof. unfold item. destruct (get key d); discriminate. Qed.

(** The [check_availability] branch reads the calendar and ends. *)
Lemma check_branch_frame intent d :
  exists o, check_branch intent d = (o, d) /\ o <> OutOfFuel.
Proof.
  unfold check_branch.
  destruct (get "datetime" intent) as [dt |];
    [| eexists; split; [reflexivity | discriminate]].
  destruct (truthy dt); cbn [negb];
    [| eexists; split; [reflexivity | discriminate]].
  unfold Store.bind at 1, Store.lift at 1.
  pose proof (duration_arg_ends (get_default "duration" (VInt 60) intent)) as Hd.
  destruct (duration_arg _) as [minutes | e |];
    [| eexists; split; [reflexivity | discriminate] | contradiction].
  unfold Store.bind at 1, Store.lift at 1.
  pose proof (datetime_arg_ends dt) as Ht.
  destruct (datetime_arg dt) as [t | e |];
    [| eexists; split; [reflexivity | discriminate] | contradiction].
  unfold Store.bind at 1.
  pose proof (read_only_check_availability t minutes d) as Hro.
  pose proof (check_availability_ends t minutes d) as Hends.
  destruct (Calendar.check_availability t minutes d) as [[a | e |] d'];
    cbn [fst snd] in *; subst.
  - destruct (Calendar.available a);
      [eexists; split; [reflexivity | discriminate] |].
    destruct (default [] (Calendar.suggested_times a));
      eexists; (split; [reflexivity | discriminate]).
  - eexists; split; [reflexivity | discriminate].
  - contradiction.
Qed.

Lemma book_branch_ends intent d : fst (book_branch intent d) <> OutOfFuel.
Proof.
  unfold book_branch.
  unfold Store.bind at 1, Store.lift at 1.
  unfold Store.bind at 1, Store.lift at 1.
  pose proof (item_ends "datetime" intent) as Hi.
  destruct (item "datetime" intent) as [start | e |];
    [| discriminate | contradiction].
  unfold Store.bind at 1, Store.lift at 1.
  pose proof (duration_arg_ends (get_default "duration" (VInt 60) intent)) as Hd.
  destruct (duration_arg _) as [minutes | e |];
    [| discriminate | contradiction].
  unfold Store.bind at 1, Store.lift at 1.
  pose proof (datetime_arg_ends start) as Ht.
  destruct (datetime_arg start) as [t | e |];
    [| discriminate | contradiction].
  unfold Store.bind at 1, Store.lift at 1.
  pose proof (title_arg_ends (get_default "title" (str "Appointment") intent))
    as Hn.
  destruct (title_arg _) as [name | e |]; [| discriminate | contradiction].
  unfold Store.bind at 1, Store.lift at 1.
  pose proof (attendees_arg_ends (get_default "attendees" (VList []) intent))
    as Hw.
  destruct (attendees_arg _) as [who | e |]; [| discriminate | contradiction].
  unfold Store.bind at 1.
  match goal with
  | |- context [Calendar.book_appointment ?r d] =>
      pose proof (book_appointment_ends r d) as Hb;
      destruct (Calendar.book_appointment r d) as [[b | e |] d']
  end; cbn [fst] in *; [| discriminate | contradiction].
  destruct (Calendar.booking_message b); discriminate.
Qed.

Lemma with_tasks_fields st ts :
  calendar (with_tasks st ts) = calendar st
  /\ cloud (with_tasks st ts) = cloud st
  /\ active_sessions (with_tasks st ts) = active_sessions st.
Proof. repeat split. Qed.

(** What the body of [_execute_intent] can change. *)
Lemma dispatch_frame intent st :
  fst (dispatch intent st) <> OutOfFuel
  /\ active_sessions (snd (dispatch intent st)) = active_sessions st
  /\ cloud (snd (dispatch intent st)) = cloud st
  /\ (is_intent "book_appointment" (kind_of intent) = false ->
      calendar (snd (dispatch intent st)) = calendar st)
  /\ (is_intent "create_task" (kind_of intent) = false ->
      tasks (snd (dispatch intent st)) = tasks st)
  /\ (unhandled intent = true -> dispatch intent st = (Ok (Say not_sure), st)).
Proof.
  unfold dispatch, unhandled, kind_of.
  destruct (is_intent "check_availability" _) eqn:Hcheck.
  { destruct (check_branch_frame intent (calendar st)) as (o & -> & Hends).
    rewrite with_calendar_same. cbn [fst snd].
    repeat split; try assumption; discriminate. }
  destruct (is_intent "book_appointment" _) eqn:Hbook.
  { pose proof (book_branch_ends intent (calendar st)) as Hends.
    destruct (book_branch intent (calendar st)) as [o d]; cbn [fst snd] in *.
    repeat split; try assumption; discriminate. }
  destruct (is_intent "create_task" _) eqn:Htask.
  { pose proof (item_ends "title" intent) as Hi.
    destruct (item "title" intent) as [title | e |];
      [| repeat split; discriminate | contradiction].
    unfold create_task. cbn [fst snd].
    repeat split; discriminate. }
  repeat split; discriminate.
Qed.

Lemma execute_intent_cases intent session_id st :
  exists response,
    _execute_intent intent session_id st
    = (Ok response, snd (dispatch intent st))
    /\ match fst (dispatch intent st) with
       | Ok r => response = r
       | Raise (KeyError _) => response = Say missing_details
       | Raise _ => response = Say internal_error
       | OutOfFuel => False
       end.
Proof.
  unfold _execute_intent.
  destruct (dispatch_frame intent st) as (Hends & _).
  destruct (dispatch intent st) as [[r | e |] st']; cbn [fst snd] in *.
  - exists r. split; reflexivity.
  - destruct e; eexists; split; reflexivity.
  - contradiction.
Qed.

(** X15.  [_execute_intent] always answers: whatever the intent holds, it returns
    a reply and raises nothing.  It never touches the sessions or the
    proxy; the calendar can change only for an intent to book and the tasks
    only for an intent to create a task.  An intent that is none of the
    three kinds, as ["cancel_appointment"] that the prompt offers to the
    model, gets "I'm not sure how to help with that. Can you rephrase?" and
    changes nothing. *)
Theorem execute_intent_always_answers :
  forall (intent : dict) (session_id : option string) (st : state),
    exists (response : reply) (st' : state),
      _execute_intent intent session_id st = (Ok response, st')
      /\ active_sessions st' = active_sessions st
      /\ cloud st' = cloud st
      /\ (is_intent "book_appointment" (kind_of intent) = false ->
          calendar st' = calendar st)
      /\ (is_intent "create_task" (kind_of intent) = false ->
          tasks st' = tasks st)
      /\ (unhandled intent = true -> response = Say not_sure /\ st' = st).
Proof.
  intros intent session_id st.
  destruct (execute_intent_cases intent session_id st) as (response & Hrun & Hr).
  destruct (dispatch_frame intent st) as (_ & Hs & Hc & Hcal & Htasks & Hun).
  exists response, (snd (dispatch intent st)).
  repeat apply conj; try assumption.
  intros H. rewrite (Hun H) in Hr |- *. cbn [fst snd] in *.
  split; [exact Hr | reflexivity].
Qed.

End ExecuteFacts.

Section ProcessFacts.
Import Py Orchestrator EntrySpec Json CalendarSpec.

Variable ollama_chat : Privacy.text -> dict -> option Privacy.text.
Variable json_loads : Privacy.text -> Nlu.loads.
Variable respond : nat -> Cloud.request -> Cloud.response.
Variable cfg : Cloud.config.

Lemma below_local text ctx :
  local_failure ollama_chat json_loads text ctx = false ->
  below (get_default "confidence" (VFloat 1)
           (Nlu.parse_intent ollama_chat json_loads text ctx)) (7 # 10)
  = Ok false.
Proof.
  intros H. unfold get_default.
  rewrite (local_confidence ollama_chat json_loads text ctx H).
  reflexivity.
Qed.

Lemma below_fallback text ctx :
  local_failure ollama_chat json_loads text ctx = true ->
  below (get_default "confidence" (VFloat 1)
           (Nlu.parse_intent ollama_chat json_loads text ctx)) (7 # 10)
  = Ok true.
Proof.
  intros H. rewrite (failure_is_fallback ollama_chat json_loads text ctx H).
  unfold get_default.
  destruct (fallback_confidence text) as [-> | ->]; reflexivity.
Qed.

(** The three steps that resolve the intent, by what the local model did. *)
Lemma resolve_cases text session_id use_cloud st :
  let ctx := context_of session_id st in
  let local := Nlu.parse_intent ollama_chat json_loads text ctx in
  resolve ollama_chat json_loads respond cfg text session_id use_cloud st
  = match local_failure ollama_chat json_loads text ctx, use_cloud with
    | true, true =>
        match Cloud.call_llm respond cfg (cloud st) text 2 with
        | (Some (c :: answer), sent) =>
            (Ok (set "source" (str "cloud")
                   (Nlu.parse_intent ollama_chat json_loads (c :: answer) ctx)),
             sent)
        | (_, sent) => (Ok local, sent)
        end
    | _, _ => (Ok local, [])
    end.
Proof.
  intros ctx local. unfold resolve. cbv zeta. fold ctx. fold local.
  destruct use_cloud.
  - destruct (local_failure ollama_chat json_loads text ctx) eqn:E.
    + unfold local. rewrite (below_fallback text ctx E).
      destruct (Cloud.call_llm respond cfg (cloud st) text 2)
        as [[[| c answer] |] sent]; reflexivity.
    + unfold local. rewrite (below_local text ctx E). reflexivity.
  - destruct (local_failure ollama_chat json_loads text ctx); reflexivity.
Qed.

Lemma resolve_returns text session_id use_cloud st :
  exists intent sent,
    resolve ollama_chat json_loads respond cfg text session_id use_cloud st
    = (Ok intent, sent).
Proof.
  rewrite resolve_cases; cbv zeta.
  destruct (local_failure ollama_chat json_loads text
              (context_of session_id st)), use_cloud;
    try (eexists; eexists; reflexivity).
  destruct (Cloud.call_llm respond cfg (cloud st) text 2)
    as [[[| c answer] |] sent]; eexists; eexists; reflexivity.
Qed.

Lemma update_session_fields session_id context intent response st :
  calendar (update_session session_id context intent response st) = calendar st
  /\ tasks (update_session session_id context intent response st) = tasks st
  /\ cloud (update_session session_id context intent response st) = cloud st.
Proof.
  unfold update_session. destruct (session_given session_id); repeat split.
Qed.

(** [process_text], by its steps. *)
Lemma process_text_steps text session_id use_cloud st :
  exists intent sent response,
    resolve ollama_chat json_loads respond cfg text session_id use_cloud st
    = (Ok intent, sent)
    /\ _execute_intent intent session_id st
       = (Ok response, snd (dispatch intent st))
    /\ process_text ollama_chat json_loads respond cfg
         text session_id use_cloud st
       = (Ok (Success response intent), sent,
          update_session session_id (context_of session_id st)
            intent response (snd (dispatch intent st))).
Proof.
  destruct (resolve_returns text session_id use_cloud st)
    as (intent & sent & Hres).
  destruct (execute_intent_cases intent session_id st) as (response & Hrun & _).
  exists intent, sent, response. repeat split; try assumption.
  unfold process_text. rewrite Hres, Hrun. reflexivity.
Qed.

(** X16.  Escalation.  [process_text] sends something to the provider only
    when the caller asked for the cloud, the local attempt failed (the call
    of the local model raised, or [json.loads] raised something else than
    [JSONDecodeError] on its answer; every other answer of the local model
    has the confidence 0.8, which is not below 0.7), the proxy is enabled
    and has consent, an OpenAI key is set and the client session is open.
    What it sends then is the request with the redacted text, at most
    three times. *)
Theorem cloud_is_asked_only_after_local_failure :
  forall (text : Privacy.text) (session_id : option string) (use_cloud : bool)
         (st : state),
    let sent :=
      snd (fst (process_text ollama_chat json_loads respond cfg
                  text session_id use_cloud st)) in
    (sent <> [] ->
     use_cloud = true
     /\ (ollama_chat text (context_of session_id st) = None
         \/ exists content span,
              ollama_chat text (context_of session_id st) = Some content
              /\ Nlu.json_span content = Some span
              /\ json_loads span = Nlu.OtherError)
     /\ Cloud.enabled (cloud st) = true
     /\ Cloud.user_consent (cloud st) = true
     /\ Cloud.key_set (Cloud.OPENAI_API_KEY cfg) = true
     /\ Cloud.session_open (cloud st) = true)
    /\ sent = repeat (Cloud.openai_request cfg (fst (Privacy.anonymize_text text)))
                (length sent)
    /\ (length sent <= 3)%nat.
Proof.
  intros text session_id use_cloud st sent. subst sent.
  destruct (process_text_steps text session_id use_cloud st)
    as (intent & sent & response & Hres & _ & ->).
  cbn [fst snd].
  rewrite resolve_cases in Hres; cbv zeta in Hres.
  pose proof (call_llm_sent respond cfg (cloud st) text 2) as Hsent.
  cbv zeta in Hsent. destruct Hsent as (Hgate & Hrep & Hlen).
  change (Z.to_nat (2 + 1)) with 3%nat in Hlen.
  destruct (local_failure ollama_chat json_loads text
              (context_of session_id st)) eqn:Hfail, use_cloud.
  2, 3, 4: inversion Hres; subst sent;
           repeat apply conj; cbn [length repeat];
           [congruence | reflexivity | lia].
  apply local_failure_iff in Hfail.
  destruct (Cloud.call_llm respond cfg (cloud st) text 2)
    as [[[| c answer] |] sent0]; cbn [snd] in *;
    inversion Hres; subst sent0;
    (repeat apply conj; [| exact Hrep | exact Hlen]);
    intros Hne; destruct (Hgate Hne) as (He & Hc & Hk & Ho); auto.
Qed.

Lemma serve_without_consent calls :
  forall st,
    Cloud.user_consent (cloud st) = false
    \/ Cloud.session_open (cloud st) = false ->
    fst (serve ollama_chat json_loads respond cfg calls st) = []
    /\ cloud (snd (serve ollama_chat json_loads respond cfg calls st)) = cloud st.
Proof.
  induction calls as [| c calls IH]; intros st Hc; [split; reflexivity |].
  cbn [serve].
  destruct (process_text_steps (call_text c) (call_session c)
              (call_use_cloud c) st)
    as (intent & sent & response & Hres & _ & ->).
  assert (Hsent : sent = []).
  { rewrite resolve_cases in Hres; cbv zeta in Hres.
    rewrite (call_llm_without_consent respond cfg (cloud st) _ 2 Hc) in Hres.
    destruct (local_failure _ _ _ _), (call_use_cloud c);
      inversion Hres; reflexivity. }
  subst sent.
  set (st1 := update_session _ _ _ _ _).
  assert (Hcloud : cloud st1 = cloud st).
  { unfold st1.
    destruct (update_session_fields (call_session c)
                (context_of (call_session c) st) intent response
                (snd (dispatch intent st))) as (_ & _ & ->).
    apply dispatch_frame. }
  destruct (IH st1) as [Hs Hc1]; [rewrite Hcloud; exact Hc |].
  destruct (serve ollama_chat json_loads respond cfg calls st1) as [sent' st2].
  cbn [fst snd] in *. subst sent'. split; [reflexivity | congruence].
Qed.

(** X17.  Without consent nothing is sent.  [CloudProxy.__init__] sets
    [user_consent] to [False], and neither [process_text] nor [call_llm]
    ever sets it: from a state whose proxy has no consent, every sequence
    of [process_text] calls, with or without [use_cloud] and whether or not
    the proxy is enabled, sends no request at all and leaves the proxy as
    it is.  This stays so when the client session of the proxy is opened
    with [__aenter__]: the consent is still missing. *)
Theorem nothing_is_sent_without_consent :
  forall (calls : list call) (st : state),
    Cloud.user_consent (cloud st) = false ->
    let st1 := with_cloud st (CloudProxy.__aenter__ (cloud st)) in
    fst (serve ollama_chat json_loads respond cfg calls st) = []
    /\ cloud (snd (serve ollama_chat json_loads respond cfg calls st)) = cloud st
    /\ fst (serve ollama_chat json_loads respond cfg calls st1) = []
    /\ cloud (snd (serve ollama_chat json_loads respond cfg calls st1))
       = cloud st1
    /\ (forall enabled,
          Cloud.user_consent (CloudProxy.__init__ enabled) = false
          /\ Cloud.user_consent
               (CloudProxy.__aenter__ (CloudProxy.__init__ enabled)) = false).
Proof.
  intros calls st Hconsent st1.
  destruct (serve_without_consent calls st) as [Hs Hc];
    [left; exact Hconsent |].
  destruct (serve_without_consent calls st1) as [Hs1 Hc1];
    [left; exact Hconsent |].
  repeat split; assumption.
Qed.

Lemma lookup_updated session_id s context intent response st :
  session_given session_id = Some s ->
  active_sessions (update_session session_id context intent response st)
  = <[s := set "last_response" (VReply response)
             (set "last_intent" (VDict intent) context)]> (active_sessions st).
Proof. intros H. unfold update_session. rewrite H. reflexivity. Qed.

(** X18.  [process_text] always reports success: the intent is always resolved,
    [_execute_intent] always answers, and the failure of an action is a
    reply like any other.  The sessions work as a store of contexts: with
    a session id that is not empty, the context of that session afterwards
    holds this intent and this reply under ["last_intent"] and
    ["last_response"], keeps every other key it had, and is what the next
    call of the session gets; no other session is touched.  Without a
    session id the sessions are as before. *)
Theorem process_text_keeps_the_session :
  forall (text : Privacy.text) (session_id : option string) (use_cloud : bool)
         (st : state),
    exists (response : reply) (intent : dict) (sent : list Cloud.request)
           (st' : state),
      process_text ollama_chat json_loads respond cfg
        text session_id use_cloud st
      = (Ok (Success response intent), sent, st')
      /\ cloud st' = cloud st
      /\ (session_given session_id = None ->
          active_sessions st' = active_sessions st)
      /\ (forall s, session_given session_id = Some s ->
            (forall s', s' <> s ->
               active_sessions st' !! s' = active_sessions st !! s')
            /\ exists ctx,
                 active_sessions st' !! s = Some ctx
                 /\ context_of session_id st' = ctx
                 /\ get "last_intent" ctx = Some (VDict intent)
                 /\ get "last_response" ctx = Some (VReply response)
                 /\ forall key, key <> "last_intent"%string ->
                      key <> "last_response"%string ->
                      get key ctx = get key (context_of session_id st)).
Proof.
  intros text session_id use_cloud st.
  destruct (process_text_steps text session_id use_cloud st)
    as (intent & sent & response & Hres & _ & Hrun).
  destruct (dispatch_frame intent st) as (_ & Hsess & Hcloud & _).
  exists response, intent, sent. eexists. split; [exact Hrun |].
  destruct (update_session_fields session_id (context_of session_id st)
              intent response (snd (dispatch intent st))) as (_ & _ & Hc).
  split; [congruence |]. split.
  - intros Hnone. unfold update_session. rewrite Hnone. exact Hsess.
  - intros s Hs.
    rewrite (lookup_updated session_id s _ _ _ _ Hs), Hsess. split.
    + intros s' Hne. apply lookup_insert_ne. congruence.
    + eexists. split; [apply lookup_insert_eq |].
      split.
      * unfold context_of. rewrite Hs.
        rewrite (lookup_updated session_id s _ _ _ _ Hs), Hsess.
        rewrite lookup_insert_eq. reflexivity.
      * split; [| split].
        -- rewrite get_set_other by discriminate. apply get_set_same.
        -- apply get_set_same.
        -- intros key H1 H2.
           rewrite get_set_other by assumption.
           rewrite get_set_other by assumption. reflexivity.
Qed.

(** X19.  An answer of the local model that cannot be read.  When the answer
    holds no [{...}] span, or holds one that [json.loads] refuses with
    [JSONDecodeError], the
    intent is ["unknown"] with the answer under ["text"] or ["raw"] and the
    confidence 0.8; nothing is sent to the provider, even with [use_cloud];
    the reply is "I'm not sure how to help with that. Can you rephrase?",
    and nothing but the session of the call is changed. *)
Theorem unreadable_answer_is_not_understood :
  forall (text : Privacy.text) (session_id : option string) (use_cloud : bool)
         (st : state) (content : Privacy.text),
    ollama_chat text (context_of session_id st) = Some content ->
    (forall span, Nlu.json_span content = Some span ->
                  json_loads span = Nlu.JSONDecodeError) ->
    exists intent,
      process_text ollama_chat json_loads respond cfg
        text session_id use_cloud st
      = (Ok (Success (Say not_sure) intent), [],
         update_session session_id (context_of session_id st) intent
           (Say not_sure) st)
      /\ get "intent" intent = Some (str "unknown")
      /\ get "confidence" intent = Some (VFloat (8 # 10))
      /\ (get "text" intent = Some (VStr content)
          \/ get "raw" intent = Some (VStr content)).
Proof.
  intros text session_id use_cloud st content Hchat Hbad.
  assert (Hres :
    resolve ollama_chat json_loads respond cfg text session_id use_cloud st
    = (Ok (Nlu.parse_intent ollama_chat json_loads text
             (context_of session_id st)), [])).
  { rewrite resolve_cases; cbv zeta.
    assert (Hlocal : local_failure ollama_chat json_loads text
                       (context_of session_id st) = false).
    { unfold local_failure. rewrite Hchat.
      destruct (Nlu.json_span content) as [span |] eqn:Hspan; [| reflexivity].
      rewrite (Hbad span eq_refl). reflexivity. }
    rewrite Hlocal. destruct use_cloud; reflexivity. }
  assert (Hintent :
    exists key,
      (key = "text"%string \/ key = "raw"%string)
      /\ Nlu.parse_intent ollama_chat json_loads text (context_of session_id st)
         = [("intent", str "unknown"); (key, VStr content);
            ("confidence", VFloat Nlu.conf_08)]).
  { unfold Nlu.parse_intent. rewrite Hchat.
    destruct (Nlu.json_span content) as [span |] eqn:Hspan.
    - rewrite (Hbad span eq_refl). exists "raw"%string.
      split; [right; reflexivity | reflexivity].
    - exists "text"%string. split; [left; reflexivity | reflexivity]. }
  destruct Hintent as (key & Hkey & Hintent).
  exists (Nlu.parse_intent ollama_chat json_loads text
            (context_of session_id st)).
  assert (Hrun :
    _execute_intent
      (Nlu.parse_intent ollama_chat json_loads text (context_of session_id st))
      session_id st = (Ok (Say not_sure), st)).
  { rewrite Hintent. destruct Hkey as [-> | ->]; reflexivity. }
  repeat apply conj.
  - unfold process_text. rewrite Hres, Hrun. reflexivity.
  - rewrite Hintent. destruct Hkey as [-> | ->]; reflexivity.
  - rewrite Hintent. destruct Hkey as [-> | ->]; reflexivity.
  - rewrite Hintent. destruct Hkey as [-> | ->]; [left | right]; reflexivity.
Qed.

End ProcessFacts.

(** The theorem at work: the proxy is enabled through [ENABLE_CLOUD=true],
    the local model is down and the caller asks for the cloud. *)
Lemma nothing_is_sent_without_consent_witness :
  let st := EntrySpec.with_cloud DispatchSpec.idle_state
              (CloudProxy.__init__
                 (Config.flag (Some (list_ascii_of_string "true")))) in
  Cloud.enabled (Orchestrator.cloud st) = true
  /\ fst (EntrySpec.serve DispatchSpec.model_down DispatchSpec.no_json
            (CloudSpec.third_time_lucky DispatchSpec.book_a_room)
            CloudSpec.openai_key
            [{| EntrySpec.call_text := DispatchSpec.book_a_room;
                EntrySpec.call_session := None;
                EntrySpec.call_use_cloud := true |}] st) = [].
Proof.
  cbv zeta. split; [reflexivity |].
  apply (nothing_is_sent_without_consent DispatchSpec.model_down
           DispatchSpec.no_json
           (CloudSpec.third_time_lucky DispatchSpec.book_a_room)
           CloudSpec.openai_key).
  reflexivity.
Defined.

(** The theorem at work: the model answers in prose. *)
Lemma unreadable_answer_is_not_understood_witness :
  let content := list_ascii_of_string "I can book that for you." in
  exists intent,
    fst (Orchestrator.process_text (fun _ _ => Some content)
           (fun _ => Nlu.JSONDecodeError)
           DispatchSpec.unreachable DispatchSpec.no_keys
           (list_ascii_of_string "book a room") None true
           DispatchSpec.idle_state)
    = (Ok (Orchestrator.Success (Py.Say Orchestrator.not_sure) intent), []).
Proof.
  cbv zeta.
  destruct (unreadable_answer_is_not_understood
              (fun _ _ => Some (list_ascii_of_string "I can book that for you."))
              (fun _ => Nlu.JSONDecodeError)
              DispatchSpec.unreachable DispatchSpec.no_keys
              (list_ascii_of_string "book a room") None true
              DispatchSpec.idle_state
              (list_ascii_of_string "I can book that for you.")
              eq_refl ltac:(intros span _; reflexivity))
    as (intent & Hrun & _).
  exists intent. rewrite Hrun. reflexivity.
Defined.

(* ================================================================== *)
(** * Intents that come from JSON *)

Section JsonFacts.
Import Py Orchestrator EntrySpec Json CalendarSpec.

Lemma json_get d key v :
  json_object d = true -> get key d = Some v -> is_json v = true.
Proof.
  unfold json_object. induction d as [| [k v0] d IH]; cbn [get forallb snd].
  - discriminate.
  - intros H. apply andb_true_iff in H as [Hv Hd].
    destruct (String.eqb k key); [| auto].
    intros Heq; inversion Heq; subst; exact Hv.
Qed.

Lemma json_set d key v :
  json_object d = true -> is_json v = true -> json_object (set key v d) = true.
Proof.
  unfold json_object. intros Hd Hv.
  induction d as [| [k v0] d IH]; cbn [set forallb snd].
  - rewrite Hv. reflexivity.
  - cbn [forallb snd] in Hd. apply andb_true_iff in Hd as [Hv0 Hd].
    destruct (String.eqb k key); cbn [forallb snd].
    + rewrite Hv, Hd. reflexivity.
    + rewrite Hv0, (IH Hd). reflexivity.
Qed.

Lemma json_no_datetime d : json_object d = true -> no_datetime d = true.
Proof.
  intros Hd. unfold no_datetime.
  destruct (get "datetime" d) as [v |] eqn:E; [| reflexivity].
  apply (json_get d _ _ Hd) in E. destruct v; try reflexivity; discriminate.
Qed.

Lemma fallback_json text : json_object (Nlu._rule_based_fallback text) = true.
Proof.
  unfold Nlu._rule_based_fallback.
  repeat match goal with
         | |- context [if ?c then _ else _] => destruct c
         end; reflexivity.
Qed.

Lemma duration_arg_raises v e : duration_arg v = Raise e -> e = TypeError.
Proof. destruct v; cbn; intros H; inversion H; reflexivity. Qed.

Lemma datetime_arg_json v :
  (forall t, v <> VDatetime t) -> datetime_arg v = Raise TypeError.
Proof. intros H. destruct v; try reflexivity. exfalso. eapply H; eauto. Qed.

Lemma no_datetime_value intent v :
  no_datetime intent = true -> get "datetime" intent = Some v ->
  forall t, v <> VDatetime t.
Proof.
  unfold no_datetime. intros H E t ->. rewrite E in H. discriminate.
Qed.

Lemma check_branch_without_datetime intent d :
  no_datetime intent = true ->
  check_branch intent d = (Ok (Say need_datetime), d)
  \/ check_branch intent d = (Raise TypeError, d).
Proof.
  intros Hno. unfold check_branch.
  destruct (get "datetime" intent) as [dt |] eqn:E; [| left; reflexivity].
  destruct (truthy dt); cbn [negb]; [| left; reflexivity].
  right. unfold Store.bind, Store.lift.
  destruct (duration_arg _) as [minutes | e |] eqn:Hd.
  - rewrite (datetime_arg_json dt (no_datetime_value intent dt Hno E)).
    reflexivity.
  - apply duration_arg_raises in Hd. subst e. reflexivity.
  - exfalso. eapply duration_arg_ends; eauto.
Qed.

Lemma book_branch_without_datetime intent d :
  no_datetime intent = true ->
  book_branch intent d = (Raise (KeyError "datetime"), d)
  \/ book_branch intent d = (Raise TypeError, d).
Proof.
  intros Hno. unfold book_branch, item.
  unfold Store.bind at 1, Store.lift at 1.
  unfold Store.bind at 1, Store.lift at 1.
  destruct (get "datetime" intent) as [start |] eqn:E; [| left; reflexivity].
  right. unfold Store.bind at 1, Store.lift at 1.
  destruct (duration_arg _) as [minutes | e |] eqn:Hd.
  - unfold Store.bind at 1, Store.lift at 1.
    rewrite (datetime_arg_json start (no_datetime_value intent start Hno E)).
    reflexivity.
  - apply duration_arg_raises in Hd. subst e. reflexivity.
  - exfalso. eapply duration_arg_ends; eauto.
Qed.

(** An intent whose ["datetime"] is not a datetime never reaches the
    calendar. *)
Lemma execute_without_datetime intent session_id st :
  no_datetime intent = true ->
  exists response st',
    _execute_intent intent session_id st = (Ok response, st')
    /\ calendar st' = calendar st
    /\ plain_reply response = true
    /\ (is_intent "check_availability" (kind_of intent) = true ->
        st' = st
        /\ (response = Say need_datetime \/ response = Say internal_error))
    /\ (is_intent "check_availability" (kind_of intent) = false ->
        is_intent "book_appointment" (kind_of intent) = true ->
        st' = st
        /\ (response = Say missing_details \/ response = Say internal_error)).
Proof.
  intros Hno. unfold _execute_intent, dispatch, kind_of.
  destruct (is_intent "check_availability" _).
  { destruct (check_branch_without_datetime intent (calendar st) Hno)
      as [-> | ->]; rewrite with_calendar_same;
      eexists; eexists; (split; [reflexivity |]);
      repeat split; auto; discriminate. }
  destruct (is_intent "book_appointment" _).
  { destruct (book_branch_without_datetime intent (calendar st) Hno)
      as [-> | ->]; rewrite with_calendar_same;
      eexists; eexists; (split; [reflexivity |]);
      repeat split; auto; discriminate. }
  destruct (is_intent "create_task" _).
  { unfold item. destruct (get "title" intent) as [title |].
    - unfold create_task. eexists; eexists; (split; [reflexivity |]).
      repeat split; discriminate.
    - eexists; eexists; (split; [reflexivity |]).
      repeat split; discriminate. }
  eexists; eexists; (split; [reflexivity |]). repeat split; discriminate.
Qed.

Variable ollama_chat : Privacy.text -> dict -> option Privacy.text.
Variable json_loads : Privacy.text -> Nlu.loads.
Variable respond : nat -> Cloud.request -> Cloud.response.
Variable cfg : Cloud.config.

(** [json.loads] returns JSON. *)
Hypothesis loads_json :
  forall s obj, json_loads s = Nlu.Loaded obj -> json_object obj = true.

Lemma parse_intent_json text ctx :
  json_object (Nlu.parse_intent ollama_chat json_loads text ctx) = true.
Proof.
  unfold Nlu.parse_intent.
  destruct (ollama_chat text ctx) as [content |]; [| apply fallback_json].
  destruct (Nlu.json_span content) as [span |]; [| reflexivity].
  destruct (json_loads span) as [obj | |] eqn:E;
    [| reflexivity | apply fallback_json].
  apply json_set; [| reflexivity].
  apply (loads_json span obj E).
Qed.

Lemma resolve_json text session_id use_cloud st intent sent :
  resolve ollama_chat json_loads respond cfg text session_id use_cloud st
  = (Ok intent, sent) ->
  json_object intent = true.
Proof.
  rewrite resolve_cases; cbv zeta.
  destruct (local_failure ollama_chat json_loads text
              (context_of session_id st)), use_cloud;
    try (intros H; inversion H; subst; apply parse_intent_json).
  destruct (Cloud.call_llm respond cfg (cloud st) text 2)
    as [[[| c answer] |] sent0];
    intros H; inversion H; subst; try apply parse_intent_json.
  apply json_set; [apply parse_intent_json | reflexivity].
Qed.

(** X20.  No text request reaches the calendar.  What [json.loads] returns holds
    no datetime (a date in JSON is a text), and neither does the intent of
    the rule-based fallback; [check_availability] and [book_appointment]
    add a [timedelta] to what they are given.  So whatever the model
    answers, [process_text] leaves the calendar as it is, and its reply is
    never an availability or a booking: an intent to check is answered with
    "I need a date and time to check availability." or with "Sorry, I
    encountered an error processing your request.", and an intent to book
    with "I didn't get all the details. Please provide more information."
    or with that error text. *)
Theorem text_requests_never_reach_the_calendar :
  forall (text : Privacy.text) (session_id : option string) (use_cloud : bool)
         (st : state),
    exists (response : reply) (intent : dict) (sent : list Cloud.request)
           (st' : state),
      process_text ollama_chat json_loads respond cfg
        text session_id use_cloud st
      = (Ok (Success response intent), sent, st')
      /\ calendar st' = calendar st
      /\ plain_reply response = true
      /\ (is_intent "check_availability" (kind_of intent) = true ->
          response = Say need_datetime \/ response = Say internal_error)
      /\ (is_intent "check_availability" (kind_of intent) = false ->
          is_intent "book_appointment" (kind_of intent) = true ->
          response = Say missing_details \/ response = Say internal_error).
Proof.
  intros text session_id use_cloud st.
  destruct (process_text_steps ollama_chat json_loads respond cfg
              text session_id use_cloud st)
    as (intent & sent & response & Hres & Hexec & Hrun).
  pose proof (resolve_json _ _ _ _ _ _ Hres) as Hjson.
  destruct (execute_without_datetime intent session_id st
              (json_no_datetime intent Hjson))
    as (response' & st' & Hexec' & Hcal & Hplain & Hcheck & Hbook).
  rewrite Hexec in Hexec'. inversion Hexec'; subst response' st'.
  exists response, intent, sent. eexists. split; [exact Hrun |].
  destruct (update_session_fields session_id (context_of session_id st)
              intent response (snd (dispatch intent st))) as (Hc & _).
  repeat apply conj.
  - congruence.
  - exact Hplain.
  - intros H. apply Hcheck. exact H.
  - intros H1 H2. apply Hbook; assumption.
Qed.

End JsonFacts.

(** The theorem at work: the model answers a request to book with a
    complete object, date included; the calendar stays empty and the reply
    is a plain text. *)
Lemma text_requests_never_reach_the_calendar_witness :
  let answer := list_ascii_of_string "{...}" in
  let obj := [("intent", Py.str "book_appointment");
              ("title", Py.str "Standup");
              ("datetime", Py.str "2025-03-01T15:00:00");
              ("duration", Py.VInt 60)]%string in
  exists response intent sent st',
    Orchestrator.process_text (fun _ _ => Some answer) (fun _ => Nlu.Loaded obj)
      DispatchSpec.unreachable DispatchSpec.no_keys
      (list_ascii_of_string "book a standup tomorrow at 3pm") None false
      DispatchSpec.idle_state
    = (Ok (Orchestrator.Success response intent), sent, st')
    /\ Orchestrator.calendar st' = Store.empty_db
    /\ EntrySpec.plain_reply response = true.
Proof.
  cbv zeta.
  destruct (text_requests_never_reach_the_calendar
              (fun _ _ => Some (list_ascii_of_string "{...}"))
              (fun _ => Nlu.Loaded
                          [("intent", Py.str "book_appointment");
                           ("title", Py.str "Standup");
                           ("datetime", Py.str "2025-03-01T15:00:00");
                           ("duration", Py.VInt 60)]%string)
              DispatchSpec.unreachable DispatchSpec.no_keys
              ltac:(intros s obj H; inversion H; reflexivity)
              (list_ascii_of_string "book a standup tomorrow at 3pm") None false
              DispatchSpec.idle_state)
    as (response & intent & sent & st' & Hrun & Hcal & Hplain & _).
  exists response, intent, sent, st'. auto.
Defined.

(** The same call, computed: the reply is the error text. *)
Example model_booking_is_answered_with_an_error :
  let answer := list_ascii_of_string "{...}" in
  let obj := [("intent", Py.str "book_appointment");
              ("title", Py.str "Standup");
              ("datetime", Py.str "2025-03-01T15:00:00");
              ("duration", Py.VInt 60)]%string in
  fst (Orchestrator.process_text (fun _ _ => Some answer) (fun _ => Nlu.Loaded obj)
         DispatchSpec.unreachable DispatchSpec.no_keys
         (list_ascii_of_string "book a standup tomorrow at 3pm") None false
         DispatchSpec.idle_state)
  = (Ok (Orchestrator.Success (Py.Say Orchestrator.internal_error)
           (Py.set "confidence" (Py.VFloat Nlu.conf_08) obj)), []).
Proof. vm_compute. reflexivity. Qed.

(* ================================================================== *)
(** * Intents that hold a datetime *)

Section DatetimeFacts.
Import Store Calendar Py Orchestrator EntrySpec CalendarSpec.

Lemma head_firstn {A} (l : list A) n :
  head (firstn (S n) l) = head l.
Proof. destruct l; reflexivity. Qed.

Lemma whole_minutes_arg intent minutes :
  whole_minutes intent minutes ->
  duration_arg (get_default "duration" (VInt 60) intent) = Ok minutes.
Proof.
  unfold whole_minutes, get_default. intros [-> | [-> ->]]; reflexivity.
Qed.

Lemma titled_arg intent name :
  titled intent name ->
  title_arg (get_default "title" (str "Appointment") intent) = Ok name.
Proof.
  unfold titled, get_default. intros [(s & -> & ->) | [-> ->]]; reflexivity.
Qed.

Lemma strings_arg_texts names :
  strings_arg (map VStr names) = Ok (map string_of_list_ascii names).
Proof.
  induction names as [| n names IH]; cbn [map strings_arg]; [reflexivity |].
  rewrite IH. reflexivity.
Qed.

Lemma invited_arg intent names :
  invited intent names ->
  attendees_arg (get_default "attendees" (VList []) intent)
  = Ok (Some (map string_of_list_ascii names)).
Proof.
  unfold invited, get_default. intros [-> | [-> ->]]; [| reflexivity].
  cbn [attendees_arg]. rewrite strings_arg_texts. reflexivity.
Qed.

Lemma check_branch_of_datetime intent t minutes d :
  get "datetime" intent = Some (VDatetime t) ->
  whole_minutes intent minutes ->
  check_branch intent d
  = match check_availability t minutes d with
    | (Ok a, d') =>
        (Ok (if available a then YesAvailable t
             else match default [] (suggested_times a) with
                  | s :: _ => HowAbout s
                  | [] => Say no_availability
                  end), d')
    | (Raise e, d') => (Raise e, d')
    | (OutOfFuel, d') => (OutOfFuel, d')
    end.
Proof.
  intros Ht Hm. unfold check_branch. rewrite Ht. cbn [truthy negb].
  unfold Store.bind, Store.lift. rewrite (whole_minutes_arg _ _ Hm).
  cbn [datetime_arg].
  destruct (check_availability t minutes d) as [[a | e |] d']; try reflexivity.
  destruct (available a); [reflexivity |].
  destruct (default [] (suggested_times a)); reflexivity.
Qed.

Lemma execute_check intent session_id st :
  is_intent "check_availability" (kind_of intent) = true ->
  _execute_intent intent session_id st
  = match check_branch intent (calendar st) with
    | (Ok r, d) => (Ok r, with_calendar st d)
    | (Raise (KeyError _), d) => (Ok (Say missing_details), with_calendar st d)
    | (Raise _, d) => (Ok (Say internal_error), with_calendar st d)
    | (OutOfFuel, d) => (OutOfFuel, with_calendar st d)
    end.
Proof.
  intros Hk. unfold _execute_intent, dispatch. unfold kind_of in Hk.
  rewrite Hk.
  destruct (check_branch intent (calendar st)) as [[r | e |] d]; reflexivity.
Qed.

(** X21.  An intent to check that holds a datetime and a duration in whole
    minutes (an [int], or none and 60) is answered from the calendar, which
    it never changes, whatever else the intent holds.  A slot without a
    conflict gets "Yes, ... is available. Would you like to book it?".  A
    slot with a conflict gets "That time is not available. How about ...?"
    with the first free probe of the week, and "Sorry, no availability
    around that time." when no probe of the week is free.  This last reply
    is also what a failure of the query in SQLite comes to. *)
Theorem check_intent_is_answered_from_the_calendar :
  forall (intent : dict) (t : Time.datetime) (minutes : Z)
         (session_id : option string) (st : state),
    is_intent "check_availability" (kind_of intent) = true ->
    get "datetime" intent = Some (VDatetime t) ->
    whole_minutes intent minutes ->
    let d := calendar st in
    let end_dt := Time.shift t (Time.minutes minutes) in
    let found := List.filter (conflict_where t end_dt) (appointments d) in
    let free :=
      List.filter (probe_free (appointments d) minutes) (probes t) in
    let answer := _execute_intent intent session_id st in
    Time.in_range end_dt = true ->
    (missing_column conflict_columns d = None -> found = [] ->
     answer = (Ok (YesAvailable t), st))
    /\ (missing_column conflict_columns d = None -> found <> [] ->
        0 <= t -> 0 <= end_dt ->
        t + Time.days 7 < Time.MAX_US -> end_dt + Time.days 7 < Time.MAX_US ->
        answer = (Ok (match free with
                      | s :: _ => HowAbout s
                      | [] => Say no_availability
                      end), st))
    /\ (forall c, missing_column conflict_columns d = Some c ->
          answer = (Ok (Say no_availability), st)).
Proof.
  intros intent t minutes session_id st Hkind Ht Hm d end_dt found free answer Hr.
  subst answer.
  rewrite (execute_check _ _ _ Hkind).
  rewrite (check_branch_of_datetime intent t minutes _ Ht Hm).
  rewrite check_availability_cases; cbv zeta.
  fold d end_dt found.
  change (Time.wall t + Time.minutes minutes) with (Time.wall end_dt).
  rewrite Hr.
  repeat apply conj.
  - intros -> ->. cbn. rewrite with_calendar_same. reflexivity.
  - intros Hc Hfound H0 H1 H2 H3. rewrite Hc.
    destruct found as [| c found']; [congruence |].
    destruct (suggest_alternatives_total t minutes d) as [sg Hsg];
      try assumption.
    + unfold end_dt in *. cbn [Time.wall Time.shift] in *. lia.
    + apply probe_columns_present. exact Hc.
    + pose proof (suggest_alternatives_spec _ _ _ _ _ Hsg) as Hspec.
      rewrite Hsg. cbn [available suggested_times default].
      rewrite with_calendar_same. fold free in Hspec. subst sg.
      destruct free; reflexivity.
  - intros c ->. cbn. rewrite with_calendar_same. reflexivity.
Qed.

(** The theorem at work: "Standup" is booked from 15:00 to 16:00, and a
    check of the half hour from 15:30, asked with a note, proposes
    16:30. *)
Lemma check_intent_is_answered_from_the_calendar_witness :
  let st := with_calendar DispatchSpec.idle_state standup_db in
  let intent :=
    [("intent", str "check_availability"); ("note", str "if possible");
     ("datetime", VDatetime (Time.shift march_1st_15h (Time.minutes 30)));
     ("duration", VInt 30)]%string in
  _execute_intent intent None st
  = (Ok (HowAbout (Time.shift march_1st_15h (Time.minutes 90))), st).
Proof.
  cbv zeta.
  destruct (check_intent_is_answered_from_the_calendar
              [("intent", str "check_availability"); ("note", str "if possible");
               ("datetime",
                VDatetime (Time.shift march_1st_15h (Time.minutes 30)));
               ("duration", VInt 30)]%string
              (Time.shift march_1st_15h (Time.minutes 30)) 30 None
              (with_calendar DispatchSpec.idle_state standup_db))
    as (_ & H & _).
  - reflexivity.
  - reflexivity.
  - left. reflexivity.
  - vm_compute. reflexivity.
  - rewrite H; [vm_compute; reflexivity | vm_compute; congruence ..].
Defined.

Lemma book_branch_of_datetime intent name t minutes names d :
  get "datetime" intent = Some (VDatetime t) ->
  titled intent name -> whole_minutes intent minutes -> invited intent names ->
  book_branch intent d
  = match book_appointment (booking_request name t minutes names) d with
    | (Ok result, d') =>
        match booking_message result with
        | Some m => (Ok (Message m), d')
        | None => (Raise (KeyError "message"), d')
        end
    | (Raise e, d') => (Raise e, d')
    | (OutOfFuel, d') => (OutOfFuel, d')
    end.
Proof.
  intros Ht Hn Hm Hw. unfold book_branch, Store.bind, Store.lift, item.
  rewrite Ht, (whole_minutes_arg _ _ Hm), (titled_arg _ _ Hn),
    (invited_arg _ _ Hw).
  cbn [datetime_arg]. fold (booking_request name t minutes names).
  destruct (book_appointment (booking_request name t minutes names) d)
    as [[result | e |] d']; try reflexivity.
  destruct (booking_message result); reflexivity.
Qed.

Lemma book_is_not_check v :
  is_intent "book_appointment" v = true ->
  is_intent "check_availability" v = false.
Proof.
  unfold is_intent. destruct v; try discriminate.
  intros H. apply text_eqb_eq in H. subst s. reflexivity.
Qed.

Lemma execute_book intent session_id st :
  is_intent "book_appointment" (kind_of intent) = true ->
  _execute_intent intent session_id st
  = match book_branch intent (calendar st) with
    | (Ok r, d) => (Ok r, with_calendar st d)
    | (Raise (KeyError _), d) => (Ok (Say missing_details), with_calendar st d)
    | (Raise _, d) => (Ok (Say internal_error), with_calendar st d)
    | (OutOfFuel, d) => (OutOfFuel, with_calendar st d)
    end.
Proof.
  intros Hk. unfold _execute_intent, dispatch. unfold kind_of in Hk.
  rewrite (book_is_not_check _ Hk), Hk.
  destruct (book_branch intent (calendar st)) as [[r | e |] d]; reflexivity.
Qed.

(** X22.  An intent to book whose arguments are of the types the calendar
    is annotated with: the title a text or absent, the datetime a datetime,
    the duration an [int] or absent, the attendees a list of texts or
    absent; whatever else the intent holds.  On a free slot the row is
    written and the reply is "Booked for ...".  On a taken slot the reply
    is "Slot not available" and nothing is written.  When the INSERT fails
    in SQLite, as it does on the table that [_init_db] creates, the result
    of [book_appointment] has no ["message"], and the reply is "I didn't
    get all the details. Please provide more information."; when the query
    of the check fails, the reply is the same. *)
Theorem book_intent_is_answered_from_the_calendar :
  forall (intent : dict) (name : string) (t : Time.datetime) (minutes : Z)
         (names : list Privacy.text) (session_id : option string) (st : state),
    is_intent "book_appointment" (kind_of intent) = true ->
    get "datetime" intent = Some (VDatetime t) ->
    titled intent name -> whole_minutes intent minutes ->
    invited intent names ->
    let d := calendar st in
    let r := booking_request name t minutes names in
    let end_dt := Time.shift t (Time.minutes minutes) in
    let found := List.filter (conflict_where t end_dt) (appointments d) in
    let answer := _execute_intent intent session_id st in
    Time.in_range end_dt = true ->
    (missing_column conflict_columns d = None -> found = [] ->
     missing_column insert_columns d = None ->
     answer = (Ok (Message (BookedFor t)), with_calendar st (with_row d r)))
    /\ (missing_column conflict_columns d = None -> found = [] ->
        forall c, missing_column insert_columns d = Some c ->
          answer = (Ok (Say missing_details), st))
    /\ (missing_column conflict_columns d = None -> found <> [] ->
        0 <= t -> 0 <= end_dt ->
        t + Time.days 7 < Time.MAX_US -> end_dt + Time.days 7 < Time.MAX_US ->
        answer = (Ok (Message SlotNotAvailable), st))
    /\ (forall c, missing_column conflict_columns d = Some c ->
          answer = (Ok (Say missing_details), st)).
Proof.
  intros intent name t minutes names session_id st Hkind Ht Hn Hm Hw
    d r end_dt found answer Hr.
  subst answer. rewrite (execute_book _ _ _ Hkind).
  rewrite (book_branch_of_datetime intent name t minutes names _ Ht Hn Hm Hw).
  fold r. rewrite book_appointment_cases; cbv zeta.
  change (req_start r) with t. change (req_duration r) with minutes.
  fold d end_dt found.
  change (Time.wall t + Time.minutes minutes) with (Time.wall end_dt).
  rewrite Hr.
  repeat apply conj.
  - intros -> -> ->. reflexivity.
  - intros -> -> c ->. cbn. rewrite with_calendar_same. reflexivity.
  - intros Hc Hfound H0 H1 H2 H3. rewrite Hc.
    destruct found as [| c found']; [congruence |].
    destruct (suggest_alternatives_total t minutes d) as [sg Hsg];
      try assumption.
    + unfold end_dt in *. cbn [Time.wall Time.shift] in *. lia.
    + apply probe_columns_present. exact Hc.
    + rewrite Hsg. cbn. rewrite with_calendar_same. reflexivity.
  - intros c ->. cbn. rewrite with_calendar_same. reflexivity.
Qed.

(** The theorem at work: an intent to book with a title, a datetime and
    two attendees and without a duration, on the table that [_init_db]
    creates. *)
Lemma book_intent_is_answered_from_the_calendar_witness :
  let st := with_calendar DispatchSpec.idle_state init_db in
  let intent :=
    [("intent", str "book_appointment"); ("title", str "Standup");
     ("datetime", VDatetime march_1st_15h);
     ("attendees", VList [str "Ann"; str "Bob"])]%string in
  _execute_intent intent None st = (Ok (Say missing_details), st).
Proof.
  cbv zeta.
  destruct (book_intent_is_answered_from_the_calendar
              [("intent", str "book_appointment"); ("title", str "Standup");
               ("datetime", VDatetime march_1st_15h);
               ("attendees", VList [str "Ann"; str "Bob"])]%string
              "Standup" march_1st_15h 60
              [list_ascii_of_string "Ann"; list_ascii_of_string "Bob"] None
              (with_calendar DispatchSpec.idle_state init_db))
    as (_ & H & _).
  - reflexivity.
  - reflexivity.
  - left. eexists. split; reflexivity.
  - right. split; reflexivity.
  - left. reflexivity.
  - vm_compute. reflexivity.
  - apply (H eq_refl eq_refl "created_by"%string). reflexivity.
Defined.

End DatetimeFacts.

(* ================================================================== *)
(** * Voice, calls and images *)

Section EntryFacts.
Import Py Orchestrator EntrySpec HybridOrchestrator.

Variable ollama_chat : Privacy.text -> dict -> option Privacy.text.
Variable json_loads : Privacy.text -> Nlu.loads.
Variable respond : nat -> Cloud.request -> Cloud.response.
Variable cfg : Cloud.config.

(** Without [use_cloud] nothing is sent. *)
Lemma process_text_local text session_id st :
  exists response intent st',
    process_text ollama_chat json_loads respond cfg text session_id false st
    = (Ok (Success response intent), [], st')
    /\ cloud st' = cloud st.
Proof.
  destruct (process_text_steps ollama_chat json_loads respond cfg
              text session_id false st)
    as (intent & sent & response & Hres & _ & Hrun).
  rewrite resolve_cases in Hres; cbv zeta in Hres.
  assert (Hsent : sent = []).
  { destruct (local_failure ollama_chat json_loads text
                (context_of session_id st));
      inversion Hres; reflexivity. }
  subst sent. exists response, intent. eexists. split; [exact Hrun |].
  destruct (update_session_fields session_id (context_of session_id st)
              intent response (snd (dispatch intent st))) as (_ & _ & ->).
  apply dispatch_frame.
Qed.

Lemma lstrip_spaces s :
  forallb SpeechPipeline.is_space s = true -> SpeechPipeline.lstrip s = [].
Proof.
  induction s as [| c s IH]; cbn [forallb SpeechPipeline.lstrip];
    [reflexivity |].
  intros H. apply andb_true_iff in H as [Hc Hs]. rewrite Hc. auto.
Qed.

Lemma lstrip_head s c rest :
  SpeechPipeline.lstrip s = c :: rest -> SpeechPipeline.is_space c = false.
Proof.
  induction s as [| a s IH]; cbn [SpeechPipeline.lstrip]; [discriminate |].
  destruct (SpeechPipeline.is_space a) eqn:Ha; [exact IH |].
  intros H; inversion H; subst. exact Ha.
Qed.

Lemma lstrip_split s :
  exists a, s = a ++ SpeechPipeline.lstrip s
            /\ forallb SpeechPipeline.is_space a = true.
Proof.
  induction s as [| c s (a & Hs & Ha)]; cbn [SpeechPipeline.lstrip].
  - exists []. split; reflexivity.
  - destruct (SpeechPipeline.is_space c) eqn:Hc.
    + exists (c :: a). cbn [app forallb]. rewrite Hc, Ha, <- Hs.
      split; reflexivity.
    + exists []. split; reflexivity.
Qed.

(** [strip] takes white space from both ends and nothing else, and what
    is left starts with a character that is not white space. *)
Lemma strip_split s :
  exists a b,
    s = a ++ SpeechPipeline.strip s ++ b
    /\ forallb SpeechPipeline.is_space a = true
    /\ forallb SpeechPipeline.is_space b = true
    /\ forall c rest, SpeechPipeline.strip s = c :: rest ->
                      SpeechPipeline.is_space c = false.
Proof.
  unfold SpeechPipeline.strip.
  destruct (lstrip_split s) as (a & Hs & Ha).
  destruct (lstrip_split (rev (SpeechPipeline.lstrip s))) as (b & Hr & Hb).
  assert (Hu : SpeechPipeline.lstrip s
               = rev (SpeechPipeline.lstrip (rev (SpeechPipeline.lstrip s)))
                 ++ rev b).
  { rewrite <- rev_app_distr, <- Hr, rev_involutive. reflexivity. }
  exists a, (rev b). repeat apply conj.
  - rewrite <- Hu. exact Hs.
  - exact Ha.
  - rewrite forallb_forall in *. intros x Hx. apply Hb.
    apply in_rev. exact Hx.
  - intros c rest Hc. rewrite Hc in Hu. cbn [app] in Hu.
    apply (lstrip_head s c (rest ++ rev b)). exact Hu.
Qed.

Variable stt_model : option (SpeechPipeline.bytes -> SpeechPipeline.heard).

(** X23.  Voice.  [process_voice] hands the transcript to [process_text] without
    [use_cloud]: nothing of what was said is sent to the provider.  When
    the transcript is empty (no model was loaded, the model raised, or it
    heard nothing but white space) the answer is "Transcription failed" and
    the state is as before; otherwise the answer is the one [process_text]
    gives for the transcript, which starts with a character that is not
    white space. *)
Theorem voice_stays_on_the_machine :
  forall (audio_bytes : SpeechPipeline.bytes) (session_id : option string)
         (st : state),
    let transcript := SpeechPipeline.transcribe stt_model audio_bytes in
    let run := process_voice ollama_chat json_loads respond cfg stt_model
                 audio_bytes session_id st in
    snd (fst run) = []
    /\ cloud (snd run) = cloud st
    /\ (transcript = [] -> run = (Ok TranscriptionFailed, [], st))
    /\ (stt_model = None -> transcript = [])
    /\ (forall model text,
          stt_model = Some model ->
          model audio_bytes = SpeechPipeline.Raised
          \/ model audio_bytes = SpeechPipeline.Result None
          \/ (model audio_bytes = SpeechPipeline.Result (Some text)
              /\ forallb SpeechPipeline.is_space text = true) ->
          transcript = [])
    /\ (forall c rest,
          transcript = c :: rest ->
          SpeechPipeline.is_space c = false
          /\ exists response intent,
               run = (Ok (Processed (Success response intent)), [], snd run)
               /\ process_text ollama_chat json_loads respond cfg
                    transcript session_id false st
                  = (Ok (Success response intent), [], snd run)).
Proof.
  intros audio_bytes session_id st transcript run.
  assert (Hrun :
    run = match transcript with
          | [] => (Ok TranscriptionFailed, [], st)
          | c :: rest =>
              match process_text ollama_chat json_loads respond cfg
                      (c :: rest) session_id false st with
              | (Ok r, sent, st') => (Ok (Processed r), sent, st')
              | (Raise e, sent, st') => (Raise e, sent, st')
              | (OutOfFuel, sent, st') => (OutOfFuel, sent, st')
              end
          end) by reflexivity.
  repeat apply conj.
  - rewrite Hrun. destruct transcript as [| c rest]; [reflexivity |].
    destruct (process_text_local (c :: rest) session_id st)
      as (response & intent & st' & -> & _). reflexivity.
  - rewrite Hrun. destruct transcript as [| c rest]; [reflexivity |].
    destruct (process_text_local (c :: rest) session_id st)
      as (response & intent & st' & -> & Hc). exact Hc.
  - intros Ht. rewrite Hrun, Ht. reflexivity.
  - intros Hm. unfold transcript, SpeechPipeline.transcribe. rewrite Hm.
    reflexivity.
  - intros model text Hm H. unfold transcript, SpeechPipeline.transcribe.
    rewrite Hm. destruct H as [-> | [-> | [-> Hs]]]; try reflexivity.
    change (default [] (Some text)) with text. unfold SpeechPipeline.strip.
    rewrite (lstrip_spaces text Hs). reflexivity.
  - intros c rest Ht. split.
    + unfold transcript, SpeechPipeline.transcribe in Ht.
      destruct stt_model as [model |]; [| discriminate].
      destruct (model audio_bytes) as [text |]; [| discriminate].
      destruct (strip_split (default [] text)) as (a & b & _ & _ & _ & Hhead).
      apply (Hhead c rest Ht).
    + rewrite Hrun, Ht.
      destruct (process_text_local (c :: rest) session_id st)
        as (response & intent & st' & Hp & _).
      rewrite Hp. exists response, intent. cbn [snd]. split; reflexivity.
Qed.

(** X24.  A call.  Whatever the form holds, [process_speech] sends nothing to
    the provider, and it never says "Sorry, something went wrong. Please
    try again.": [process_text] always reports success.  Without a speech
    result it asks to repeat and leaves the orchestrator as it is; with one
    it says the reply of [process_text] for the speech, under the session
    of the call's [CallSid], in the voice "Polly.Joanna".  As long as the
    form can be read, the response gathers the next speech. *)
Theorem speech_turn_is_local :
  forall (request : option CallHandler.form) (st : state),
    let run := CallHandler.process_speech ollama_chat json_loads respond cfg
                 request st in
    snd (fst run) = []
    /\ cloud (snd run) = cloud st
    /\ exists tw,
         fst (fst run) = Ok tw
         /\ CallHandler.say tw <> CallHandler.Fixed CallHandler.went_wrong
         /\ (request = None ->
             CallHandler.say tw = CallHandler.Fixed CallHandler.goodbye
             /\ CallHandler.then_gather tw = None /\ snd run = st)
         /\ (forall f, request = Some f ->
               CallHandler.then_gather tw = Some CallHandler.next_speech
               /\ (CallHandler.SpeechResult f = None
                   \/ CallHandler.SpeechResult f = Some [] ->
                   CallHandler.say tw
                   = CallHandler.Fixed CallHandler.did_not_catch
                   /\ snd run = st)
               /\ (forall c speech,
                     CallHandler.SpeechResult f = Some (c :: speech) ->
                     exists response intent,
                       CallHandler.say tw = CallHandler.Replied response
                       /\ CallHandler.voice tw = Some "Polly.Joanna"%string
                       /\ process_text ollama_chat json_loads respond cfg
                            (c :: speech) (CallHandler.CallSid f) false st
                          = (Ok (Success response intent), [], snd run))).
Proof.
  intros request st run. subst run. unfold CallHandler.process_speech.
  destruct request as [f |].
  2:{ cbn [fst snd]. split; [reflexivity |]. split; [reflexivity |].
      eexists. split; [reflexivity |]. split; [discriminate |].
      split; [| discriminate]. intros _. repeat split. }
  assert (Hsilent :
    CallHandler.SpeechResult f = None \/ CallHandler.SpeechResult f = Some [] ->
    let run :=
      (Ok {| CallHandler.say := CallHandler.Fixed CallHandler.did_not_catch;
             CallHandler.voice := None;
             CallHandler.then_gather := Some CallHandler.next_speech |},
       @nil Cloud.request, st) in
    snd (fst run) = []
    /\ cloud (snd run) = cloud st
    /\ exists tw,
         fst (fst run) = Ok tw
         /\ CallHandler.say tw <> CallHandler.Fixed CallHandler.went_wrong
         /\ (Some f = None ->
             CallHandler.say tw = CallHandler.Fixed CallHandler.goodbye
             /\ CallHandler.then_gather tw = None /\ snd run = st)
         /\ (forall f0, Some f = Some f0 ->
               CallHandler.then_gather tw = Some CallHandler.next_speech
               /\ (CallHandler.SpeechResult f0 = None
                   \/ CallHandler.SpeechResult f0 = Some [] ->
                   CallHandler.say tw
                   = CallHandler.Fixed CallHandler.did_not_catch
                   /\ snd run = st)
               /\ (forall c speech,
                     CallHandler.SpeechResult f0 = Some (c :: speech) ->
                     exists response intent,
                       CallHandler.say tw = CallHandler.Replied response
                       /\ CallHandler.voice tw = Some "Polly.Joanna"%string
                       /\ process_text ollama_chat json_loads respond cfg
                            (c :: speech) (CallHandler.CallSid f0) false st
                          = (Ok (Success response intent), [], snd run)))).
  { intros Hf run. subst run. cbn [fst snd].
    split; [reflexivity |]. split; [reflexivity |].
    eexists. split; [reflexivity |]. split; [discriminate |].
    split; [discriminate |].
    intros f0 Hf0. injection Hf0 as <-. split; [reflexivity |]. split.
    - intros _. split; reflexivity.
    - intros c speech Hs. rewrite Hs in Hf. destruct Hf; discriminate. }
  destruct (CallHandler.SpeechResult f) as [[| c speech] |] eqn:Hf.
  - apply Hsilent. right; reflexivity.
  - clear Hsilent.
    destruct (process_text_local (c :: speech) (CallHandler.CallSid f) st)
      as (response & intent & st' & Hp & Hc).
    rewrite Hp. cbn [fst snd].
    split; [reflexivity |]. split; [exact Hc |].
    eexists. split; [reflexivity |]. split; [discriminate |].
    split; [discriminate |].
    intros f0 Hf0. injection Hf0 as <-. split; [reflexivity |]. split.
    + rewrite Hf. intros [H | H]; discriminate.
    + intros c' speech' Hs. rewrite Hf in Hs. injection Hs as <- <-.
      exists response, intent. repeat split. exact Hp.
  - apply Hsilent. left; reflexivity.
Qed.

Variable image : Type.
Variable vision_model : option (VisionPipeline.vision image).
Variable update_progress_from_image :
  Z -> dict -> list task -> VisionPipeline.attempt unit * list task.

Lemma analyze_image_cases path :
  let analysis := VisionPipeline.analyze_image vision_model path in
  (exists description task_type completion,
      analysis = [("description", VStr description);
                  ("task_type", VStr task_type);
                  ("completion_status", VStr completion);
                  ("image_path", VStr path)]%string)
  \/ (exists message trace, analysis = VisionPipeline.failure message trace)
  \/ (vision_model = None
      /\ analysis = [("error", str "model not loaded")]%string).
Proof.
  cbv zeta. unfold VisionPipeline.analyze_image.
  destruct vision_model as [m |]; [| right; right; split; reflexivity].
  destruct (VisionPipeline.encode_image m path) as [enc | message trace];
    [| right; left; eexists; eexists; reflexivity].
  destruct (VisionPipeline.answer_question m enc _) as [description | message trace];
    [| right; left; eexists; eexists; reflexivity].
  destruct (VisionPipeline.answer_question m enc _) as [task_type | message trace];
    [| right; left; eexists; eexists; reflexivity].
  destruct (VisionPipeline.answer_question m enc _) as [completion | message trace];
    [| right; left; eexists; eexists; reflexivity].
  left. eexists; eexists; eexists; reflexivity.
Qed.

(** X25.  Images.  What [analyze_image] returns is never empty: it is the four
    fields of a description, or a dictionary with ["error"].  So
    [process_image] never answers "Image analysis failed"; an analysis that
    failed (no model was loaded, or a call of the model raised) is reported
    with [success = True] like any other, and with a task id it is handed
    to [update_progress_from_image] like any other; when that call raises,
    the answer is the text of the exception.  A task id of zero counts as
    none.  The calendar, the sessions and the proxy are never touched. *)
Theorem failed_analysis_is_reported_as_success :
  forall (image_path : Privacy.text) (task_id : option Z) (st : state),
    let analysis := VisionPipeline.analyze_image vision_model image_path in
    let run := process_image image vision_model update_progress_from_image
                 image_path task_id st in
    analysis <> []
    /\ fst run <> AnalysisFailed
    /\ (get "error" analysis = None <-> get "description" analysis <> None)
    /\ (vision_model = None ->
        analysis = [("error", str "model not loaded")]%string)
    /\ (task_id = None \/ task_id = Some 0 -> run = (Analysed analysis, st))
    /\ (forall i, task_id = Some i -> i <> 0 ->
          let '(attempt, ts) :=
            update_progress_from_image i analysis (tasks st) in
          run = (match attempt with
                 | VisionPipeline.Returned _ => Analysed analysis
                 | VisionPipeline.Broke message _ => ImageError message
                 end, with_tasks st ts))
    /\ calendar (snd run) = calendar st
    /\ active_sessions (snd run) = active_sessions st
    /\ cloud (snd run) = cloud st.
Proof.
  intros image_path task_id st analysis run.
  assert (Hne : analysis <> [] /\ truthy (VDict analysis) = true
                /\ (get "error" analysis = None
                    <-> get "description" analysis <> None)).
  { destruct (analyze_image_cases image_path)
      as [(description & task_type & completion & H)
         | [(message & trace & H) | [_ H]]];
      fold analysis in H; rewrite H;
      (split; [discriminate |]); (split; [reflexivity |]); cbn;
      split; congruence. }
  destruct Hne as (Hne & Htruthy & Herr).
  assert (Hrun :
    run = match task_given task_id with
          | Some i =>
              let '(attempt, ts) :=
                update_progress_from_image i analysis (tasks st) in
              (match attempt with
               | VisionPipeline.Returned _ => Analysed analysis
               | VisionPipeline.Broke message _ => ImageError message
               end, with_tasks st ts)
          | None => (Analysed analysis, st)
          end).
  { unfold run, process_image. fold analysis. rewrite Htruthy.
    cbn [negb]. destruct (task_given task_id); [| reflexivity].
    destruct (update_progress_from_image _ _ _) as [[u | message trace] ts];
      reflexivity. }
  repeat apply conj.
  - exact Hne.
  - rewrite Hrun. destruct (task_given task_id); [| discriminate].
    destruct (update_progress_from_image _ _ _) as [[u | message trace] ts];
      discriminate.
  - apply Herr.
  - apply Herr.
  - intros Hm. unfold analysis, VisionPipeline.analyze_image. rewrite Hm.
    reflexivity.
  - intros [-> | ->]; rewrite Hrun; reflexivity.
  - intros i -> Hi. rewrite Hrun. unfold task_given.
    destruct (Z.eqb_spec i 0); [contradiction |].
    destruct (update_progress_from_image _ _ _) as [attempt ts]. reflexivity.
  - rewrite Hrun. destruct (task_given task_id); [| reflexivity].
    destruct (update_progress_from_image _ _ _) as [attempt ts]. reflexivity.
  - rewrite Hrun. destruct (task_given task_id); [| reflexivity].
    destruct (update_progress_from_image _ _ _) as [attempt ts]. reflexivity.
  - rewrite Hrun. destruct (task_given task_id); [| reflexivity].
    destruct (update_progress_from_image _ _ _) as [attempt ts]. reflexivity.
Qed.

End EntryFacts.
(* ================================================================== *)
(** * More properties of the privacy filter *)

Section UnchangedFacts.
Import Privacy PrivacySpec MappingSpec.

Local Open Scope nat_scope.

(** A pass that finds nothing copies the text. *)
Lemma sub_scan_nothing pattern pii_type :
  forall s prev m,
    search_from pattern prev s = false ->
    sub_scan pattern pii_type prev 0 s m = (s, m).
Proof.
  induction s as [| c s IH]; intros prev m Hs; [reflexivity |].
  cbn [search_from] in Hs.
  destruct (bmatch pattern prev (c :: s)) eqn:Hm; [discriminate |].
  rewrite (sub_scan_keep pattern pii_type c s prev m Hm).
  rewrite (IH (Some c) m Hs). reflexivity.
Qed.

Lemma dict_set_not_empty key value m : dict_set key value m <> [].
Proof.
  destruct m as [| [k v] m]; cbn [dict_set]; [discriminate |].
  destruct (text_eqb k key); discriminate.
Qed.

(** The mapping does not shrink. *)
Lemma sub_scan_keeps_entries pattern pii_type :
  forall s prev skip m,
    m <> [] -> snd (sub_scan pattern pii_type prev skip s m) <> [].
Proof.
  induction s as [| c s IH]; intros prev skip m Hm; [exact Hm |].
  cbn [sub_scan]. destruct skip as [| k]; [| apply IH; exact Hm].
  destruct (bmatch pattern prev (c :: s)) as [[| k] |].
  - pose proof (IH (Some c) 0 m Hm) as H.
    destruct (sub_scan pattern pii_type (Some c) 0 s m); exact H.
  - pose proof (IH (Some c) k
                  (dict_set (placeholder pii_type (length m))
                     (firstn (S k) (c :: s)) m)
                  (dict_set_not_empty _ _ _)) as H.
    destruct (sub_scan pattern pii_type (Some c) k s _); exact H.
  - pose proof (IH (Some c) 0 m Hm) as H.
    destruct (sub_scan pattern pii_type (Some c) 0 s m); exact H.
Qed.

(** A pass that finds something writes an entry. *)
Lemma sub_scan_something body pii_type :
  pii_body body ->
  forall s prev m,
    search_from (framed body) prev s = true ->
    snd (sub_scan (framed body) pii_type prev 0 s m) <> [].
Proof.
  intros Hbody. induction s as [| c s IH]; intros prev m Hs.
  - cbn [search_from] in Hs.
    rewrite (no_match_at_end body Hbody prev) in Hs. discriminate.
  - cbn [search_from] in Hs. cbn [sub_scan].
    destruct (bmatch (framed body) prev (c :: s)) as [[| k] |] eqn:Hm.
    + exfalso. apply (match_nonempty body prev (c :: s) Hbody). exact Hm.
    + pose proof (sub_scan_keeps_entries (framed body) pii_type s (Some c) k
                    (dict_set (placeholder pii_type (length m))
                       (firstn (S k) (c :: s)) m)
                    (dict_set_not_empty _ _ _)) as H.
      destruct (sub_scan (framed body) pii_type (Some c) k s _); exact H.
    + pose proof (IH (Some c) m Hs) as H.
      destruct (sub_scan (framed body) pii_type (Some c) 0 s m); exact H.
Qed.

Lemma re_sub_nothing body pii_type t m :
  search (framed body) t = false ->
  re_sub (framed body) pii_type t m = (t, m).
Proof. apply sub_scan_nothing. Qed.

Lemma re_sub_something body pii_type t m :
  pii_body body -> search (framed body) t = true ->
  snd (re_sub (framed body) pii_type t m) <> [].
Proof. intros Hb. apply sub_scan_something. exact Hb. Qed.

Lemma re_sub_keeps_entries pattern pii_type t m :
  m <> [] -> snd (re_sub pattern pii_type t m) <> [].
Proof. apply sub_scan_keeps_entries. Qed.

Lemma no_pii_patterns t :
  no_pii t <->
  search (framed email_body) t = false
  /\ search (framed phone_body) t = false
  /\ search (framed name_body) t = false.
Proof.
  unfold no_pii, patterns. split.
  - intros H. repeat split.
    + apply (H email_type). left; reflexivity.
    + apply (H phone_type). right; left; reflexivity.
    + apply (H name_type). right; right; left; reflexivity.
  - intros (He & Hp & Hn) ty pattern [H | [H | [H | []]]];
      inversion H; subst; assumption.
Qed.

Lemma no_pii_unchanged t : no_pii t -> anonymize_text t = (t, []).
Proof.
  intros H. apply no_pii_patterns in H as (He & Hp & Hn).
  rewrite anonymize_text_passes; cbv zeta.
  rewrite (re_sub_nothing email_body email_type t [] He). cbn [fst snd].
  rewrite (re_sub_nothing phone_body phone_type t [] Hp). cbn [fst snd].
  apply (re_sub_nothing name_body name_type t [] Hn).
Qed.

(** X26.  Text without personal data.  [anonymize_text] returns a text as it is,
    with an empty mapping, exactly when [re.search] finds none of the three
    patterns in it: the mapping is empty only then, and then nothing was
    changed.  The empty text is such a text. *)
Theorem text_without_pii_is_unchanged :
  forall t : text,
    (no_pii t <-> anonymize_text t = (t, []))
    /\ (no_pii t <-> snd (anonymize_text t) = [])
    /\ anonymize_text [] = ([], []).
Proof.
  intros t.
  pose proof (no_pii_unchanged t) as Hforth.
  assert (Hback : snd (anonymize_text t) = [] -> no_pii t).
  { rewrite anonymize_text_passes; cbv zeta. intros Hm.
    apply no_pii_patterns.
    destruct (search (framed email_body) t) eqn:He.
    { exfalso. revert Hm. apply re_sub_keeps_entries, re_sub_keeps_entries.
      apply re_sub_something; [apply email_body_pii | exact He]. }
    rewrite (re_sub_nothing email_body email_type t [] He) in Hm.
    cbn [fst snd] in Hm.
    destruct (search (framed phone_body) t) eqn:Hp.
    { exfalso. revert Hm. apply re_sub_keeps_entries.
      apply re_sub_something; [apply phone_body_pii | exact Hp]. }
    rewrite (re_sub_nothing phone_body phone_type t [] Hp) in Hm.
    cbn [fst snd] in Hm.
    destruct (search (framed name_body) t) eqn:Hn.
    { exfalso. revert Hm.
      apply re_sub_something; [apply name_body_pii | exact Hn]. }
    auto. }
  repeat apply conj.
  - exact Hforth.
  - intros H. apply Hback. rewrite H. reflexivity.
  - intros H. rewrite (Hforth H). reflexivity.
  - exact Hback.
  - reflexivity.
Qed.

(** What [anonymize_text] returns holds none of the patterns. *)
Lemma anonymized_no_pii t : no_pii (fst (anonymize_text t)).
Proof.
  apply no_pii_patterns.
  rewrite anonymize_text_passes. cbv zeta.
  set (r1 := re_sub (framed email_body) email_type t []).
  set (r2 := re_sub (framed phone_body) phone_type (fst r1) (snd r1)).
  unfold search. repeat split.
  - apply (search_from_clean email_body).
    apply pass_clean;
      [apply email_body_pii | apply name_body_pii | apply name_known |].
    right. apply pass_clean;
      [apply email_body_pii | apply phone_body_pii | apply phone_known |].
    right. apply pass_clean;
      [apply email_body_pii | apply email_body_pii | apply email_known |].
    left. reflexivity.
  - apply (search_from_clean phone_body).
    apply pass_clean;
      [apply phone_body_pii | apply name_body_pii | apply name_known |].
    right. apply pass_clean;
      [apply phone_body_pii | apply phone_body_pii | apply phone_known |].
    left. reflexivity.
  - apply (search_from_clean name_body).
    apply pass_clean;
      [apply name_body_pii | apply name_body_pii | apply name_known |].
    left. reflexivity.
Qed.

(** X27.  [anonymize_text] is idempotent on the text: applied to a text it
    returned, it returns that text again, with an empty mapping.  Nothing
    that it writes (a placeholder, or what is left around one) is taken for
    personal data by a second run. *)
Theorem anonymize_text_is_idempotent :
  forall t : text,
    anonymize_text (fst (anonymize_text t)) = (fst (anonymize_text t), []).
Proof.
  intros t.
  apply no_pii_unchanged. apply anonymized_no_pii.
Qed.

End UnchangedFacts.

Section MappingFacts.
Import Privacy PrivacySpec MappingSpec.

Local Open Scope nat_scope.

Lemma pattern_type_known pii_type pattern :
  In (pii_type, pattern) patterns -> In pii_type type_names.
Proof. intros H. apply (in_map fst) in H. exact H. Qed.

Lemma numbered_fresh m pii_type :
  numbered m -> In pii_type type_names ->
  forall k v, In (k, v) m -> k <> placeholder pii_type (length m).
Proof.
  intros Hnum Hty k v Hin Heq.
  apply In_nth_error in Hin as [i Hi].
  assert (i < length m) as Hlt by (apply nth_error_Some; congruence).
  destruct (Hnum i (k, v) Hi) as (ty' & pattern' & Hin' & Hk & _).
  cbn [fst] in Hk. rewrite Hk in Heq.
  apply placeholder_inj in Heq;
    [lia | apply (pattern_type_known ty' pattern' Hin') | exact Hty].
Qed.

Lemma numbered_grow m pii_type pattern w prev rest :
  numbered m -> In (pii_type, pattern) patterns ->
  w <> [] -> forallb plain w = true ->
  bmatch pattern prev (w ++ rest) = Some (length w) ->
  numbered (dict_set (placeholder pii_type (length m)) w m).
Proof.
  intros Hnum Hin Hne Hplain Hm.
  rewrite dict_set_fresh
    by (apply numbered_fresh;
        [exact Hnum | apply (pattern_type_known pii_type pattern Hin)]).
  intros i entry Hi.
  destruct (Nat.lt_ge_cases i (length m)) as [Hlt | Hge].
  - rewrite nth_error_app1 in Hi by exact Hlt. apply Hnum. exact Hi.
  - rewrite nth_error_app2 in Hi by exact Hge.
    destruct (i - length m) as [| d] eqn:Hd; cbn in Hi.
    + inversion Hi; subst entry.
      exists pii_type, pattern. cbn [fst snd].
      replace i with (length m) by lia.
      repeat split; try assumption. exists prev, rest. exact Hm.
    + destruct d; discriminate.
Qed.

Lemma numbered_pass m pii_type pattern entries :
  numbered m -> In (pii_type, pattern) patterns ->
  of_pass pii_type pattern (length m) entries ->
  numbered (m ++ entries).
Proof.
  intros Hnum Hin Hpass i entry Hi.
  destruct (Nat.lt_ge_cases i (length m)) as [Hlt | Hge].
  - rewrite nth_error_app1 in Hi by exact Hlt. apply Hnum. exact Hi.
  - rewrite nth_error_app2 in Hi by exact Hge.
    destruct (Hpass _ _ Hi) as (Hk & Hne & Hplain & Hm).
    exists pii_type, pattern.
    replace (length m + (i - length m)) with i in Hk by lia.
    repeat split; assumption.
Qed.

(** One pass appends its entries. *)
Lemma scanned_appends body pii_type :
  pii_body body -> In (pii_type, framed body) patterns ->
  forall prev m segs m',
    scanned (framed body) pii_type prev m segs m' ->
    numbered m ->
    exists entries,
      m' = m ++ entries /\ of_pass pii_type (framed body) (length m) entries.
Proof.
  intros Hbody Hin prev m segs m' Hsc.
  induction Hsc as [prev m | prev m c segs m' Hm Hsc IH
                    | prev m w segs m' Hne Hm Hsc IH]; intros Hnum.
  - exists []. split; [rewrite app_nil_r; reflexivity |].
    intros [| j] entry H; discriminate.
  - apply IH. exact Hnum.
  - pose proof Hm as Hinv.
    apply (match_inv body) in Hinv
      as (w' & tl & Heq & Hlen & _ & Hplain & _); [| exact Hbody].
    symmetry in Hlen.
    destruct (app_same_length _ _ _ _ Heq Hlen) as [<- <-].
    pose proof (numbered_grow m pii_type (framed body) w prev (src segs)
                  Hnum Hin Hne Hplain Hm) as Hnum1.
    destruct (IH Hnum1) as (entries & -> & Hpass).
    rewrite dict_set_fresh in *
      by (apply numbered_fresh;
          [exact Hnum | apply (pattern_type_known _ _ Hin)]).
    exists ((placeholder pii_type (length m), w) :: entries).
    split; [rewrite <- app_assoc; reflexivity |].
    intros [| j] entry Hj; cbn [nth_error] in Hj.
    + inversion Hj; subst entry. cbn [fst snd]. rewrite Nat.add_0_r.
      repeat split; try assumption. exists prev, (src segs). exact Hm.
    + apply Hpass in Hj. rewrite length_app in Hj. cbn [length] in Hj.
      replace (length m + S j) with (length m + 1 + j) by lia. exact Hj.
Qed.

Lemma re_sub_appends body pii_type t m :
  pii_body body -> In (pii_type, framed body) patterns ->
  numbered m ->
  exists entries,
    snd (re_sub (framed body) pii_type t m) = m ++ entries
    /\ of_pass pii_type (framed body) (length m) entries.
Proof.
  intros Hbody Hin Hnum. unfold re_sub.
  destruct (sub_scan_scanned body Hbody pii_type (length t) t (le_n _) None m)
    as (segs & _ & _ & Hsc).
  apply (scanned_appends body pii_type Hbody Hin _ _ _ _ Hsc Hnum).
Qed.

Lemma numbered_empty : numbered [].
Proof. intros [| i] entry H; discriminate. Qed.

Lemma numbered_keys m : numbered m -> List.NoDup (map fst m).
Proof.
  intros Hnum. apply List.NoDup_nth_error. intros i j Hi Heq.
  rewrite length_map in Hi. rewrite !nth_error_map in Heq.
  destruct (nth_error m i) as [[k v] |] eqn:Ei;
    [| apply nth_error_None in Ei; lia].
  destruct (nth_error m j) as [[k' v'] |] eqn:Ej; [| discriminate].
  cbn in Heq. inversion Heq; subst k'.
  destruct (Hnum i _ Ei) as (ty & pattern & Hin & Hk & _).
  destruct (Hnum j _ Ej) as (ty' & pattern' & Hin' & Hk' & _).
  cbn [fst] in Hk, Hk'. rewrite Hk in Hk'.
  apply placeholder_inj in Hk';
    [exact Hk' | apply (pattern_type_known _ _ Hin)
     | apply (pattern_type_known _ _ Hin')].
Qed.

(** X28.  The mapping that [anonymize_text] returns, for every text.  It is the
    entries of the addresses, then those of the numbers, then those of the
    names.  The key at position [i] is the placeholder of its type with the
    number [i], so the keys are pairwise distinct; a value is not empty,
    holds no square bracket, and is matched from its first to its last
    character by the pattern of its type, in the text where it was
    found. *)
Theorem mapping_entries_are_numbered_matches :
  forall t : text,
    let m := snd (anonymize_text t) in
    (exists emails phones names,
        m = emails ++ phones ++ names
        /\ of_pass email_type email_pattern 0 emails
        /\ of_pass phone_type phone_pattern (length emails) phones
        /\ of_pass name_type name_pattern (length emails + length phones)
             names)
    /\ numbered m
    /\ List.NoDup (map fst m).
Proof.
  intros t m. subst m. rewrite anonymize_text_passes. cbv zeta.
  assert (Hemail : In (email_type, framed email_body) patterns)
    by (left; reflexivity).
  assert (Hphone : In (phone_type, framed phone_body) patterns)
    by (right; left; reflexivity).
  assert (Hname : In (name_type, framed name_body) patterns)
    by (right; right; left; reflexivity).
  destruct (re_sub_appends email_body email_type t []
              email_body_pii Hemail numbered_empty)
    as (emails & He & Hpe).
  cbn [app length] in He, Hpe.
  assert (Hn1 : numbered emails).
  { apply (numbered_pass [] email_type (framed email_body) emails
             numbered_empty Hemail Hpe). }
  rewrite He.
  destruct (re_sub_appends phone_body phone_type
              (fst (re_sub (framed email_body) email_type t [])) emails
              phone_body_pii Hphone Hn1)
    as (phones & Hp & Hpp).
  assert (Hn2 : numbered (emails ++ phones)).
  { apply (numbered_pass emails phone_type (framed phone_body) phones
             Hn1 Hphone Hpp). }
  rewrite Hp.
  destruct (re_sub_appends name_body name_type
              (fst (re_sub (framed phone_body) phone_type
                      (fst (re_sub (framed email_body) email_type t []))
                      emails))
              (emails ++ phones) name_body_pii Hname Hn2)
    as (names & Hnm & Hpn).
  rewrite length_app in Hpn.
  assert (Hn3 : numbered ((emails ++ phones) ++ names)).
  { apply (numbered_pass (emails ++ phones) name_type (framed name_body) names
             Hn2 Hname). rewrite length_app. exact Hpn. }
  rewrite Hnm. repeat apply conj.
  - exists emails, phones, names. rewrite <- app_assoc.
    split; [reflexivity |]. split; [exact Hpe |].
    split; [exact Hpp | exact Hpn].
  - exact Hn3.
  - apply numbered_keys. exact Hn3.
Qed.

End MappingFacts.

Section FileFacts.
Import PrivacyFilter.

Lemma enc_path_differs (filepath : string) : (filepath +:+ ".enc")%string <> filepath.
Proof.
  induction filepath as [| c filepath IH]; cbn; [discriminate |].
  intros H. inversion H. contradiction.
Qed.

Variable fernet_encrypt : bytes -> bytes.
Variable fernet_decrypt : bytes -> option bytes.

(** Fernet gives back what it encrypted. *)
Hypothesis fernet_round_trip :
  forall data, fernet_decrypt (fernet_encrypt data) = Some data.

(** X29.  Encrypt and decrypt.  [encrypt_file] writes the token of a file under
    the path of the file with ".enc" appended and returns that path; it
    leaves the file itself, with its plain content, where it is.
    [decrypt_file] on that path writes the content of the file to the
    output path.  No other file is touched.  A file that is not there, or a
    token that Fernet refuses, raises and changes nothing. *)
Theorem encrypted_file_round_trip :
  forall (filepath output_path : string) (data : bytes)
         (fs : gmap string bytes),
    fs !! filepath = Some data ->
    let enc_path := (filepath +:+ ".enc")%string in
    let fs1 := snd (encrypt_file fernet_encrypt filepath fs) in
    let fs2 := snd (decrypt_file fernet_decrypt enc_path output_path fs1) in
    fst (encrypt_file fernet_encrypt filepath fs) = inr enc_path
    /\ fst (decrypt_file fernet_decrypt enc_path output_path fs1) = inr tt
    /\ fs1 !! filepath = Some data
    /\ fs1 !! enc_path = Some (fernet_encrypt data)
    /\ fs2 !! output_path = Some data
    /\ (forall path, path <> enc_path -> fs1 !! path = fs !! path)
    /\ (forall path, path <> enc_path -> path <> output_path ->
          fs2 !! path = fs !! path)
    /\ (forall missing other, fs !! missing = None ->
          encrypt_file fernet_encrypt missing fs
          = (inl (FileNotFoundError missing), fs)
          /\ decrypt_file fernet_decrypt missing other fs
             = (inl (FileNotFoundError missing), fs))
    /\ (forall path other token,
          fs !! path = Some token -> fernet_decrypt token = None ->
          decrypt_file fernet_decrypt path other fs = (inl InvalidToken, fs)).
Proof.
  intros filepath output_path data fs Hfile enc_path fs1 fs2.
  assert (H1 : encrypt_file fernet_encrypt filepath fs
               = (inr enc_path, <[enc_path := fernet_encrypt data]> fs)).
  { unfold encrypt_file. rewrite Hfile. reflexivity. }
  subst fs2 fs1. rewrite H1. cbn [fst snd].
  assert (Henc : <[enc_path := fernet_encrypt data]> fs !! enc_path
                 = Some (fernet_encrypt data)) by apply lookup_insert_eq.
  assert (H2 : decrypt_file fernet_decrypt enc_path output_path
                 (<[enc_path := fernet_encrypt data]> fs)
               = (inr tt, <[output_path := data]>
                            (<[enc_path := fernet_encrypt data]> fs))).
  { unfold decrypt_file. rewrite Henc, fernet_round_trip. reflexivity. }
  rewrite H2. cbn [fst snd].
  repeat apply conj.
  - reflexivity.
  - reflexivity.
  - rewrite lookup_insert_ne; [exact Hfile | apply enc_path_differs].
  - exact Henc.
  - apply lookup_insert_eq.
  - intros path Hp. apply lookup_insert_ne. congruence.
  - intros path Hp Ho.
    rewrite lookup_insert_ne by congruence.
    apply lookup_insert_ne. congruence.
  - intros missing other H.
    split; [unfold encrypt_file | unfold decrypt_file]; rewrite H; reflexivity.
  - intros path other token Hp Ht. unfold decrypt_file. rewrite Hp, Ht.
    reflexivity.
Qed.

End FileFacts.

(** The theorem at work: a file of three bytes, encrypted and decrypted
    to another path. *)
Lemma encrypted_file_round_trip_witness :
  let data := [Byte.x68; Byte.x69; Byte.x21] in
  let fs : gmap string PrivacyFilter.bytes := {[ "notes.txt"%string := data ]} in
  let fs1 := snd (PrivacyFilter.encrypt_file PrivacyFilter.toy_encrypt
                    "notes.txt" fs) in
  let fs2 := snd (PrivacyFilter.decrypt_file PrivacyFilter.toy_decrypt
                    "notes.txt.enc" "copy.txt" fs1) in
  fs2 !! "copy.txt"%string = Some data
  /\ fs2 !! "notes.txt"%string = Some data.
Proof.
  cbv zeta.
  destruct (encrypted_file_round_trip
              PrivacyFilter.toy_encrypt PrivacyFilter.toy_decrypt
              ltac:(intros data; reflexivity)
              "notes.txt" "copy.txt" [Byte.x68; Byte.x69; Byte.x21]
              {[ "notes.txt"%string := [Byte.x68; Byte.x69; Byte.x21] ]})
    as (_ & _ & _ & _ & Hout & _ & Hkeep & _).
  - vm_compute. reflexivity.
  - split; [exact Hout |].
    rewrite Hkeep; [vm_compute; reflexivity | discriminate | discriminate].
Defined.

Section OrdinaryFacts.
Import Privacy PrivacySpec MappingSpec.

Local Open Scope nat_scope.

Lemma email_has_at w : derives email_body None w None -> In "@"%char w.
Proof.
  unfold email_body. cbn [derives].
  intros (u & v & -> & _ & _ & c & w' & -> & Hc & _).
  apply in_or_app. right. left.
  unfold is_char in Hc. apply Ascii.eqb_eq in Hc. congruence.
Qed.

Lemma name_has_capital w :
  derives name_body None w None -> exists c, In c w /\ is_upper c = true.
Proof.
  unfold name_body. cbn [derives].
  intros (c & w' & -> & Hc & _). exists c. split; [left; reflexivity | exact Hc].
Qed.

Lemma filter_all {A} (p : A -> bool) u :
  forallb p u = true -> List.filter p u = u.
Proof.
  induction u as [| a u IH]; cbn [forallb List.filter]; [reflexivity |].
  intros H. apply andb_true_iff in H as [Ha Hu]. rewrite Ha, (IH Hu).
  reflexivity.
Qed.

Lemma phone_has_ten w :
  derives phone_body None w None ->
  10 <= length (List.filter is_phone_char w).
Proof.
  unfold phone_body. cbn [derives].
  assert (Hrep : forall w0 : text,
            (exists u v, w0 = u ++ v /\ forallb is_phone_char u = true
                         /\ 10 <= length u /\ v = []) ->
            10 <= length (List.filter is_phone_char w0)).
  { intros w0 (u & v & -> & Hu & Hlen & ->).
    rewrite app_nil_r, (filter_all _ _ Hu). exact Hlen. }
  intros [(c & w' & -> & _ & H) | H].
  - apply Hrep in H. cbn [List.filter].
    destruct (is_phone_char c); cbn [length]; lia.
  - apply Hrep in H. exact H.
Qed.

Lemma filter_length_app {A} (p : A -> bool) x y :
  length (List.filter p (x ++ y))
  = length (List.filter p x) + length (List.filter p y).
Proof. rewrite List.filter_app, length_app. reflexivity. Qed.

Lemma ordinary_clean t :
  ordinary t ->
  clean (framed email_body) None t
  /\ clean (framed phone_body) None t
  /\ clean (framed name_body) None t.
Proof.
  intros (Hat & Hup & Hten). repeat split; intros a b Ht.
  - destruct (bmatch (framed email_body) (last_or None a) b) as [n |] eqn:Hm;
      [| reflexivity].
    apply (match_inv email_body) in Hm
      as (w & tl & -> & _ & _ & _ & _ & _ & HD); [| apply email_body_pii].
    exfalso. apply Hat. rewrite Ht.
    apply in_or_app. right. apply in_or_app. left. apply email_has_at. exact HD.
  - destruct (bmatch (framed phone_body) (last_or None a) b) as [n |] eqn:Hm;
      [| reflexivity].
    apply (match_inv phone_body) in Hm
      as (w & tl & -> & _ & _ & _ & _ & _ & HD); [| apply phone_body_pii].
    exfalso. apply phone_has_ten in HD.
    rewrite Ht, !filter_length_app in Hten. lia.
  - destruct (bmatch (framed name_body) (last_or None a) b) as [n |] eqn:Hm;
      [| reflexivity].
    apply (match_inv name_body) in Hm
      as (w & tl & -> & _ & _ & _ & _ & _ & HD); [| apply name_body_pii].
    exfalso. apply name_has_capital in HD as (c & Hin & Hc).
    rewrite forallb_forall in Hup.
    assert (Hc' : negb (is_upper c) = true).
    { apply Hup. rewrite Ht. apply in_or_app. right.
      apply in_or_app. left. exact Hin. }
    rewrite Hc in Hc'. discriminate.
Qed.

(** X30.  What [anonymize_text] never touches: a text with no at sign, no
    capital letter from A to Z, and fewer than ten digits, dashes and round
    brackets in all, is returned as it is, with an empty mapping. *)
Theorem ordinary_text_is_returned_as_it_is :
  forall t : text,
    ordinary t ->
    anonymize_text t = (t, [])
    /\ deanonymize_text (fst (anonymize_text t)) (snd (anonymize_text t)) = t.
Proof.
  intros t Ht.
  assert (H : anonymize_text t = (t, [])).
  { apply no_pii_unchanged. apply no_pii_patterns.
    destruct (ordinary_clean t Ht) as (He & Hp & Hn).
    unfold search. repeat split.
    - apply (search_from_clean email_body). exact He.
    - apply (search_from_clean phone_body). exact Hp.
    - apply (search_from_clean name_body). exact Hn. }
  split; [exact H |]. rewrite H. reflexivity.
Qed.

End OrdinaryFacts.

(** The theorem at work, on a text with a bracket in it. *)
Lemma ordinary_text_is_returned_as_it_is_witness :
  let t := list_ascii_of_string "call me at 555-1234 [today], ok?" in
  Privacy.anonymize_text t = (t, []).
Proof.
  cbv zeta. apply ordinary_text_is_returned_as_it_is.
  repeat split.
  - vm_compute. intuition discriminate.
  - vm_compute. lia.
Defined.
